(** * restringer: the transformation engine, embedded in Rocq

    A shallow embedding of the utility layer of the deobfuscator
    (script cache, descendant search and enumeration, member-expression
    chains, reference-modification analysis, context collector, hashing,
    value-to-node constructor, sandboxed evaluation and source
    reconstruction), followed by the properties established about it.

    Part I holds the embedding, one module per source file.
    Part II holds the theorems. *)

From Stdlib Require Import ZArith Lia Bool.
From Stdlib Require Import Ascii String.
From stdpp Require Import gmap strings list pretty sorting.

(* ===================================================================== *)
(** * Part I: the embedding                                               *)
(* ===================================================================== *)

(** ** JavaScript values shared by several modules *)

Module Js.

(** An argument that may be [null], [undefined] or a string. *)
Inductive strArg :=
| ANull
| AUndefined
| AStr (s : string).

(** [x ?? d]: the nullish coalescing operator at type string. *)
Definition nullish (x : strArg) (d : string) : string :=
  match x with
  | ANull | AUndefined => d
  | AStr s => s
  end.

#[global] Instance strArg_eq_dec : EqDecision strArg.
Proof. solve_decision. Defined.

(** What running a piece of JavaScript gives: a value, a thrown exception,
    or nothing yet because the loop budget of the model ran out. *)
Inductive outcome (A : Type) : Type :=
| Ret (x : A)
| Throw
| OutOfFuel.
Arguments Ret {A} x.
Arguments Throw {A}.
Arguments OutOfFuel {A}.

Definition bind {A B : Type} (m : outcome A) (f : A → outcome B) : outcome B :=
  match m with
  | Ret x => f x
  | Throw => Throw
  | OutOfFuel => OutOfFuel
  end.

(** Run [f] over a list from left to right, threading an accumulator. *)
Fixpoint foldOutcome {A B : Type} (f : A → B → outcome A) (acc : A)
    (l : list B) : outcome A :=
  match l with
  | [] => Ret acc
  | x :: l' => bind (f acc x) (λ acc', foldOutcome f acc' l')
  end.

End Js.

(** [outcome] is used with stdpp's monad notation [x ← m; k]. *)
#[global] Instance outcome_ret : MRet Js.outcome := @Js.Ret.
#[global] Instance outcome_bind : MBind Js.outcome := λ A B f m, Js.bind m f.

(** ** src/modules/utils/getCache.js *)

Module GetCache.
Import Js.

Section WithValue.
Context {V : Type}.

(** A JavaScript object is reached through a reference; two handles are the
    same object exactly when the references are equal. *)
Definition ref := nat.

(** The module state: the object heap together with the two module-level
    variables [CACHE] and [RELEVANT_SCRIPT_HASH]. [next] is the allocator's
    cursor. *)
Record state := State {
  heap : gmap ref (gmap string V);
  next : ref;
  CACHE : ref;
  RELEVANT_SCRIPT_HASH : option string;
}.

(** [let CACHE = {}; let RELEVANT_SCRIPT_HASH = null;] *)
Definition init : state :=
  {| heap := {[ 0 := ∅ ]}; next := 1; CACHE := 0; RELEVANT_SCRIPT_HASH := None |}.

(** [CACHE = {}]: a new empty object is allocated and bound to [CACHE]. *)
Definition resetCache (st : state) : state :=
  {| heap := <[ next st := ∅ ]> (heap st);
     next := S (next st);
     CACHE := next st;
     RELEVANT_SCRIPT_HASH := RELEVANT_SCRIPT_HASH st |}.

Definition setHash (h : string) (st : state) : state :=
  {| heap := heap st; next := next st; CACHE := CACHE st;
     RELEVANT_SCRIPT_HASH := Some h |}.

(** [getCache(currentScriptHash)] returns the reference held by [CACHE]. *)
Definition getCache (currentScriptHash : strArg) (st : state) : ref * state :=
  let scriptHash := nullish currentScriptHash "no-hash" in
  let st' :=
    if bool_decide (Some scriptHash = RELEVANT_SCRIPT_HASH st) then st
    else resetCache (setHash scriptHash st) in
  (CACHE st', st').

(** [getCache.flush()] *)
Definition flush (st : state) : state := resetCache st.

(** What a client does with a handle: [cache[k] = v] and [cache[k]]. *)
Definition write (r : ref) (k : string) (v : V) (st : state) : state :=
  {| heap := alter (<[ k := v ]>) r (heap st);
     next := next st; CACHE := CACHE st;
     RELEVANT_SCRIPT_HASH := RELEVANT_SCRIPT_HASH st |}.

Definition read (r : ref) (k : string) (st : state) : option V :=
  heap st !! r ≫= (.!! k).

(** The whole mapping behind a handle. *)
Definition mapping (r : ref) (st : state) : option (gmap string V) :=
  heap st !! r.

(** Operations a run of the pipeline interleaves on the module state. *)
Inductive op :=
| Get (id : strArg)
| Flush
| Write (r : ref) (k : string) (v : V).

Definition step (st : state) (o : op) : state :=
  match o with
  | Get id => snd (getCache id st)
  | Flush => flush st
  | Write r k v => write r k v st
  end.

Definition run (ops : list op) (st : state) : state := foldl step st ops.

(** States that the module can be in: every object was handed out by the
    allocator and [CACHE] points to a live object. *)
Definition wf (st : state) : Prop :=
  is_Some (heap st !! CACHE st) ∧ CACHE st < next st.

(** An intervening operation that is not a call under another identity and
    not a flush. *)
Definition keepsIdentity (id : strArg) (o : op) : Prop :=
  match o with
  | Get id' => nullish id' "no-hash" = nullish id "no-hash"
  | Flush => False
  | Write _ _ _ => True
  end.

End WithValue.

Arguments state : clear implicits.
Arguments op : clear implicits.

End GetCache.

(** ** The flat syntax tree (flast)

    The parser hands out nodes that point at each other (parent, children,
    declaration, references, scope). Nodes are objects: they are reached
    through handles, and an [ast] maps every handle to the node's fields. *)

Module Ast.
Import Js.

Definition handle := nat.

(** The [value] of a node, as far as the code looks at it: a string, or
    something else of which only the truthiness matters. *)
Inductive litValue :=
| LitString (s : string)
| LitOther (truthy : bool).

(** The fields of [ASTNode] read by the modules below. [range] is
    [[start, end]]; flast gives every node [childNodes] and a [scope], of
    which [block] and the identifiers of [through] are kept. *)
Record node := Node {
  type : string;
  nodeId : Z;
  src : string;
  range : Z * Z;
  scriptHash : strArg;
  isMarked : bool;
  parentNode : option handle;
  parentKey : string;
  childNodes : list handle;
  declNode : option handle;
  references : option (list handle);
  scopeBlock : handle;
  scopeThrough : list handle;
  id_ : option handle;
  name : option string;
  value : option litValue;
  property : option handle;
  kind : string;
  expression : option handle;
  callee : option handle;
  arguments : list handle;
}.

Definition ast := handle → node.

(** [n.nodeId = z] on the fields of a node. *)
Definition setNodeId (z : Z) (n : node) : node :=
  {| type := type n; nodeId := z; src := src n; range := range n;
     scriptHash := scriptHash n; isMarked := isMarked n;
     parentNode := parentNode n; parentKey := parentKey n;
     childNodes := childNodes n; declNode := declNode n;
     references := references n; scopeBlock := scopeBlock n;
     scopeThrough := scopeThrough n; id_ := id_ n; name := name n;
     value := value n; property := property n; kind := kind n;
     expression := expression n; callee := callee n;
     arguments := arguments n |}.

Definition start (n : node) : Z := fst (range n).
Definition end_ (n : node) : Z := snd (range n).

(** [l.includes(x)] on an array of strings. *)
Definition includes (l : list string) (x : string) : bool := bool_decide (x ∈ l).

(** [h.type === t] *)
Definition typeIs (a : ast) (h : handle) (t : string) : bool :=
  bool_decide (type (a h) = t).

(** [d] is [n] or one of its descendants through [childNodes]. *)
Inductive reaches (a : ast) : handle → handle → Prop :=
| reaches_self n : reaches a n n
| reaches_child n c d : c ∈ childNodes (a n) → reaches a c d → reaches a n d.

(** The subtree hanging from [n] has fewer than [depth] levels: syntax trees
    are finite. *)
Fixpoint shallower (a : ast) (depth : nat) (n : handle) : bool :=
  match depth with
  | 0 => false
  | S depth' => forallb (shallower a depth') (childNodes (a n))
  end.

End Ast.

(** ** doesDescendantMatchCondition.js (src/unnamed/part_002) *)

Module DoesDescendantMatchCondition.
Import Js Ast.

(** The function returns [false], [true] or, with [returnNode], the node. *)
Inductive result :=
| RFalse
| RTrue
| RNode (h : handle).

Definition truthy (r : result) : bool :=
  match r with RFalse => false | _ => true end.

(** The [while (stack.length)] loop. The top of the stack is the head of the
    list: pushing [childNodes[length-1]], ..., [childNodes[0]] in that order
    leaves [childNodes[0]] on top, which is [childNodes ++ stack]. One unit
    of fuel is spent per iteration. *)
Fixpoint search (fuel : nat) (a : ast) (condition : handle → bool)
    (returnNode : bool) (stack : list handle) : outcome result :=
  match stack with
  | [] => Ret RFalse
  | currentNode :: stack' =>
      match fuel with
      | 0 => OutOfFuel
      | S fuel' =>
          if condition currentNode
          then Ret (if returnNode then RNode currentNode else RTrue)
          else search fuel' a condition returnNode
                 (childNodes (a currentNode) ++ stack')
      end
  end.

(** [targetNode] may be [null]/[undefined] and [condition] may fail to be a
    function; both are [None] here. *)
Definition doesDescendantMatchCondition (fuel : nat) (a : ast)
    (targetNode : option handle) (condition : option (handle → bool))
    (returnNode : bool) : outcome result :=
  match targetNode, condition with
  | Some t, Some c => search fuel a c returnNode [t]
  | _, _ => Ret RFalse
  end.

(** The loop started on [stack] comes to an end. *)
Definition halts (a : ast) (condition : handle → bool) (returnNode : bool)
    (stack : list handle) : Prop :=
  ∃ fuel r, search fuel a condition returnNode stack = Ret r.

End DoesDescendantMatchCondition.

(** ** generateHash.js *)

Module GenerateHash.
Import Js.

Section WithDigest.
(** [crypto.createHash('md5').update(s).digest('hex')], from node:crypto. *)
Variable md5 : string → string.

(** [generateHash(input)] for the inputs it receives here: a string, or
    [null]/[undefined]. *)
Definition generateHash (input : strArg) : string :=
  match input with
  | ANull | AUndefined => "null-undefined-hash"
  | AStr s => md5 s
  end.

End WithDigest.
End GenerateHash.

(** ** getDeclarationWithContext.js (src/unnamed/part_001) *)

Module GetDeclarationWithContext.
Import Js Ast GetCache GenerateHash DoesDescendantMatchCondition.

Definition IRRELEVANT_FILTER_TYPES : list string :=
  ["Literal"; "Identifier"; "MemberExpression"].

Definition TYPES_TO_COLLECT : list string :=
  ["CallExpression"; "ArrowFunctionExpression"; "AssignmentExpression";
   "FunctionDeclaration"; "FunctionExpression"; "VariableDeclarator"].

Definition SKIP_TRAVERSAL_TYPES : list string := ["Literal"; "ThisExpression"].

Definition IF_STATEMENT_KEYS : list string := ["consequent"; "alternate"].

Definition STANDALONE_WRAPPER_TYPES : list string :=
  ["ExpressionStatement"; "AssignmentExpression"; "VariableDeclarator"].

Section WithEnvironment.
(** Parameters: the digest of node:crypto, the helper of isNodeInRanges.js
    and the table of config.js. *)
Variable md5 : string → string.
Variable isNodeInRanges : node → list (Z * Z) → bool.
Variable PROPERTIES_THAT_MODIFY_CONTENT : list string.

(** The syntax tree the call works on; the collector only reads it. *)
Variable a : ast.

(** [isConsequentOrAlternate(targetNode)], for a target that is a node. *)
Definition isConsequentOrAlternate (targetNode : handle) : bool :=
  match parentNode (a targetNode) with
  | None => false
  | Some p =>
      typeIs a p "IfStatement"
      || includes IF_STATEMENT_KEYS (parentKey (a targetNode))
      || includes IF_STATEMENT_KEYS (parentKey (a p))
      || match parentNode (a p) with
         | Some pp =>
             typeIs a pp "BlockStatement"
             && includes IF_STATEMENT_KEYS (parentKey (a pp))
         | None => false
         end
  end.

(** [propertyName && PROPERTIES_THAT_MODIFY_CONTENT.includes(propertyName)]
    with [propertyName = property?.value || property?.name]. *)
Definition namesModifier (property : option handle) : bool :=
  match property with
  | None => false
  | Some p =>
      let byName :=
        match name (a p) with
        | Some s => negb (bool_decide (s = "")) && includes PROPERTIES_THAT_MODIFY_CONTENT s
        | None => false
        end in
      match value (a p) with
      | Some (LitString s) =>
          if bool_decide (s = "") then byName
          else includes PROPERTIES_THAT_MODIFY_CONTENT s
      | Some (LitOther true) => false
      | Some (LitOther false) | None => byName
      end
  end.

(** [isNodeAnAssignmentToProperty(n)], for an [n] that is a node. *)
Definition isNodeAnAssignmentToProperty (n : handle) : bool :=
  match parentNode (a n) with
  | None => false
  | Some p =>
      if negb (typeIs a p "MemberExpression") then false
      else if isConsequentOrAlternate p then false
      else if match parentNode (a p) with
              | Some pp => typeIs a pp "AssignmentExpression"
              | None => false
              end && bool_decide (parentKey (a p) = "left") then true
      else if bool_decide (parentKey (a n) = "object") then
        let property := property (a p) in
        if match property with Some q => isMarked (a q) | None => false end
        then true
        else namesModifier property
      else false
  end.

(** [removeRedundantNodes(nodes)] *)
Definition removeRedundantNodes (nodes : list handle) : list handle :=
  List.filter (λ targetNode,
    negb (existsb (λ n, negb (bool_decide (n = targetNode))
                        && (start (a n) <=? start (a targetNode))%Z
                        && (end_ (a n) >=? end_ (a targetNode))%Z) nodes)) nodes.

(** [addToStack(node)] of the closure, with the two arrays it reads. *)
Definition addToStack (visitedNodes : list handle) (stack : list handle)
    (n : handle) : list handle :=
  if bool_decide (n ∈ visitedNodes)
     || bool_decide (n ∈ stack)
     || includes SKIP_TRAVERSAL_TYPES (type (a n))
  then stack
  else stack ++ [n].

(** [h.parentNode.type === t]; reading [type] of a missing parent throws. *)
Definition parentTypeIs (h : handle) (t : string) : outcome bool :=
  match parentNode (a h) with
  | Some p => Ret (typeIs a p t)
  | None => Throw
  end.

(** One round of the loop over [refs] in the [Identifier] case: the nodes
    pushed on [targetNodes] for the reference [ref]. A pushed
    [ref.parentNode.parentNode] may be [null], hence the option. *)
Definition refTargets (node ref : handle) : outcome (list (option handle)) :=
  isArgument ←
    (if bool_decide (parentKey (a ref) = "arguments")
     then parentTypeIs ref "CallExpression" else Ret false);
  isAssigned ←
    (if (isArgument : bool) then Ret true
     else if bool_decide (parentKey (a ref) = "left") then
       leftOfAssignment ← parentTypeIs ref "AssignmentExpression";
       if (leftOfAssignment : bool) then
         ofDeclaration ← parentTypeIs node "FunctionDeclaration";
         Ret (negb ofDeclaration && negb (isConsequentOrAlternate ref))
       else Ret false
     else Ret false);
  if (isAssigned : bool) then Ret [parentNode (a ref)]
  else if isNodeAnAssignmentToProperty ref
  then Ret [parentNode (a ref) ≫= (λ p, parentNode (a p))]
  else Ret [].

(** The [while] loop of the [FunctionExpression] case, followed by the test
    after it: climb from an anonymous function to its nearest standalone
    wrapper. *)
Fixpoint climb (fuel : nat) (targetParent : handle) : outcome (list (option handle)) :=
  match parentNode (a targetParent) with
  | Some p =>
      if includes STANDALONE_WRAPPER_TYPES (type (a targetParent))
      then Ret [Some targetParent]
      else match fuel with
           | 0 => OutOfFuel
           | S fuel' => climb fuel' p
           end
  | None =>
      if includes STANDALONE_WRAPPER_TYPES (type (a targetParent))
      then Ret [Some targetParent]
      else Ret []
  end.

(** The nodes the [switch (node.type)] adds after [node] in [targetNodes]. *)
Definition relatives (fuel : nat) (node : handle) : outcome (list (option handle)) :=
  if typeIs a node "Identifier" then
    let refs := references (a node) in
    let declared :=
      match declNode (a node) ≫= (λ d, parentNode (a d)) with
      | Some dp => [Some dp]
      | None =>
          match refs, parentNode (a node) with
          | Some (_ :: _), Some p => [Some p]
          | _, _ => []
          end
      end in
    foldOutcome (λ acc ref, ts ← refTargets node ref; Ret (acc ++ ts))
      declared (default [] refs)
  else if typeIs a node "MemberExpression" then
    match property (a node) ≫= (λ p, declNode (a p)) with
    | Some d => Ret [Some d]
    | None => Ret []
    end
  else if typeIs a node "FunctionExpression" then
    match id_ (a node) with
    | Some _ => Ret []
    | None => climb fuel node
    end
  else Ret [].

(** One round of the loop over [targetNodes]: the pushes on [stack] made for
    [targetNode]. Reading [scope] of [null] throws. *)
Definition visitTarget (visitedNodes : list handle) (stack : list handle)
    (targetNode : option handle) : outcome (list handle) :=
  match targetNode with
  | None => Throw
  | Some t =>
      let stack1 :=
        if bool_decide (t ∈ visitedNodes) then stack else stack ++ [t] in
      let stack2 :=
        if bool_decide (t = scopeBlock (a t))
        then foldl (addToStack visitedNodes) stack1 (scopeThrough (a t))
        else stack1 in
      Ret (foldl (addToStack visitedNodes) stack2 (childNodes (a t)))
  end.

(** [node.isMarked || doesDescendantMatchCondition(node, n => n.isMarked)] *)
Definition touchesMarked (fuel : nat) (node : handle) : outcome bool :=
  if isMarked (a node) then Ret true
  else r ← doesDescendantMatchCondition fuel a (Some node)
             (Some (λ n, isMarked (a n))) false;
       Ret (truthy r).

(** The [while (stack.length)] loop. [stack.shift()] takes the head and
    [push] appends. [budget] bounds the loops run inside one round, [fuel]
    the rounds. The result is [collected] when the loop is left. *)
Fixpoint collect (budget fuel : nat) (stack collected visitedNodes : list handle)
    (collectedRanges : list (Z * Z)) : outcome (list handle) :=
  match stack with
  | [] => Ret collected
  | node :: stack' =>
      match fuel with
      | 0 => OutOfFuel
      | S fuel' =>
          if bool_decide (node ∈ visitedNodes)
          then collect budget fuel' stack' collected visitedNodes collectedRanges
          else
            let visitedNodes' := visitedNodes ++ [node] in
            marked ← touchesMarked budget node;
            if (marked : bool) then Ret []
            else
              let take :=
                includes TYPES_TO_COLLECT (type (a node))
                && negb (isNodeInRanges (a node) collectedRanges) in
              let collected' := if take then collected ++ [node] else collected in
              let collectedRanges' :=
                if take then collectedRanges ++ [range (a node)]
                else collectedRanges in
              more ← relatives budget node;
              stack'' ← foldOutcome (visitTarget visitedNodes') stack'
                          (Some node :: more);
              collect budget fuel' stack'' collected' visitedNodes' collectedRanges'
      end
  end.

(** A reference that is the left side of an assignment: the test negated in
    the anti-overwrite loop. *)
Definition isPlainReassignment (ref : handle) : bool :=
  bool_decide (parentKey (a ref) = "left")
  && match parentNode (a ref) with
     | Some p => typeIs a p "AssignmentExpression"
     | None => false
     end.

(** [n.id?.references], with a missing link read as no reference. *)
Definition nameReferences (n : handle) : list handle :=
  default [] (id_ (a n) ≫= (λ i, references (a i))).

(** The branch taken for a node that passed the [continue] test: is it added
    to [filteredNodes]? *)
Definition survivesOverwriteRule (n : handle) : bool :=
  if typeIs a n "FunctionDeclaration"
     && negb (bool_decide (nameReferences n = []))
  then existsb (λ ref, negb (isPlainReassignment ref)) (nameReferences n)
  else true.

(** The loop that fills [filteredNodes], a set kept in insertion order. *)
Fixpoint filterCollected (originNode : handle) (excludeOriginNode : bool)
    (collected filteredNodes : list handle) : list handle :=
  match collected with
  | [] => filteredNodes
  | n :: rest =>
      let skip :=
        bool_decide (n ∈ filteredNodes)
        || includes IRRELEVANT_FILTER_TYPES (type (a n))
        || (excludeOriginNode
            && isNodeInRanges (a n) [range (a originNode)]) in
      filterCollected originNode excludeOriginNode rest
        (if skip then filteredNodes
         else if survivesOverwriteRule n then filteredNodes ++ [n]
         else filteredNodes)
  end.

(** Everything after the [while] loop, up to the value stored in the cache. *)
Definition postProcess (originNode : handle) (excludeOriginNode : bool)
    (collected : list handle) : list handle :=
  removeRedundantNodes (filterCollected originNode excludeOriginNode collected []).

(** The two cache keys of a call. *)
Definition cacheNameId (originNode : handle) : string :=
  "context-" +:+ pretty (nodeId (a originNode)) +:+ "-"
  +:+ generateHash md5 (AStr (src (a originNode))).

Definition cacheNameSrc (originNode : handle) : string :=
  "context-" +:+ generateHash md5 (AStr (src (a originNode))).

(** [cache[cacheNameId] || cache[cacheNameSrc]]: a stored array is truthy. *)
Definition lookupCached (cache : ref) (originNode : handle)
    (st : state (list handle)) : option (list handle) :=
  match read cache (cacheNameId originNode) st with
  | Some c => Some c
  | None => read cache (cacheNameSrc originNode) st
  end.

(** [getDeclarationWithContext(originNode, excludeOriginNode)]. The script
    cache is the shared module state of getCache.js; the arrays stored under
    the two keys are the contexts computed by earlier calls. *)
Definition getDeclarationWithContext (fuel : nat) (originNode : option handle)
    (excludeOriginNode : bool) (st : state (list handle))
    : outcome (list handle) * state (list handle) :=
  match originNode with
  | None => (Ret [], st)
  | Some o =>
      let '(cache, st1) := getCache (scriptHash (a o)) st in
      match lookupCached cache o st1 with
      | Some cached => (Ret cached, st1)
      | None =>
          match collect fuel fuel [o] [] [] [] with
          | Ret collected =>
              let cached := postProcess o excludeOriginNode collected in
              (Ret cached,
               write cache (cacheNameSrc o) cached
                 (write cache (cacheNameId o) cached st1))
          | Throw => (Throw, st1)
          | OutOfFuel => (OutOfFuel, st1)
          end
      end
  end.

(** [n] or something below it is scheduled for replacement or deletion; in
    the second case the tree below [n] is finite. *)
Definition marksBelow (n : handle) : Prop :=
  isMarked (a n) = true
  ∨ ∃ depth d, shallower a depth n = true ∧ reaches a n d ∧ isMarked (a d) = true.

(** What passes the loop that fills [filteredNodes]. *)
Definition passes (o : handle) (excludeOriginNode : bool) (n : handle) : bool :=
  negb (includes IRRELEVANT_FILTER_TYPES (type (a n)))
  && negb (excludeOriginNode && isNodeInRanges (a n) [range (a o)])
  && survivesOverwriteRule n.

End WithEnvironment.
End GetDeclarationWithContext.

(** ** Strings

    JavaScript strings are sequences of characters; here the characters are
    the 8-bit ones of [ascii]. *)

Module JsString.

Definition isDigit (c : ascii) : bool :=
  (48 <=? nat_of_ascii c) && (nat_of_ascii c <=? 57).

Definition isHexDigit (c : ascii) : bool :=
  isDigit c
  || ((65 <=? nat_of_ascii c) && (nat_of_ascii c <=? 70))
  || ((97 <=? nat_of_ascii c) && (nat_of_ascii c <=? 102)).

(** White space, as [\s] and [parseInt] take it, among the 8-bit
    characters: tab, line feed, vertical tab, form feed, carriage return,
    space and the no-break space (code 160). *)
Definition isSpace (c : ascii) : bool :=
  ((9 <=? nat_of_ascii c) && (nat_of_ascii c <=? 13))
  || (nat_of_ascii c =? 32) || (nat_of_ascii c =? 160).

Fixpoint trimStart (s : string) : string :=
  match s with
  | String c s' => if isSpace c then trimStart s' else s
  | EmptyString => s
  end.

(** [s[0]] and [s.substring(1)] *)
Definition firstChar (s : string) : option ascii :=
  match s with String c _ => Some c | EmptyString => None end.

Definition substring1 (s : string) : string :=
  match s with String _ s' => s' | EmptyString => "" end.

(** [isNaN(parseInt(s))]: after leading white space and an optional sign,
    and after a [0x] prefix if there is one, no digit follows. *)
Definition parseIntIsNaN (s : string) : bool :=
  let unsigned :=
    match trimStart s with
    | String "-" r | String "+" r => r
    | r => r
    end in
  match unsigned with
  | String "0" (String "x" r) | String "0" (String "X" r) =>
      match r with String c _ => negb (isHexDigit c) | EmptyString => true end
  | String c _ => negb (isDigit c)
  | EmptyString => true
  end.

(** The line feed and the no-break space. *)
Definition LF : string := String "010" "".
Definition NBSP : string := String "160" "".

(** [l.join('')] *)
Definition join (l : list string) : string := foldr String.append "" l.

(** [l.sort()]: ascending by code units. *)
Definition sort (l : list string) : list string := merge_sort String.le l.

End JsString.

(** ** createNewNode.js *)

Module CreateNewNode.
Import Js Ast JsString.

(** A Number as far as the constructor looks at it: [String(value)] and
    [Object.is(value, -0)]. Two Numbers with the same text and the same sign
    of zero are the same Number. *)
Record number := Number {
  numberToString : string;
  isNegativeZero : bool;
}.

Definition positiveZero : number := Number "0" false.

Section WithParser.
(** Nodes that exist before the call: nodes of a tree, statements the parser
    returns. *)
Context {N : Type}.

(** flast's [parseCode]: the [body] of the parsed Program, [None] when the
    parser throws or the result has no body. *)
Variable parseCode : string → option (list N).

#[local] Set Warnings "-register-all".

(** JavaScript values, split the way [getObjType] splits them. An array is
    the list of its elements, an object the list of [Object.entries]. The
    last case covers every other type ([Date], [Map], [Promise], ...) and
    keeps its own enumerable keys. *)
Inductive jsvalue :=
| VNode (n : N)
| VString (s : string)
| VNumber (n : number)
| VBoolean (b : bool)
| VArray (elements : list jsvalue)
| VObject (entries : list (string * jsvalue))
| VUndefined
| VNull
| VBigInt (z : Z)
| VSymbol (description : option string)
| VFunction (source : string)
| VRegExp (source flags : string)
| VOther (objType : string) (keys : list string).

Definition getObjType (value : jsvalue) : string :=
  match value with
  | VNode _ => "Node"
  | VString _ => "String"
  | VNumber _ => "Number"
  | VBoolean _ => "Boolean"
  | VArray _ => "Array"
  | VObject _ => "Object"
  | VUndefined => "Undefined"
  | VNull => "Null"
  | VBigInt _ => "BigInt"
  | VSymbol _ => "Symbol"
  | VFunction _ => "Function"
  | VRegExp _ _ => "RegExp"
  | VOther t _ => t
  end.

(** What a literal holds in [value]. *)
Inductive primitive :=
| PString (s : string)
| PNumber (n : number)
| PBoolean (b : bool)
| PBigInt (z : Z).

(** What the constructor returns: the sentinel [BAD_VALUE] of config.js, a
    node that existed already, or a new node. The fields of a new node may
    hold whatever the recursive calls returned, the sentinel included. A
    missing field of a literal is [None]. *)
Inductive newNode :=
| BAD_VALUE
| Existing (n : N)
| Literal (value : option primitive) (raw : option string)
    (bigint : option string) (regex : option (string * string))
| Identifier (name : string)
| UnaryExpression (operator : string) (argument : newNode)
| ArrayExpression (elements : list newNode)
| ObjectExpression (properties : list (newNode * newNode))
| CallExpression (callee : newNode) (arguments : list newNode).

(** [x === BAD_VALUE] *)
Definition isBad (x : newNode) : bool :=
  match x with BAD_VALUE => true | _ => false end.

Definition plainLiteral (value : primitive) (raw : string) : newNode :=
  Literal (Some value) (Some raw) None None.

(** The case ['String'], ['Number'], ['Boolean'] for a value whose text is
    [valueStr]. [argument] stands for [createNewNode(absVal)], the node of
    the text after the first character; [createNewNode(0)] is the literal
    [0]. *)
Definition literalOrUnary (argument : newNode) (value : primitive)
    (valueStr : string) (negativeZero : bool) : newNode :=
  let absVal := substring1 valueStr in
  if match firstChar valueStr with
     | Some c => bool_decide (c ∈ ["-"; "+"; "!"]%char)
     | None => false
     end && (1 <? String.length valueStr)
  then
    if parseIntIsNaN absVal && negb (includes ["Infinity"; "NaN"] absVal)
    then plainLiteral value valueStr
    else UnaryExpression (String (default "-"%char (firstChar valueStr)) "") argument
  else if includes ["Infinity"; "NaN"] valueStr then Identifier valueStr
  else if negativeZero
  then UnaryExpression "-" (plainLiteral (PNumber positiveZero) "0")
  else plainLiteral value valueStr.

(** [createNewNode(s)] for a string [s]; the recursive call is on the text
    after the first character. *)
Fixpoint fromText (s : string) : newNode :=
  literalOrUnary
    (match s with String _ absVal => fromText absVal | EmptyString => BAD_VALUE end)
    (PString s) s false.

Definition fromNumber (n : number) : newNode :=
  literalOrUnary (fromText (substring1 (numberToString n)))
    (PNumber n) (numberToString n) (isNegativeZero n).

Definition fromBoolean (b : bool) : newNode :=
  let valueStr := if b then "true" else "false" in
  literalOrUnary (fromText (substring1 valueStr)) (PBoolean b) valueStr false.

(** [createNewNode(value)]. A [throw] inside the [try] is caught by the
    [catch] of the same call, which leaves [newNode] at [BAD_VALUE]. *)
Fixpoint createNewNode (value : jsvalue) : newNode :=
  match value with
  | VNode n => Existing n
  | VString s => fromText s
  | VNumber n => fromNumber n
  | VBoolean b => fromBoolean b
  | VArray elements =>
      match
        (fix each (l : list jsvalue) : outcome (list newNode) :=
           match l with
           | [] => Ret []
           | v :: l' =>
               let elementNode := createNewNode v in
               if isBad elementNode then Throw
               else bind (each l') (λ rest, Ret (elementNode :: rest))
           end) elements
      with
      | Ret elements' => ArrayExpression elements'
      | _ => BAD_VALUE
      end
  | VObject entries =>
      match
        (fix each (l : list (string * jsvalue)) : outcome (list (newNode * newNode)) :=
           match l with
           | [] => Ret []
           | (k, v) :: l' =>
               let key := fromText k in
               let val := createNewNode v in
               if isBad key || isBad val then Throw
               else bind (each l') (λ rest, Ret ((key, val) :: rest))
           end) entries
      with
      | Ret properties => ObjectExpression properties
      | _ => BAD_VALUE
      end
  | VUndefined => Identifier "undefined"
  | VNull => Literal None (Some "null") None None
  | VBigInt z => Literal (Some (PBigInt z)) (Some (pretty z +:+ "n")) (Some (pretty z)) None
  | VSymbol description =>
      match description with
      | Some symbolDesc =>
          if bool_decide (symbolDesc = "")
          then CallExpression (Identifier "Symbol") []
          else CallExpression (Identifier "Symbol") [fromText symbolDesc]
      | None => CallExpression (Identifier "Symbol") []
      end
  | VFunction source =>
      match parseCode source with
      | Some (first :: _) => Existing first
      | _ => BAD_VALUE
      end
  | VRegExp source flags => Literal None None None (Some (source, flags))
  | VOther _ _ => BAD_VALUE
  end.

(** No [BAD_VALUE] anywhere in a node. *)
Fixpoint clean (n : newNode) : bool :=
  match n with
  | BAD_VALUE => false
  | Existing _ | Literal _ _ _ _ | Identifier _ => true
  | UnaryExpression _ argument => clean argument
  | ArrayExpression elements => forallb clean elements
  | ObjectExpression properties =>
      forallb (λ p, clean (fst p) && clean (snd p)) properties
  | CallExpression callee arguments => clean callee && forallb clean arguments
  end.

(** The two loops of [createNewNode], by themselves. *)
Fixpoint convertElements (l : list jsvalue) : outcome (list newNode) :=
  match l with
  | [] => Ret []
  | v :: l' =>
      let elementNode := createNewNode v in
      if isBad elementNode then Throw
      else bind (convertElements l') (λ rest, Ret (elementNode :: rest))
  end.

Fixpoint convertEntries (l : list (string * jsvalue))
    : outcome (list (newNode * newNode)) :=
  match l with
  | [] => Ret []
  | (k, v) :: l' =>
      let key := fromText k in
      let val := createNewNode v in
      if isBad key || isBad val then Throw
      else bind (convertEntries l') (λ rest, Ret ((key, val) :: rest))
  end.

(** [w] is an element or a property value of [v], at any depth. *)
Inductive nestedIn : jsvalue → jsvalue → Prop :=
| nested_element w elements :
    w ∈ elements → nestedIn w (VArray elements)
| nested_property k w entries :
    (k, w) ∈ entries → nestedIn w (VObject entries)
| nested_deeper w u v :
    nestedIn w u → nestedIn u v → nestedIn w v.

End WithParser.

Arguments jsvalue : clear implicits.
Arguments newNode : clear implicits.

End CreateNewNode.

(** ** Regular expressions

    The patterns of [TRAP_STRINGS] and of [FUNC_START_REGEXP], with the
    backtracking order of JavaScript: a star takes as much as it can first,
    an alternation tries its left side first. *)

Module Regex.
Import JsString.

Inductive regex :=
| Eps
| Chr (p : ascii → bool)
| Seq (r1 r2 : regex)
| Alt (r1 r2 : regex)
| Star (r : regex).

(** [matchFrom r s k]: match [r] at the start of [s] and hand the rest of
    the text to [k]; the first success in backtracking order wins. *)
Fixpoint matchFrom (r : regex) (s : string) (k : string → option string)
    : option string :=
  match r with
  | Eps => k s
  | Chr p =>
      match s with
      | String c s' => if p c then k s' else None
      | EmptyString => None
      end
  | Seq r1 r2 => matchFrom r1 s (λ s', matchFrom r2 s' k)
  | Alt r1 r2 =>
      match matchFrom r1 s k with
      | Some rest => Some rest
      | None => matchFrom r2 s k
      end
  | Star r1 =>
      (fix loop (fuel : nat) (s : string) : option string :=
         match fuel with
         | 0 => k s
         | S fuel' =>
             match matchFrom r1 s
                     (λ s', if String.length s' <? String.length s
                            then loop fuel' s' else None) with
             | Some rest => Some rest
             | None => k s
             end
         end) (String.length s) s
  end.

(** The text left after a match of [r] at the start of [s]. *)
Definition matchPrefix (r : regex) (s : string) : option string :=
  matchFrom r s Some.

(** [s.replace(r, replaceWith)] for a pattern with the [g] flag and a
    replacement without [$]: every match, from left to right, is replaced. *)
Fixpoint replaceFrom (fuel : nat) (r : regex) (replaceWith : string)
    (s : string) : string :=
  match fuel with
  | 0 => s
  | S fuel' =>
      match matchPrefix r s with
      | Some rest =>
          if String.length rest <? String.length s
          then replaceWith +:+ replaceFrom fuel' r replaceWith rest
          else match s with
               | String c s' => replaceWith +:+ String c (replaceFrom fuel' r replaceWith s')
               | EmptyString => replaceWith
               end
      | None =>
          match s with
          | String c s' => String c (replaceFrom fuel' r replaceWith s')
          | EmptyString => ""
          end
      end
  end.

Definition replaceAll (r : regex) (replaceWith : string) (s : string) : string :=
  replaceFrom (S (String.length s)) r replaceWith s.

(** [s.replace(r, replaceWith)] without the [g] flag: the first match only. *)
Fixpoint replaceFirst (r : regex) (replaceWith : string) (s : string) : string :=
  match matchPrefix r s with
  | Some rest => replaceWith +:+ rest
  | None =>
      match s with
      | String c s' => String c (replaceFirst r replaceWith s')
      | EmptyString => ""
      end
  end.

Definition lower (c : ascii) : ascii :=
  let n := nat_of_ascii c in
  if (65 <=? n) && (n <=? 90) then ascii_of_nat (n + 32) else c.

(** One character; with the [i] flag, in either case. *)
Definition char (c : ascii) : regex := Chr (λ x, bool_decide (x = c)).
Definition charI (c : ascii) : regex := Chr (λ x, bool_decide (lower x = lower c)).

Fixpoint text (s : string) : regex :=
  match s with
  | String c s' => Seq (char c) (text s')
  | EmptyString => Eps
  end.

Fixpoint textI (s : string) : regex :=
  match s with
  | String c s' => Seq (charI c) (textI s')
  | EmptyString => Eps
  end.

Definition oneOf (l : list ascii) : regex := Chr (λ x, bool_decide (x ∈ l)).

(** [\s*] *)
Definition spaces : regex := Star (Chr isSpace).

Definition sequence (l : list regex) : regex := foldr Seq Eps l.

End Regex.

(** ** sandbox.js (src/unnamed/part_004) *)

Module Sandbox.
Import Js JsString CreateNewNode.

Definition BLOCKED_APIS : list string :=
  ["debugger"; "WebAssembly"; "fetch"; "XMLHttpRequest"; "WebSocket";
   "globalThis"; "navigator"; "Navigator"].

Definition DEFAULT_MEMORY_LIMIT : nat := 128.
Definition DEFAULT_TIMEOUT : nat := 1000.

(** The text compiled by [run]: the two deletions, then the code. *)
Definition withDeletions (code : string) : string :=
  "delete Math.random; delete Date;" +:+ LF +:+ LF +:+ code.

(** The ways a run fails; each of them reaches the caller as an exception of
    [compileScriptSync] or [runSync]. *)
Inductive failure :=
| Thrown
| TimedOut
| MemoryExceeded.

Section WithEngine.
Context {N : Type}.

(** A [Reference] of isolated-vm: what [getObjType] says of it and what
    [copySync()] gives, [None] when the copy throws. *)
Record reference := Reference {
  referenceType : string;
  copySync : option (jsvalue N);
}.

Inductive runResult :=
| Failed (f : failure)
| Returned (r : reference).

(** The isolated-vm library: the state of a context; a new isolate under a
    memory limit, with its context; the two kinds of [global.setSync] of the
    constructor; the compilation and run of a script under a timeout. *)
Context {Ctx : Type}.
Variable createContextSync : nat → Ctx.
Variable setGlobalSelf : Ctx → Ctx.
Variable setUndefined : Ctx → string → Ctx.
Variable runSync : nat → Ctx → string → runResult * Ctx.

Record sandbox := {
  context : Ctx;
  timeout : nat;
}.

(** [new Sandbox()] *)
Definition newSandbox : sandbox :=
  {| context :=
       foldl setUndefined
         (setGlobalSelf (createContextSync DEFAULT_MEMORY_LIMIT)) BLOCKED_APIS;
     timeout := DEFAULT_TIMEOUT |}.

(** [run(code)] *)
Definition run (sb : sandbox) (code : string) : runResult * sandbox :=
  let '(res, ctx) :=
    runSync (timeout sb) (context sb) (withDeletions code) in
  (res, {| context := ctx; timeout := timeout sb |}).

(** What [isReference] may be handed: [null] or [undefined], a
    [Reference], or anything else. *)
Inductive hostValue :=
| HNullish
| HReference (r : reference)
| HOther.

(** [isReference(obj)] *)
Definition isReference (obj : hostValue) : bool :=
  match obj with
  | HReference _ => true
  | HNullish | HOther => false
  end.

End WithEngine.

Arguments reference : clear implicits.
Arguments hostValue : clear implicits.
Arguments runResult : clear implicits.
Arguments sandbox : clear implicits.

End Sandbox.

(** ** evalInVm.js *)

Module EvalInVm.
Import Js Ast JsString Regex GenerateHash CreateNewNode Sandbox.

Definition BAD_TYPES : list string := ["Promise"].

Definition MAX_CACHE_SIZE : nat := 100.

(** The double quote, and a text between double quotes. *)
Definition DQ : ascii := "034"%char.
Definition quoted (s : string) : string := String DQ (s +:+ String DQ "").

Definition quote : regex := oneOf [DQ; "'"%char].

(** [TRAP_STRINGS]; all three patterns carry the flags [gi]. *)
Definition TRAP_STRINGS : list (regex * string) :=
  [ (sequence [textI "while"; spaces; char "("; spaces;
          Alt (textI "true")
              (Seq (Chr (λ c, (49 <=? nat_of_ascii c) && (nat_of_ascii c <=? 57)))
                   (Star (Chr isDigit)));
          spaces; char ")"; spaces; char "{"; spaces; char "}"],
     "while (0) {}");
    (textI "debugger", quoted "debugge_");
    (sequence [quote; textI "debu"; quote; spaces; char "+"; spaces;
               quote; textI "gger"; quote],
     quoted "debu" +:+ " + " +:+ quoted "gge_") ].

(** The properties every object created by an object literal inherits from
    [Object.prototype]; each of them holds a truthy value. *)
Definition OBJECT_PROTOTYPE_KEYS : list string :=
  ["constructor"; "__defineGetter__"; "__defineSetter__"; "hasOwnProperty";
   "__lookupGetter__"; "__lookupSetter__"; "isPrototypeOf";
   "propertyIsEnumerable"; "toString"; "valueOf"; "__proto__";
   "toLocaleString"].

Section WithEnvironment.
Context {N Ctx : Type}.
Variable md5 : string → string.
Variable parseCode : string → option (list N).
(** [Object.keys] of a node that existed already, and of the host's
    [console]. *)
Variable keysOfNode : N → list string.
Variable consoleKeys : list string.
Variable createContextSync : nat → Ctx.
Variable setGlobalSelf : Ctx → Ctx.
Variable setUndefined : Ctx → string → Ctx.
Variable runSync : nat → Ctx → string → runResult N * Ctx.

(** What [evalInVm] hands back: what [createNewNode] made (a node or
    [BAD_VALUE]), or a value found in [MATCHING_OBJECT_KEYS], which is one of
    its two nodes or a member inherited from [Object.prototype]. Reading a
    key that the cache does not hold gives [undefined]. *)
Inductive evaluated :=
| Created (n : newNode N)
| Inherited (member : string)
| Undefined.

(** [Object.keys(value)]; it throws on [null] and [undefined]. *)
Definition objectKeys (value : jsvalue N) : option (list string) :=
  match value with
  | VNull | VUndefined => None
  | VString s => Some (pretty <$> seq 0 (String.length s))
  | VArray elements => Some (pretty <$> seq 0 (length elements))
  | VObject entries => Some (fst <$> entries)
  | VNode n => Some (keysOfNode n)
  | VOther _ keys => Some keys
  | _ => Some []
  end.

(** [MATCHING_OBJECT_KEYS[objKeys]]: the two own properties first, then the
    prototype. [None] is [undefined]. *)
Definition MATCHING_OBJECT_KEYS (objKeys : string) : option evaluated :=
  if bool_decide (objKeys = join (sort consoleKeys))
     || bool_decide (objKeys = join (tail (sort consoleKeys)))
  then Some (Created (Identifier "console"))
  else if includes OBJECT_PROTOTYPE_KEYS objKeys
  then Some (Inherited objKeys)
  else None.

(** The loop over [TRAP_STRINGS]. *)
Definition neutralize (stringToEval : string) : string :=
  foldl (λ s ts, replaceAll (fst ts) (snd ts) s) stringToEval TRAP_STRINGS.

(** The body of the [try]: the value to store in the cache, if any, or an
    exception. The sandbox comes back with the context the run left. *)
Definition attempt (stringToEval : string) (sb : option (sandbox Ctx))
    : outcome (option evaluated) * sandbox Ctx :=
  let code := neutralize stringToEval in
  let vm := default (newSandbox createContextSync setGlobalSelf setUndefined) sb in
  let '(res, vm') := run runSync vm code in
  (match res with
   | Failed _ => Throw
   | Returned r =>
       if isReference (HReference r)
          && negb (includes BAD_TYPES (referenceType r)) then
         match copySync r with
         | None => Throw
         | Some value =>
             match objectKeys value with
             | None => Throw
             | Some keys =>
                 let objKeys := join (sort keys) in
                 match MATCHING_OBJECT_KEYS objKeys with
                 | Some known => Ret (Some known)
                 | None => Ret (Some (Created (createNewNode parseCode value)))
                 end
             end
         end
       else Ret None
   end, vm').

Definition cacheName (stringToEval : string) : string :=
  "eval-" +:+ generateHash md5 (AStr stringToEval).

(** [evalInVm(stringToEval, sb)] on the module's [CACHE]. Whatever is thrown
    inside the [try] is caught; the result is what the last line reads back
    from the cache. With it come the cache and the sandbox as the call leaves
    them. *)
Definition evalInVm (stringToEval : string) (sb : option (sandbox Ctx))
    (CACHE : gmap string evaluated)
    : outcome evaluated * gmap string evaluated * option (sandbox Ctx) :=
  match CACHE !! cacheName stringToEval with
  | Some cached => (Ret cached, CACHE, sb)
  | None =>
      let CACHE0 :=
        if MAX_CACHE_SIZE <=? size CACHE then ∅ else CACHE in
      let CACHE1 := <[cacheName stringToEval := Created BAD_VALUE]> CACHE0 in
      let '(tried, vm') := attempt stringToEval sb in
      let CACHE2 :=
        match tried with
        | Ret (Some result) => <[cacheName stringToEval := result]> CACHE1
        | Ret None => CACHE1
        | Throw | OutOfFuel => CACHE1      (* catch: the entry stays *)
        end in
      (Ret (match CACHE2 !! cacheName stringToEval with
            | Some result => result
            | None => Undefined
            end),
       CACHE2, (λ _, vm') <$> sb)
  end.

(** The value of a call and the cache it leaves. *)
Definition valueOf
    (r : outcome evaluated * gmap string evaluated * option (sandbox Ctx))
    : outcome evaluated := fst (fst r).
Definition cacheOf
    (r : outcome evaluated * gmap string evaluated * option (sandbox Ctx))
    : gmap string evaluated := snd (fst r).

(** A run of calls that bring no sandbox of their own: the cache at its
    end. *)
Definition evalAll (texts : list string) (CACHE : gmap string evaluated)
    : gmap string evaluated :=
  foldl (λ C stringToEval, cacheOf (evalInVm stringToEval None C)) CACHE texts.

(** A run of calls, each with the sandbox it brings: the cache at its
    end. *)
Definition evalEach (calls : list (string * option (sandbox Ctx)))
    (CACHE : gmap string evaluated) : gmap string evaluated :=
  foldl (λ C call, cacheOf (evalInVm (fst call) (snd call) C)) CACHE calls.

(** The entry of a text, if the cache holds one, is what a call with a new
    sandbox on the empty cache returns for the text. *)
Definition settled (stringToEval : string) (CACHE : gmap string evaluated)
    : Prop :=
  ∀ cached,
    CACHE !! cacheName stringToEval = Some cached →
    valueOf (evalInVm stringToEval None ∅) = Ret cached.

(** What the engine answers to a call that misses the cache. *)
Definition executed (stringToEval : string) (sb : option (sandbox Ctx))
    : runResult N :=
  let vm := default (newSandbox createContextSync setGlobalSelf setUndefined) sb in
  fst (runSync (timeout vm) (context vm) (withDeletions (neutralize stringToEval))).

End WithEnvironment.

Arguments evaluated : clear implicits.

End EvalInVm.

(** ** createOrderedSrc.js *)

Module CreateOrderedSrc.
Import Js Ast JsString Regex.

Definition LARGE_NUMBER : Z := 99900000000.

(** [/function[^(]*/] *)
Definition FUNC_START_REGEXP : regex :=
  Seq (text "function") (Star (Chr (λ c, negb (bool_decide (c = "("%char))))).

Definition TYPES_REQUIRING_SEMICOLON : list string :=
  ["VariableDeclarator"; "AssignmentExpression"].

(** A replacement text as [replace] reads it: [$$] stands for one [$]. The
    other [$] patterns cannot occur in ['function ' + name]. *)
Fixpoint expandDollars (s : string) : string :=
  match s with
  | String "$" (String "$" rest) => String "$" (expandDollars rest)
  | String c rest => String c (expandDollars rest)
  | EmptyString => ""
  end.

(** The objects an array of nodes can hold: a node of the tree, or the root
    (a [Program]) of a tree that [addNameToFE] had parsed. Roots are numbered
    in the order of their creation and have no link into the tree. *)
Inductive item :=
| Tree (h : handle)
| Named (k : nat).

#[global] Instance item_eq_dec : EqDecision item.
Proof. solve_decision. Defined.

(** The nodes as the calls change them: the tree, of which [nodeId] is
    assigned to, and the roots made so far with their [nodeId] and [src]. *)
Record store := Store {
  tree : ast;
  named : list (Z * string);
}.

Definition itemType (st : store) (it : item) : string :=
  match it with
  | Tree h => type (tree st h)
  | Named _ => "Program"
  end.

Definition itemNodeId (st : store) (it : item) : Z :=
  match it with
  | Tree h => nodeId (tree st h)
  | Named k => default 0%Z (fst <$> named st !! k)
  end.

Definition itemSrc (st : store) (it : item) : string :=
  match it with
  | Tree h => src (tree st h)
  | Named k => default "" (snd <$> named st !! k)
  end.

(** [h.nodeId = z] *)
Definition assignNodeId (h : handle) (z : Z) (st : store) : store :=
  {| tree := λ h', if bool_decide (h' = h) then setNodeId z (tree st h)
                   else tree st h';
     named := named st |}.

(** The only assignment to a node of the tree is to the [nodeId] of an
    expression statement: [st'] is [st] up to such assignments. *)
Definition drifts (st st' : store) : Prop :=
  ∀ h, ∃ z, tree st' h = setNodeId z (tree st h)
            ∧ (type (tree st h) ≠ "ExpressionStatement" → tree st' h = tree st h).

(** What a drift leaves in place. *)
Record agree (n n' : node) : Prop := {
  agree_type : type n' = type n;
  agree_src : src n' = src n;
  agree_parentNode : parentNode n' = parentNode n;
  agree_id : id_ n' = id_ n;
  agree_name : name n' = name n;
  agree_callee : callee n' = callee n;
}.

(** [processedNodes] after the first loop: the slots, without repetition. *)
Definition addIfNew (processedNodes : list item) (currentNode : item) : list item :=
  if bool_decide (currentNode ∈ processedNodes) then processedNodes
  else processedNodes ++ [currentNode].

Section WithParser.
(** Whether flast's [parseCode] returns a tree for a text; it throws
    otherwise. Of the tree only the root is kept. *)
Variable parses : string → bool.

(** [sortByNodeId], used by a stable sort. *)
Fixpoint insertByNodeId (st : store) (x : item) (l : list item) : list item :=
  match l with
  | [] => [x]
  | y :: l' =>
      if (itemNodeId st y <? itemNodeId st x)%Z
      then y :: insertByNodeId st x l'
      else x :: l
  end.

Definition sortByNodeId (st : store) (l : list item) : list item :=
  foldr (insertByNodeId st) [] l.

(** [addNameToFE(n, name)] for a node [n] of the tree: the new root, if the
    patched text parses. The root takes the [nodeId] of [n] plus [extra]:
    the caller adds [LARGE_NUMBER] to it in one of its two uses. *)
Definition addNameToFE (n : handle) (name : option string) (extra : Z)
    (st : store) : option item * store :=
  let name' :=
    match name with
    | Some s => if bool_decide (s = "") then "func" +:+ pretty (nodeId (tree st n)) else s
    | None => "func" +:+ pretty (nodeId (tree st n))
    end in
  let funcSrc :=
    "(" +:+ replaceFirst FUNC_START_REGEXP (expandDollars ("function " +:+ name'))
              (src (tree st n)) +:+ ");" in
  if parses funcSrc
  then (Some (Named (length (named st))),
        {| tree := tree st;
           named := named st ++ [((nodeId (tree st n) + extra)%Z, funcSrc)] |})
  else (None, st).

(** [n.parentNode?.id?.name] *)
Definition parentIdName (st : store) (n : handle) : option string :=
  match parentNode (tree st n) with
  | Some p =>
      match id_ (tree st p) with
      | Some i => name (tree st i)
      | None => None
      end
  | None => None
  end.

(** The loop over the arguments of an immediately invoked function. *)
Definition maxArgNodeId (st : store) (args : list handle) : Z :=
  foldl (λ acc arg,
           match declNode (tree st arg) with
           | Some d => if (acc <? nodeId (tree st d))%Z then nodeId (tree st d) else acc
           | None => acc
           end) 0%Z args.

(** One round of the first loop: [currentNode] at its end, with the store.
    The slot [nodes[i]] is assigned [currentNode] in every branch that
    changes it, so it holds [currentNode] after the round. *)
Definition settle (preserveOrder : bool) (st : store) (it : item)
    : outcome (item * store) :=
  match it with
  | Named _ => Ret (it, st)
  | Tree c =>
      if typeIs (tree st) c "CallExpression" then
        match parentNode (tree st c) with
        | None => Throw
        | Some p =>
            if typeIs (tree st) p "ExpressionStatement" then
              if preserveOrder then Ret (Tree p, st)
              else
                match expression (tree st p) with
                | None => Throw
                | Some e =>
                    match callee (tree st e) with
                    | None => Throw
                    | Some f =>
                        if typeIs (tree st) f "FunctionExpression" then
                          let m := maxArgNodeId st (arguments (tree st e)) in
                          Ret (Tree p,
                               assignNodeId p
                                 (if bool_decide (m = 0%Z)
                                  then (nodeId (tree st p) + LARGE_NUMBER)%Z
                                  else (m + 1)%Z) st)
                        else Ret (Tree p, st)
                    end
                end
            else
              match callee (tree st c) with
              | None => Throw
              | Some f =>
                  if typeIs (tree st) f "FunctionExpression" && negb preserveOrder
                  then
                    match addNameToFE c (parentIdName st c) LARGE_NUMBER st with
                    | (Some namedFunc, st') => Ret (namedFunc, st')
                    | (None, st') => Ret (it, st')
                    end
                  else Ret (it, st)
              end
        end
      else if typeIs (tree st) c "FunctionExpression"
              && negb (bool_decide (is_Some (id_ (tree st c)))) then
        match addNameToFE c (parentIdName st c) 0 st with
        | (Some namedFunc, st') => Ret (namedFunc, st')
        | (None, st') => Ret (it, st')
        end
      else Ret (it, st)
  end.

(** The first loop: the array as it is left, [processedNodes], the store. *)
Fixpoint settleAll (preserveOrder : bool) (nodes : list item)
    (processedNodes : list item) (st : store)
    : outcome (list item * list item) * store :=
  match nodes with
  | [] => (Ret ([], processedNodes), st)
  | it :: rest =>
      match settle preserveOrder st it with
      | Ret (currentNode, st') =>
          let processedNodes' :=
            if bool_decide (currentNode ∈ processedNodes) then processedNodes
            else processedNodes ++ [currentNode] in
          match settleAll preserveOrder rest processedNodes' st' with
          | (Ret (rest', processed), st'') => (Ret (currentNode :: rest', processed), st'')
          | (other, st'') => (other, st'')
          end
      | Throw => (Throw, st)
      | OutOfFuel => (OutOfFuel, st)
      end
  end.

(** The text of one node in the output. *)
Definition line (st : store) (n : item) : outcome string :=
  let needsSemicolon := includes TYPES_REQUIRING_SEMICOLON (itemType st n) in
  let suffix := if needsSemicolon then ";" else "" in
  prefix ←
    (if bool_decide (itemType st n = "VariableDeclarator") then
       match n with
       | Tree h =>
           match parentNode (tree st h) with
           | Some p => Ret (kind (tree st p) +:+ " ")
           | None => Throw
           end
       | Named _ => Ret ""
       end
     else Ret "");
  Ret (prefix +:+ itemSrc st n +:+ suffix +:+ LF).

Definition render (st : store) (processedNodes : list item) : outcome string :=
  foldOutcome (λ output n, l ← line st n; Ret (output +:+ l)) "" processedNodes.

(** [createOrderedSrc(nodes, preserveOrder)]: the text, the array [nodes] as
    the call leaves it, and the store. *)
Definition createOrderedSrc (nodes : list item) (preserveOrder : bool)
    (st : store) : outcome string * list item * store :=
  match settleAll preserveOrder nodes [] st with
  | (Ret (nodes', processedNodes), st') =>
      (render st' (sortByNodeId st' processedNodes), nodes', st')
  | (Throw, st') => (Throw, nodes, st')
  | (OutOfFuel, st') => (OutOfFuel, nodes, st')
  end.

End WithParser.
End CreateOrderedSrc.

(** ** Walks of the tree

    Notions used to state what the loops over [childNodes] and [parentNode]
    compute. *)

Module Walks.
Import Ast.

(** The nodes below [n] in the order of a walk that goes down first and takes
    the children from left to right, [n] in front; [depth] bounds the levels
    that are walked. *)
Fixpoint preorder (a : ast) (depth : nat) (n : handle) : list handle :=
  match depth with
  | 0 => []
  | S depth' => n :: flat_map (preorder a depth') (childNodes (a n))
  end.

(** [d] lies below [n]: it is reached through at least one [childNodes]. *)
Definition descends (a : ast) (n d : handle) : Prop :=
  ∃ c, c ∈ childNodes (a n) ∧ reaches a c d.

(** [p] is the parent of [n], or the parent of its parent, and so on. *)
Inductive ancestor (a : ast) : handle → handle → Prop :=
| ancestor_parent n p : parentNode (a n) = Some p → ancestor a n p
| ancestor_further n p q :
    parentNode (a n) = Some p → ancestor a p q → ancestor a n q.

(** Fewer than [depth] steps through [parentNode] lead from [n] to a node
    without parent. *)
Fixpoint rooted (a : ast) (depth : nat) (n : handle) : bool :=
  match depth with
  | 0 => false
  | S depth' =>
      match parentNode (a n) with
      | None => true
      | Some p => rooted a depth' p
      end
  end.

End Walks.

(** ** getDescendants.js *)

Module GetDescendants.
Import Js Ast.

(** One round of the [for] loop: [childNode] is added to the set and pushed
    on the stack unless the set has it. The set is kept in the order of
    insertion, which is the order of [[...descendants]]; the top of the stack
    is the head of the list. *)
Definition visit (acc : list handle * list handle) (childNode : handle)
    : list handle * list handle :=
  if bool_decide (childNode ∈ fst acc) then acc
  else (fst acc ++ [childNode], childNode :: snd acc).

(** The [while (stack.length)] loop; one unit of fuel per [pop]. *)
Fixpoint walk (fuel : nat) (a : ast) (stack descendants : list handle)
    : outcome (list handle) :=
  match stack with
  | [] => Ret descendants
  | currentNode :: stack' =>
      match fuel with
      | 0 => OutOfFuel
      | S fuel' =>
          let acc := foldl visit (descendants, stack') (childNodes (a currentNode)) in
          walk fuel' a (snd acc) (fst acc)
      end
  end.

(** [getDescendants(targetNode)]. The property [descendants] that the call
    leaves on a node is kept beside the tree, as a map from the node to the
    array; an array, even an empty one, is truthy. *)
Definition getDescendants (fuel : nat) (a : ast) (targetNode : option handle)
    (cached : gmap handle (list handle))
    : outcome (list handle) * gmap handle (list handle) :=
  match targetNode with
  | None => (Ret [], cached)
  | Some t =>
      match cached !! t with
      | Some descendants => (Ret descendants, cached)
      | None =>
          match walk fuel a [t] [] with
          | Ret descendantsArray => (Ret descendantsArray, <[t := descendantsArray]> cached)
          | Throw => (Throw, cached)
          | OutOfFuel => (OutOfFuel, cached)
          end
      end
  end.

(** What holds of the stack and of the set in every round of the walk
    started at [t]: the stack holds [t] or nodes below it, the set holds
    nodes below [t], each once, and the children of [t] and of every node of
    the set are in the set unless the node still waits on the stack. *)
Record inv (a : ast) (t : handle) (stack descendants : list handle) : Prop := {
  inv_stack : ∀ x, x ∈ stack → reaches a t x;
  inv_below : ∀ d, d ∈ descendants → Walks.descends a t d;
  inv_nodup : NoDup descendants;
  inv_closed : ∀ x, x = t ∨ x ∈ descendants →
                 x ∈ stack ∨ ∀ c, c ∈ childNodes (a x) → c ∈ descendants;
}.

End GetDescendants.

(** ** getMainDeclaredObjectOfMemberExpression.js *)

Module GetMainDeclaredObjectOfMemberExpression.
Import Js Ast.

Definition MAX_ITERATIONS : nat := 50.

Section WithObjects.
Variable a : ast.
(** The [object] of a node, a field that [node] does not keep: the node it
    holds, if any. *)
Variable object : handle → option handle.

(** The [while] loop when [remaining] more rounds are allowed, that is, when
    [iterationCount] is [MAX_ITERATIONS - remaining]. *)
Fixpoint climbObjects (remaining : nat) (mainObject : option handle)
    : option handle :=
  match mainObject with
  | None => None
  | Some m =>
      if negb (bool_decide (is_Some (declNode (a m))))
         && typeIs a m "MemberExpression"
      then match remaining with
           | 0 => mainObject
           | S remaining' => climbObjects remaining' (object m)
           end
      else mainObject
  end.

(** [getMainDeclaredObjectOfMemberExpression(memberExpression)]; [None] is
    [null] or [undefined]. *)
Definition getMainDeclaredObjectOfMemberExpression
    (memberExpression : option handle) : option handle :=
  climbObjects MAX_ITERATIONS memberExpression.

(** The node [k] steps along [object] from [m]. *)
Fixpoint objectAt (k : nat) (m : handle) : option handle :=
  match k with
  | 0 => Some m
  | S k' => object m ≫= objectAt k'
  end.

(** A member expression that has no declaration: what the loop steps over. *)
Definition undeclaredMember (m : handle) : bool :=
  negb (bool_decide (is_Some (declNode (a m)))) && typeIs a m "MemberExpression".

End WithObjects.
End GetMainDeclaredObjectOfMemberExpression.

(** ** getCalleeName.js (src/unnamed/part_003) *)

Module GetCalleeName.
Import Js Ast.

Section WithObjects.
Variable a : ast.
Variable object : handle → option handle.

(** [while (current.object) current = current.object;] *)
Fixpoint baseObject (fuel : nat) (current : handle) : outcome handle :=
  match object current with
  | None => Ret current
  | Some o =>
      match fuel with
      | 0 => OutOfFuel
      | S fuel' => baseObject fuel' o
      end
  end.

(** [getCalleeName(callExpression)]. The result is the [name] field of a
    node, [None] when the node has none, or the empty string. *)
Definition getCalleeName (fuel : nat) (callExpression : option handle)
    : outcome (option string) :=
  match callExpression ≫= (λ c, callee (a c)) with
  | None => Ret (Some "")
  | Some callee =>
      if typeIs a callee "Identifier" then Ret (name (a callee))
      else if typeIs a callee "MemberExpression" then
        current ← baseObject fuel callee;
        if typeIs a current "Identifier" then Ret (name (a current))
        else Ret (Some "")
      else Ret (Some "")
  end.

(** [b] ends the chain of [object] fields that starts at [m]. *)
Inductive endsChain : handle → handle → Prop :=
| chain_end m : object m = None → endsChain m m
| chain_step m o b : object m = Some o → endsChain o b → endsChain m b.

End WithObjects.
End GetCalleeName.

(** ** areReferencesModified.js *)

Module AreReferencesModified.
Import Js Ast CreateNewNode.

Definition ASSIGNMENT_TYPES : list string :=
  ["AssignmentExpression"; "ForInStatement"; "ForOfStatement"; "ForAwaitStatement"].

(** The array written out in the test for loops over a member expression. *)
Definition LOOP_TYPES : list string :=
  ["ForInStatement"; "ForOfStatement"; "ForAwaitStatement"].

Definition PATTERN_TYPES : list string := ["ObjectPattern"; "ArrayPattern"].

(** [isInDestructuringPattern(ref)]; one unit of fuel per round of the
    [while (current.parentNode)] loop after the first. *)
Fixpoint isInDestructuringPattern (fuel : nat) (a : ast) (current : handle)
    : outcome bool :=
  match parentNode (a current) with
  | None => Ret false
  | Some p =>
      if includes PATTERN_TYPES (type (a p)) then Ret true
      else match fuel with
           | 0 => OutOfFuel
           | S fuel' => isInDestructuringPattern fuel' a p
           end
  end.

(** What the [name] of an identifier and the [value] of a literal can be:
    the values are compared with [===] here, so they are kept in full. A
    regular expression is an object, known by its identity. *)
Inductive key :=
| KUndefined
| KNull
| KString (s : string)
| KNumber (n : number)
| KBoolean (b : bool)
| KBigInt (z : Z)
| KRegExp (identity : nat).

Definition truthy (k : key) : bool :=
  match k with
  | KUndefined | KNull => false
  | KString s => negb (bool_decide (s = ""))
  | KNumber n => negb (includes ["0"; "NaN"] (numberToString n))
  | KBoolean b => b
  | KBigInt z => negb (bool_decide (z = 0%Z))
  | KRegExp _ => true
  end.

(** [x === y]; [NaN] differs from itself, and the two zeros are equal. *)
Definition strictEquals (x y : key) : bool :=
  match x, y with
  | KUndefined, KUndefined | KNull, KNull => true
  | KString s, KString s' => bool_decide (s = s')
  | KNumber n, KNumber n' =>
      bool_decide (numberToString n = numberToString n')
      && negb (bool_decide (numberToString n = "NaN"))
  | KBoolean b, KBoolean b' => bool_decide (b = b')
  | KBigInt z, KBigInt z' => bool_decide (z = z')
  | KRegExp i, KRegExp i' => bool_decide (i = i')
  | _, _ => false
  end.

(** [x || y] *)
Definition orElse (x y : key) : key := if truthy x then x else y.

(** [l.includes(k)] for an array [l] of strings. *)
Definition includesKey (l : list string) (k : key) : bool :=
  match k with
  | KString s => includes l s
  | _ => false
  end.

(** The fields of a node that [node] does not keep: the nodes held by
    [object], [argument] and [left], the [operator], and the [value] in
    full. *)
Record operands := Operands {
  object : option handle;
  operator : option string;
  argument : option handle;
  left : option handle;
  literalValue : key;
}.

Section WithTree.
(** The table of config.js. *)
Variable PROPERTIES_THAT_MODIFY_CONTENT : list string.
Variable a : ast.
Variable e : handle → operands.

Definition nameKey (q : handle) : key :=
  match name (a q) with
  | Some s => KString s
  | None => KUndefined
  end.

(** [property?.name || property?.value] and [property?.value || property?.name] *)
Definition nameOrValue (property : option handle) : key :=
  match property with
  | Some q => orElse (nameKey q) (literalValue (e q))
  | None => KUndefined
  end.

Definition valueOrName (property : option handle) : key :=
  match property with
  | Some q => orElse (literalValue (e q)) (nameKey q)
  | None => KUndefined
  end.

(** [h.parentNode], of which a field is read next: that throws when there
    is no parent. *)
Definition parentOf (h : handle) : outcome handle :=
  match parentNode (a h) with
  | Some p => Ret p
  | None => Throw
  end.

(** [isMemberExpressionAssignedTo(memberExpr, assignmentExpressions)] *)
Fixpoint isMemberExpressionAssignedTo (memberExpr : handle)
    (assignmentExpressions : list handle) : outcome bool :=
  match assignmentExpressions with
  | [] => Ret false
  | assignment :: rest =>
      match left (e assignment) with
      | None => Throw
      | Some l =>
          if negb (typeIs a l "MemberExpression")
          then isMemberExpressionAssignedTo memberExpr rest
          else
            match object (e l), object (e memberExpr) with
            | Some leftObj, Some rightObj =>
                let leftDeclNode := default leftObj (declNode (a leftObj)) in
                let rightDeclNode := default rightObj (declNode (a rightObj)) in
                if negb (bool_decide (leftDeclNode = rightDeclNode))
                then isMemberExpressionAssignedTo memberExpr rest
                else if strictEquals (nameOrValue (property (a l)))
                          (nameOrValue (property (a memberExpr)))
                then Ret true
                else isMemberExpressionAssignedTo memberExpr rest
            | _, _ => Throw
            end
      end
  end.

(** [isReferenceDeleted(ref)] *)
Definition isReferenceDeleted (ref : handle) : outcome bool :=
  p ← parentOf ref;
  if typeIs a p "UnaryExpression"
     && bool_decide (operator (e p) = Some "delete")
     && bool_decide (argument (e p) = Some ref)
  then Ret true
  else if typeIs a p "MemberExpression" && bool_decide (parentKey (a ref) = "object")
  then
    gp ← parentOf p;
    Ret (typeIs a gp "UnaryExpression" && bool_decide (operator (e gp) = Some "delete"))
  else Ret false.

(** [isReferenceIncremented(ref)] *)
Definition isReferenceIncremented (ref : handle) : outcome bool :=
  p ← parentOf ref;
  if typeIs a p "UpdateExpression" && bool_decide (argument (e p) = Some ref)
  then Ret true
  else if typeIs a p "MemberExpression" && bool_decide (parentKey (a ref) = "object")
  then
    gp ← parentOf p;
    Ret (typeIs a gp "UpdateExpression" && bool_decide (argument (e gp) = Some p))
  else Ret false.

(** One round of the loop over [refs]: [true] stands for [return true]. *)
Definition inspect (fuel : nat) (assignmentExpressions : list handle)
    (ref : handle) : outcome bool :=
  assigned ←
    (if bool_decide (parentKey (a ref) = "left")
     then p ← parentOf ref; Ret (includes ASSIGNMENT_TYPES (type (a p)))
     else Ret false);
  if (assigned : bool) then Ret true else
  p ← parentOf ref;
  loopTarget ←
    (if typeIs a p "MemberExpression"
        && bool_decide (parentKey (a ref) = "object")
        && bool_decide (parentKey (a p) = "left")
     then gp ← parentOf p; Ret (includes LOOP_TYPES (type (a gp)))
     else Ret false);
  if (loopTarget : bool) then Ret true else
  incremented ← isReferenceIncremented ref;
  if (incremented : bool) then Ret true else
  if typeIs a p "VariableDeclarator" && bool_decide (parentKey (a ref) = "id")
  then Ret true else
  deleted ← isReferenceDeleted ref;
  if (deleted : bool) then Ret true else
  destructured ← isInDestructuringPattern fuel a ref;
  if (destructured : bool) then Ret true else
  viaMember ←
    (if typeIs a p "MemberExpression" then
       grandParent ← parentOf p;
       if typeIs a grandParent "CallExpression"
          && bool_decide (callee (a grandParent) = Some p)
          && bool_decide (object (e p) = Some ref)
          && includesKey PROPERTIES_THAT_MODIFY_CONTENT (valueOrName (property (a p)))
       then Ret true
       else Ret (typeIs a grandParent "AssignmentExpression"
                 && bool_decide (parentKey (a p) = "left"))
     else Ret false);
  if (viaMember : bool) then Ret true else
  if typeIs a ref "MemberExpression"
  then isMemberExpressionAssignedTo ref assignmentExpressions
  else Ret false.

(** The loop over [refs]. *)
Fixpoint scan (fuel : nat) (assignmentExpressions refs : list handle)
    : outcome bool :=
  match refs with
  | [] => Ret false
  | ref :: rest =>
      modified ← inspect fuel assignmentExpressions ref;
      if (modified : bool) then Ret true
      else scan fuel assignmentExpressions rest
  end.

(** [areReferencesModified(ast, refs)]; of [ast] the call reads the entry
    [AssignmentExpression] of the [typeMap] of its first node, which may be
    missing. *)
Definition areReferencesModified (fuel : nat)
    (typeMapAssignmentExpression : option (list handle)) (refs : list handle)
    : outcome bool :=
  if bool_decide (refs = []) then Ret false
  else scan fuel (default [] typeMapAssignmentExpression) refs.

(** A round that answers. *)
Definition answers (fuel : nat) (assignmentExpressions : list handle)
    (ref : handle) : bool :=
  match inspect fuel assignmentExpressions ref with
  | Ret _ => true
  | _ => false
  end.

(** A round that answers [true]. *)
Definition flagged (fuel : nat) (assignmentExpressions : list handle)
    (ref : handle) : bool :=
  match inspect fuel assignmentExpressions ref with
  | Ret b => b
  | _ => false
  end.

End WithTree.
End AreReferencesModified.

(** ** The augmented-array processor (src/unnamed/part_004): the search for
    the statement that holds the call *)

Module AugmentedArray.
Import Js Ast.

(** The loop at the start of [augmentedArrayTransform(arb, n)]:
    [while (targetNode && (targetNode.type !== 'ExpressionStatement' &&
    targetNode.parentNode.type !== 'SequenceExpression'))
    targetNode = targetNode?.parentNode;]. Reading [type] of a missing parent
    throws. *)
Fixpoint targetStatement (fuel : nat) (a : ast) (targetNode : handle)
    : outcome handle :=
  if typeIs a targetNode "ExpressionStatement" then Ret targetNode
  else match parentNode (a targetNode) with
       | None => Throw
       | Some p =>
           if typeIs a p "SequenceExpression" then Ret targetNode
           else match fuel with
                | 0 => OutOfFuel
                | S fuel' => targetStatement fuel' a p
                end
       end.

(** Where the loop stops. *)
Definition stops (a : ast) (n : handle) : bool :=
  typeIs a n "ExpressionStatement"
  || match parentNode (a n) with
     | Some p => typeIs a p "SequenceExpression"
     | None => false
     end.

End AugmentedArray.

(** ** getObjType.js, as a function of the text that
    [Object.prototype.toString] returns *)

Module GetObjType.

(** [s.slice(start, end)] *)
Definition slice (start end_ : Z) (s : string) : string :=
  let len := Z.of_nat (String.length s) in
  let from := if (start <? 0)%Z then Z.max (len + start) 0 else Z.min start len in
  let to := if (end_ <? 0)%Z then Z.max (len + end_) 0 else Z.min end_ len in
  String.substring (Z.to_nat from) (Z.to_nat (Z.max (to - from) 0)) s.

(** [({}).toString.call(x)] for an [x] of class [tag]. *)
Definition objectToString (tag : string) : string := "[object " +:+ tag +:+ "]".

(** [getObjType(unknownObject)], given the text of [unknownObject]. *)
Definition getObjType (toStringOfObject : string) : string :=
  slice 8 (-1) toStringOfObject.

End GetObjType.

(** ** generateHash.js, on every input and with its [catch] *)

Module GenerateHashAll.
Import Js JsString.

(** The [src] property of an object: missing, [null], or a value of which
    [String] gives [text]. *)
Inductive srcProperty :=
| Missing
| IsNull
| Holds (text : string).

(** What [generateHash] is handed: [null] or [undefined]; a string; an
    object, with its [src] and with what [String] gives for it; a number or
    a boolean, with what [String] gives for it. *)
Inductive input :=
| Nullish
| Text (s : string)
| Object (src : srcProperty) (text : string)
| Primitive (text : string).

(** 32-bit integers: [ToInt32], [x << n] and [x & y]. *)
Definition toInt32 (z : Z) : Z :=
  ((z + 2147483648) mod 4294967296 - 2147483648)%Z.

Definition shiftLeft (x n : Z) : Z := toInt32 (Z.shiftl (toInt32 x) n).

Definition bitAnd (x y : Z) : Z := Z.land (toInt32 x) (toInt32 y).

Definition charCodeAt (c : ascii) : Z := Z.of_nat (nat_of_ascii c).

(** The [for] loop of the [catch]. *)
Fixpoint hashLoop (str : string) (hash : Z) : Z :=
  match str with
  | EmptyString => hash
  | String c rest =>
      hashLoop rest (bitAnd (shiftLeft hash 5 - hash + charCodeAt c) 4294967295)
  end.

(** [n.toString(16)] for an integer [n] that is not negative. *)
Definition hexDigit (d : Z) : ascii :=
  default "0"%char (list_ascii_of_string "0123456789abcdef" !! Z.to_nat d).

Fixpoint toHex (fuel : nat) (n : Z) (acc : string) : string :=
  match fuel with
  | 0 => acc
  | S fuel' =>
      let acc' := String (hexDigit (n mod 16)) acc in
      if (n / 16 =? 0)%Z then acc' else toHex fuel' (n / 16) acc'
  end.

Definition toString16 (n : Z) : string := toHex (S (Z.to_nat (Z.log2 n))) n "".

(** The hash without the reduction to 32 bits. *)
Fixpoint polynomial (str : string) (hash : Z) : Z :=
  match str with
  | EmptyString => hash
  | String c rest => polynomial rest (31 * hash + charCodeAt c)
  end.

(** The text hashed in the [try]; [None] when the function returns before
    it. [String] is taken not to throw. *)
Definition stringToHash (x : input) : option string :=
  match x with
  | Nullish => None
  | Text s => Some s
  | Object Missing text => Some text
  | Object IsNull _ => Some "null"
  | Object (Holds s) _ => Some s
  | Primitive text => Some text
  end.

Section WithDigest.
(** [crypto.createHash('md5').update(s).digest('hex')]; [None] when it
    throws. *)
Variable md5 : string → option string.

(** [String(input?.src ?? input ?? 'error')] *)
Definition fallbackText (x : input) : string :=
  match x with
  | Nullish => "error"
  | Text s => s
  | Object (Holds s) _ => s
  | Object _ text => text
  | Primitive text => text
  end.

Definition fallbackHash (x : input) : string :=
  "fallback-" +:+ toString16 (Z.abs (hashLoop (fallbackText x) 0)).

(** [generateHash(input)] *)
Definition generateHash (x : input) : string :=
  match stringToHash x with
  | None => "null-undefined-hash"
  | Some s =>
      match md5 s with
      | Some digest => digest
      | None => fallbackHash x
      end
  end.

End WithDigest.
End GenerateHashAll.

(** ** Occurrences of a pattern *)

Module Occurrence.
Import Regex.

(** The pattern [r] matches somewhere in [s]: at its start, or further on,
    or at its end. *)
Fixpoint occurs (r : regex) (s : string) : bool :=
  match matchPrefix r s with
  | Some _ => true
  | None =>
      match s with
      | String _ s' => occurs r s'
      | EmptyString => false
      end
  end.

End Occurrence.

(** ** Concrete inputs

    Small scripts as flast lays them out, and instances of the parameters
    of the embedding. They are the inputs at which the properties of Part II
    are evaluated. *)

Module Fixtures.
Import Js Ast.

(** An instance of the digest: any function of the text will do. *)
Definition md5 (s : string) : string := s.

(** Modelled from the spec: isNodeInRanges.js is not among the sources. A
    node is in the ranges when its source range is subsumed by one of
    them. *)
Definition isNodeInRanges (n : node) (ranges : list (Z * Z)) : bool :=
  existsb (λ r, (fst r <=? start n)%Z && (end_ n <=? snd r)%Z) ranges.

(** Modelled from the spec: config.js is not among the sources. Names of
    methods that mutate their receiver. *)
Definition PROPERTIES_THAT_MODIFY_CONTENT : list string :=
  ["push"; "forEach"; "pop"; "insert"; "add"; "set"; "delete"; "shift";
   "unshift"; "splice"; "sort"; "reverse"; "fill"; "copyWithin"].

(** A node with the fields every node has; the others are left empty. *)
Definition mk (ty : string) (idn : Z) (text : string) (rg : Z * Z)
    (parent : option handle) (key : string) (children : list handle) : node :=
  {| type := ty; nodeId := idn; src := text; range := rg;
     scriptHash := AStr "script-1"; isMarked := false;
     parentNode := parent; parentKey := key; childNodes := children;
     declNode := None; references := None;
     scopeBlock := 0; scopeThrough := [];
     id_ := None; name := None; value := None; property := None;
     kind := ""; expression := None; callee := None; arguments := [] |}.

Definition mark (n : node) : node :=
  {| type := type n; nodeId := nodeId n; src := src n; range := range n;
     scriptHash := scriptHash n; isMarked := true;
     parentNode := parentNode n; parentKey := parentKey n;
     childNodes := childNodes n; declNode := declNode n;
     references := references n; scopeBlock := scopeBlock n;
     scopeThrough := scopeThrough n; id_ := id_ n; name := name n;
     value := value n; property := property n; kind := kind n;
     expression := expression n; callee := callee n;
     arguments := arguments n |}.

(** Links of an identifier: its name, its declaration, its references. *)
Definition identifier (nm : string) (decl : option handle)
    (refs : option (list handle)) (n : node) : node :=
  {| type := type n; nodeId := nodeId n; src := src n; range := range n;
     scriptHash := scriptHash n; isMarked := isMarked n;
     parentNode := parentNode n; parentKey := parentKey n;
     childNodes := childNodes n; declNode := decl;
     references := refs; scopeBlock := scopeBlock n;
     scopeThrough := scopeThrough n; id_ := id_ n; name := Some nm;
     value := value n; property := property n; kind := kind n;
     expression := expression n; callee := callee n;
     arguments := arguments n |}.

(** The [kind] of a variable declaration. *)
Definition declaration (k : string) (n : node) : node :=
  {| type := type n; nodeId := nodeId n; src := src n; range := range n;
     scriptHash := scriptHash n; isMarked := isMarked n;
     parentNode := parentNode n; parentKey := parentKey n;
     childNodes := childNodes n; declNode := declNode n;
     references := references n; scopeBlock := scopeBlock n;
     scopeThrough := scopeThrough n; id_ := id_ n; name := name n;
     value := value n; property := property n; kind := k;
     expression := expression n; callee := callee n;
     arguments := arguments n |}.

(** Links of a function, a call or a statement to its parts. *)
Definition parts (own : option handle) (expr : option handle)
    (fn : option handle) (args : list handle) (block : handle) (n : node) : node :=
  {| type := type n; nodeId := nodeId n; src := src n; range := range n;
     scriptHash := scriptHash n; isMarked := isMarked n;
     parentNode := parentNode n; parentKey := parentKey n;
     childNodes := childNodes n; declNode := declNode n;
     references := references n; scopeBlock := block;
     scopeThrough := scopeThrough n; id_ := own; name := name n;
     value := value n; property := property n; kind := kind n;
     expression := expr; callee := fn;
     arguments := args |}.

(** [f();] *)
Definition callScript : ast := λ h,
  match h with
  | 1 => parts None (Some 2) None [] 0
           (mk "ExpressionStatement" 1 "f();" (0, 4)%Z (Some 0) "body" [2])
  | 2 => parts None None (Some 3) [] 0
           (mk "CallExpression" 2 "f()" (0, 3)%Z (Some 1) "expression" [3])
  | 3 => identifier "f" None None
           (mk "Identifier" 3 "f" (0, 1)%Z (Some 2) "callee" [])
  | _ => mk "Program" 0 "f();" (0, 4)%Z None "" [1]
  end.

(** The same script once the call is scheduled for replacement. *)
Definition callScriptMarked : ast := λ h,
  if bool_decide (h = 2) then mark (callScript 2) else callScript h.

(** [function a() {}] *)
Definition declarationScript : ast := λ h,
  match h with
  | 1 => parts (Some 2) None None [] 1
           (mk "FunctionDeclaration" 1 "function a() {}" (0, 15)%Z (Some 0) "body" [2; 3])
  | 2 => identifier "a" None (Some [])
           (mk "Identifier" 2 "a" (9, 10)%Z (Some 1) "id" [])
  | 3 => mk "BlockStatement" 3 "{}" (13, 15)%Z (Some 1) "body" []
  | _ => mk "Program" 0 "function a() {}" (0, 15)%Z None "" [1]
  end.

(** [function a() {} a = 1;] *)
Definition overwriteScript : ast := λ h,
  match h with
  | 1 => parts (Some 2) None None [] 1
           (mk "FunctionDeclaration" 1 "function a() {}" (0, 15)%Z (Some 0) "body" [2; 3])
  | 2 => identifier "a" None (Some [6])
           (mk "Identifier" 2 "a" (9, 10)%Z (Some 1) "id" [])
  | 3 => mk "BlockStatement" 3 "{}" (13, 15)%Z (Some 1) "body" []
  | 4 => parts None (Some 5) None [] 0
           (mk "ExpressionStatement" 4 "a = 1;" (16, 22)%Z (Some 0) "body" [5])
  | 5 => mk "AssignmentExpression" 5 "a = 1" (16, 21)%Z (Some 4) "expression" [6; 7]
  | 6 => identifier "a" (Some 2) None
           (mk "Identifier" 6 "a" (16, 17)%Z (Some 5) "left" [])
  | 7 => mk "Literal" 7 "1" (20, 21)%Z (Some 5) "right" []
  | _ => mk "Program" 0 "function a() {} a = 1;" (0, 22)%Z None "" [1; 4]
  end.

(** [function a() {return 1;}] and, on the next line, [a();]: the script of
    the collector's test TP-1. *)
Definition localCallScript : ast := λ h,
  match h with
  | 1 => parts (Some 2) None None [] 1
           (mk "FunctionDeclaration" 1 "function a() {return 1;}" (0, 24)%Z (Some 0) "body" [2; 3])
  | 2 => identifier "a" None (Some [8])
           (mk "Identifier" 2 "a" (9, 10)%Z (Some 1) "id" [])
  | 3 => mk "BlockStatement" 3 "{return 1;}" (13, 24)%Z (Some 1) "body" [4]
  | 4 => mk "ReturnStatement" 4 "return 1;" (14, 23)%Z (Some 3) "body" [5]
  | 5 => mk "Literal" 5 "1" (21, 22)%Z (Some 4) "argument" []
  | 6 => parts None (Some 7) None [] 0
           (mk "ExpressionStatement" 6 "a();" (25, 29)%Z (Some 0) "body" [7])
  | 7 => parts None None (Some 8) [] 0
           (mk "CallExpression" 7 "a()" (25, 28)%Z (Some 6) "expression" [8])
  | 8 => identifier "a" (Some 2) None
           (mk "Identifier" 8 "a" (25, 26)%Z (Some 7) "callee" [])
  | _ => mk "Program" 0 "function a() {return 1;} a();" (0, 29)%Z None "" [1; 6]
  end.

(** A member expression with its property. *)
Definition member (prop : handle) (n : node) : node :=
  {| type := type n; nodeId := nodeId n; src := src n; range := range n;
     scriptHash := scriptHash n; isMarked := isMarked n;
     parentNode := parentNode n; parentKey := parentKey n;
     childNodes := childNodes n; declNode := declNode n;
     references := references n; scopeBlock := scopeBlock n;
     scopeThrough := scopeThrough n; id_ := id_ n; name := name n;
     value := value n; property := Some prop; kind := kind n;
     expression := expression n; callee := callee n;
     arguments := arguments n |}.

(** The five lines [function a() {}], [a = {};], [a.b = 2;], [a = {};],
    [a(a.b);]: the script of the collector's test TP-4. *)
Definition antiDebugScript : ast := λ h,
  match h with
  | 1 => parts (Some 2) None None [] 1
           (mk "FunctionDeclaration" 1 "function a() {}" (0, 15)%Z (Some 0) "body" [2; 3])
  | 2 => identifier "a" None (Some [6; 11; 16; 20; 22])
           (mk "Identifier" 2 "a" (9, 10)%Z (Some 1) "id" [])
  | 3 => mk "BlockStatement" 3 "{}" (13, 15)%Z (Some 1) "body" []
  | 4 => parts None (Some 5) None [] 0
           (mk "ExpressionStatement" 4 "a = {};" (16, 23)%Z (Some 0) "body" [5])
  | 5 => mk "AssignmentExpression" 5 "a = {}" (16, 22)%Z (Some 4) "expression" [6; 7]
  | 6 => identifier "a" (Some 2) None
           (mk "Identifier" 6 "a" (16, 17)%Z (Some 5) "left" [])
  | 7 => mk "ObjectExpression" 7 "{}" (20, 22)%Z (Some 5) "right" []
  | 8 => parts None (Some 9) None [] 0
           (mk "ExpressionStatement" 8 "a.b = 2;" (24, 32)%Z (Some 0) "body" [9])
  | 9 => mk "AssignmentExpression" 9 "a.b = 2" (24, 31)%Z (Some 8) "expression" [10; 13]
  | 10 => member 12
            (mk "MemberExpression" 10 "a.b" (24, 27)%Z (Some 9) "left" [11; 12])
  | 11 => identifier "a" (Some 2) None
            (mk "Identifier" 11 "a" (24, 25)%Z (Some 10) "object" [])
  | 12 => identifier "b" None None
            (mk "Identifier" 12 "b" (26, 27)%Z (Some 10) "property" [])
  | 13 => mk "Literal" 13 "2" (30, 31)%Z (Some 9) "right" []
  | 14 => parts None (Some 15) None [] 0
            (mk "ExpressionStatement" 14 "a = {};" (33, 40)%Z (Some 0) "body" [15])
  | 15 => mk "AssignmentExpression" 15 "a = {}" (33, 39)%Z (Some 14) "expression" [16; 17]
  | 16 => identifier "a" (Some 2) None
            (mk "Identifier" 16 "a" (33, 34)%Z (Some 15) "left" [])
  | 17 => mk "ObjectExpression" 17 "{}" (37, 39)%Z (Some 15) "right" []
  | 18 => parts None (Some 19) None [] 0
            (mk "ExpressionStatement" 18 "a(a.b);" (41, 48)%Z (Some 0) "body" [19])
  | 19 => parts None None (Some 20) [21] 0
            (mk "CallExpression" 19 "a(a.b)" (41, 47)%Z (Some 18) "expression" [20; 21])
  | 20 => identifier "a" (Some 2) None
            (mk "Identifier" 20 "a" (41, 42)%Z (Some 19) "callee" [])
  | 21 => member 23
            (mk "MemberExpression" 21 "a.b" (43, 46)%Z (Some 19) "arguments" [22; 23])
  | 22 => identifier "a" (Some 2) None
            (mk "Identifier" 22 "a" (43, 44)%Z (Some 21) "object" [])
  | 23 => identifier "b" None None
            (mk "Identifier" 23 "b" (45, 46)%Z (Some 21) "property" [])
  | _ => mk "Program" 0 "function a() {} a = {}; a.b = 2; a = {}; a(a.b);"
           (0, 48)%Z None "" [1; 4; 8; 14; 18]
  end.

End Fixtures.

(** An instance of the engine: a context without state, in which the few
    scripts below run as they do in V8 once [Math.random] and [Date] are
    deleted, and every other script throws. *)
Module ToyEngine.
Import Js JsString CreateNewNode Sandbox.

Definition createContextSync (memoryLimit : nat) : unit := tt.
Definition setGlobalSelf (ctx : unit) : unit := tt.
Definition setUndefined (ctx : unit) (item : string) : unit := tt.

Definition object (value : jsvalue Empty_set) : runResult Empty_set :=
  Returned {| referenceType := "Object"; copySync := Some value |}.

Definition runSync (timeout : nat) (ctx : unit) (code : string)
    : runResult Empty_set * unit :=
  (if bool_decide (code = withDeletions "while (0) {}; 'safe'")
   then object (VString "safe")
   else if bool_decide (code = withDeletions "while(true) {}; 'safe'")
   then Failed TimedOut
   else if bool_decide (code = withDeletions "({constructor: 1})")
   then object (VObject [("constructor", VNumber (Number "1" false))])
   else if bool_decide (code = withDeletions "5 + 3 * 2")
   then object (VNumber (Number "11" false))
   else Failed Thrown, tt).

Definition parseCode (source : string) : option (list Empty_set) := None.
Definition keysOfNode (n : Empty_set) : list string := [].

(** [Object.keys(console)] of a Node.js host. *)
Definition consoleKeys : list string :=
  ["log"; "warn"; "dir"; "time"; "timeEnd"; "timeLog"; "trace"; "assert";
   "clear"; "count"; "countReset"; "group"; "groupEnd"; "table"; "debug";
   "info"; "dirxml"; "error"; "groupCollapsed"; "Console"; "profile";
   "profileEnd"; "timeStamp"; "context"; "createTask"].

End ToyEngine.


(** Scripts with immediately invoked functions, and a parser that accepts
    every text. *)
Module IifeScripts.
Import Js Ast Fixtures CreateOrderedSrc.

Definition parses (text : string) : bool := true.

(** [(function(){})(); !function(a){}();] *)
Definition twoIifes : ast := λ h,
  match h with
  | 1 => parts None (Some 2) None [] 0
           (mk "ExpressionStatement" 1 "(function(){})();" (0, 17)%Z (Some 0) "body" [2])
  | 2 => parts None None (Some 3) [] 0
           (mk "CallExpression" 2 "(function(){})()" (0, 16)%Z (Some 1) "expression" [3])
  | 3 => parts None None None [] 3
           (mk "FunctionExpression" 3 "function(){}" (1, 13)%Z (Some 2) "callee" [4])
  | 4 => mk "BlockStatement" 4 "{}" (11, 13)%Z (Some 3) "body" []
  | 5 => parts None (Some 6) None [] 0
           (mk "ExpressionStatement" 5 "!function(a){}();" (18, 35)%Z (Some 0) "body" [6])
  | 6 => mk "UnaryExpression" 6 "!function(a){}()" (18, 34)%Z (Some 5) "expression" [7]
  | 7 => parts None None (Some 8) [] 0
           (mk "CallExpression" 7 "function(a){}()" (19, 34)%Z (Some 6) "argument" [8])
  | 8 => parts None None None [] 8
           (mk "FunctionExpression" 8 "function(a){}" (19, 32)%Z (Some 7) "callee" [9; 10])
  | 9 => identifier "a" None (Some [])
           (mk "Identifier" 9 "a" (28, 29)%Z (Some 8) "params" [])
  | 10 => mk "BlockStatement" 10 "{}" (30, 32)%Z (Some 8) "body" []
  | _ => mk "Program" 0 "(function(){})(); !function(a){}();" (0, 35)%Z None "" [1; 5]
  end.

(** [!function(a){}(); a();], the script of the test TP-4. *)
Definition namedIife : ast := λ h,
  match h with
  | 1 => parts None (Some 2) None [] 0
           (mk "ExpressionStatement" 1 "!function(a){}();" (0, 17)%Z (Some 0) "body" [2])
  | 2 => mk "UnaryExpression" 2 "!function(a){}()" (0, 16)%Z (Some 1) "expression" [3]
  | 3 => parts None None (Some 4) [] 0
           (mk "CallExpression" 3 "function(a){}()" (1, 16)%Z (Some 2) "argument" [4])
  | 4 => parts None None None [] 4
           (mk "FunctionExpression" 4 "function(a){}" (1, 14)%Z (Some 3) "callee" [5; 6])
  | 5 => identifier "a" None (Some [9])
           (mk "Identifier" 5 "a" (10, 11)%Z (Some 4) "params" [])
  | 6 => mk "BlockStatement" 6 "{}" (12, 14)%Z (Some 4) "body" []
  | 7 => parts None (Some 8) None [] 0
           (mk "ExpressionStatement" 7 "a();" (18, 22)%Z (Some 0) "body" [8])
  | 8 => parts None None (Some 9) [] 0
           (mk "CallExpression" 8 "a()" (18, 21)%Z (Some 7) "expression" [9])
  | 9 => identifier "a" None None
           (mk "Identifier" 9 "a" (18, 19)%Z (Some 8) "callee" [])
  | _ => mk "Program" 0 "!function(a){}(); a();" (0, 22)%Z None "" [1; 7]
  end.

(** The nodes of [twoIifes] before any call. *)
Definition fresh : store := {| tree := twoIifes; named := [] |}.

End IifeScripts.


(** Scripts with member expressions and patterns, and the [object] fields of
    their nodes. *)
Module ChainScripts.
Import Js Ast Fixtures.

(** [a.b.c();] *)
Definition memberCall : ast := λ h,
  match h with
  | 1 => parts None (Some 2) None [] 0
           (mk "ExpressionStatement" 1 "a.b.c();" (0, 8)%Z (Some 0) "body" [2])
  | 2 => parts None None (Some 3) [] 0
           (mk "CallExpression" 2 "a.b.c()" (0, 7)%Z (Some 1) "expression" [3])
  | 3 => member 7
           (mk "MemberExpression" 3 "a.b.c" (0, 5)%Z (Some 2) "callee" [4; 7])
  | 4 => member 6
           (mk "MemberExpression" 4 "a.b" (0, 3)%Z (Some 3) "object" [5; 6])
  | 5 => identifier "a" None None
           (mk "Identifier" 5 "a" (0, 1)%Z (Some 4) "object" [])
  | 6 => identifier "b" None None
           (mk "Identifier" 6 "b" (2, 3)%Z (Some 4) "property" [])
  | 7 => identifier "c" None None
           (mk "Identifier" 7 "c" (4, 5)%Z (Some 3) "property" [])
  | _ => mk "Program" 0 "a.b.c();" (0, 8)%Z None "" [1]
  end.

Definition memberCallObject (h : handle) : option handle :=
  match h with
  | 3 => Some 4
  | 4 => Some 5
  | _ => None
  end.

(** A malformed tree: a member expression that is its own [object]. *)
Definition knot : ast := λ _, mk "MemberExpression" 0 "" (0, 0)%Z None "" [].

Definition knotObject (h : handle) : option handle := Some h.

(** [[x] = y;] *)
Definition patternScript : ast := λ h,
  match h with
  | 1 => parts None (Some 2) None [] 0
           (mk "ExpressionStatement" 1 "[x] = y;" (0, 8)%Z (Some 0) "body" [2])
  | 2 => mk "AssignmentExpression" 2 "[x] = y" (0, 7)%Z (Some 1) "expression" [3; 5]
  | 3 => mk "ArrayPattern" 3 "[x]" (0, 3)%Z (Some 2) "left" [4]
  | 4 => identifier "x" None None
           (mk "Identifier" 4 "x" (1, 2)%Z (Some 3) "elements" [])
  | 5 => identifier "y" None None
           (mk "Identifier" 5 "y" (6, 7)%Z (Some 2) "right" [])
  | _ => mk "Program" 0 "[x] = y;" (0, 8)%Z None "" [1]
  end.

(** [var x = f();] *)
Definition initScript : ast := λ h,
  match h with
  | 1 => declaration "var"
           (mk "VariableDeclaration" 1 "var x = f();" (0, 12)%Z (Some 0) "body" [2])
  | 2 => parts (Some 3) None None [] 0
           (mk "VariableDeclarator" 2 "x = f()" (4, 11)%Z (Some 1) "declarations" [3; 4])
  | 3 => identifier "x" None (Some [])
           (mk "Identifier" 3 "x" (4, 5)%Z (Some 2) "id" [])
  | 4 => parts None None (Some 5) [] 0
           (mk "CallExpression" 4 "f()" (8, 11)%Z (Some 2) "init" [5])
  | 5 => identifier "f" None None
           (mk "Identifier" 5 "f" (8, 9)%Z (Some 4) "callee" [])
  | _ => mk "Program" 0 "var x = f();" (0, 12)%Z None "" [1]
  end.

End ChainScripts.


(** The fields of the nodes of [antiDebugScript] that [node] does not keep:
    the assignments have a [left] and an [operator], the member expressions
    an [object], the literal a [value]. *)
Module OperandFixtures.
Import Js Ast AreReferencesModified.

Definition antiDebugOperands (h : handle) : operands :=
  match h with
  | 5 => Operands None (Some "=") None (Some 6) KUndefined
  | 9 => Operands None (Some "=") None (Some 10) KUndefined
  | 15 => Operands None (Some "=") None (Some 16) KUndefined
  | 10 => Operands (Some 11) None None None KUndefined
  | 21 => Operands (Some 22) None None None KUndefined
  | 13 => Operands None None None None (KNumber (CreateNewNode.Number "2" false))
  | _ => Operands None None None None KUndefined
  end.

End OperandFixtures.

(** An instance of the engine in which the scripts [null] and [void 0]
    yield their values, the script [console] yields an object with the keys
    of the host's [console] in another order, and every other script throws. *)
Module ValueEngine.
Import Js JsString CreateNewNode Sandbox.

Definition runSync (timeout : nat) (ctx : unit) (code : string)
    : runResult Empty_set * unit :=
  (if bool_decide (code = withDeletions "null")
   then ToyEngine.object VNull
   else if bool_decide (code = withDeletions "void 0")
   then ToyEngine.object VUndefined
   else if bool_decide (code = withDeletions "console")
   then ToyEngine.object (VOther "console" (reverse ToyEngine.consoleKeys))
   else Failed Thrown, tt).

End ValueEngine.

(** An instance of the engine whose context records whether [Math.random]
    and [Date] are still there. A script that starts with the two deletions
    removes them from the context; [Math.random()] and [Date.now()] yield a
    number where they are there and throw where they are not, as in V8. *)
Module DeletingEngine.
Import Js JsString CreateNewNode Sandbox.

Definition createContextSync (memoryLimit : nat) : bool := true.
Definition setGlobalSelf (ctx : bool) : bool := ctx.
Definition setUndefined (ctx : bool) (item : string) : bool := ctx.

Definition deletions : string :=
  "delete Math.random; delete Date;" +:+ LF +:+ LF.

Definition runSync (timeout : nat) (builtins : bool) (code : string)
    : runResult Empty_set * bool :=
  let deleted := String.prefix deletions code in
  let rest :=
    if deleted
    then substring (String.length deletions)
           (String.length code - String.length deletions) code
    else code in
  let builtins' := builtins && negb deleted in
  (if bool_decide (rest = "Math.random()")
   then if builtins'
        then ToyEngine.object (VNumber (Number "0.7203244934421581" false))
        else Failed Thrown
   else if bool_decide (rest = "Date.now()")
   then if builtins'
        then ToyEngine.object (VNumber (Number "1700000000000" false))
        else Failed Thrown
   else if bool_decide (rest = "5 + 3 * 2")
   then ToyEngine.object (VNumber (Number "11" false))
   else Failed Thrown, builtins').

(** An engine in which every script throws. *)
Definition runSyncThrows (timeout : nat) (builtins : bool) (code : string)
    : runResult Empty_set * bool := (Failed Thrown, builtins).

End DeletingEngine.


(* ===================================================================== *)
(** * Part II: properties                                                 *)
(* ===================================================================== *)

Module GetCacheProps.
Import Js GetCache.

Section WithValue.
Context {V : Type}.
Implicit Types (st : state V) (id : strArg) (r : ref).

Lemma wf_init : wf (@init V).
Proof. split; [by eexists | cbn; lia]. Qed.

Lemma wf_resetCache st : wf (resetCache st).
Proof. split; cbn; [rewrite lookup_insert_eq; by eexists | lia]. Qed.

Lemma wf_getCache id st : wf st → wf (snd (getCache id st)).
Proof.
  intros Hwf. unfold getCache; cbn. case_bool_decide; [done | apply wf_resetCache].
Qed.

Lemma wf_write r k v st : wf st → wf (write r k v st).
Proof.
  intros [[m Hm] Hlt]. split; cbn; [| done].
  destruct (decide (r = CACHE st)) as [-> |Hne].
  - rewrite lookup_alter_eq, Hm. by eexists.
  - rewrite lookup_alter_ne by done. by eexists.
Qed.

Lemma wf_step st o : wf st → wf (step st o).
Proof.
  destruct o; cbn; [apply wf_getCache | intros _; apply wf_resetCache | apply wf_write].
Qed.

Lemma wf_run ops st : wf st → wf (run ops st).
Proof.
  revert st. induction ops as [|o ops IH]; intros st Hwf; [done |].
  change (run (o :: ops) st) with (run ops (step st o)). apply IH, wf_step, Hwf.
Qed.

(** After a call under [id], the module is owned by the normalized [id]. *)
Lemma getCache_owner id st :
  RELEVANT_SCRIPT_HASH (snd (getCache id st)) = Some (nullish id "no-hash").
Proof.
  unfold getCache; cbn. case_bool_decide as H; [by rewrite H | done].
Qed.

(** A call under the owning identity changes nothing. *)
Lemma getCache_hit id st :
  RELEVANT_SCRIPT_HASH st = Some (nullish id "no-hash") →
  getCache id st = (CACHE st, st).
Proof.
  intros H. unfold getCache. by rewrite bool_decide_eq_true_2.
Qed.

(** A call under another identity installs a fresh, empty object. *)
Lemma getCache_miss id st :
  RELEVANT_SCRIPT_HASH st ≠ Some (nullish id "no-hash") →
  getCache id st = (next st, resetCache (setHash (nullish id "no-hash") st)).
Proof.
  intros H. unfold getCache. by rewrite bool_decide_eq_false_2.
Qed.

Lemma step_keeps id st o :
  keepsIdentity id o →
  RELEVANT_SCRIPT_HASH st = Some (nullish id "no-hash") →
  RELEVANT_SCRIPT_HASH (step st o) = Some (nullish id "no-hash")
  ∧ CACHE (step st o) = CACHE st.
Proof.
  intros Hk Hown. destruct o as [id'| |r k v]; [| done | done].
  cbn in Hk. unfold step. rewrite getCache_hit by congruence. done.
Qed.

Lemma run_keeps id ops st :
  Forall (keepsIdentity id) ops →
  RELEVANT_SCRIPT_HASH st = Some (nullish id "no-hash") →
  RELEVANT_SCRIPT_HASH (run ops st) = Some (nullish id "no-hash")
  ∧ CACHE (run ops st) = CACHE st.
Proof.
  intros Hall. revert st. induction Hall as [|o ops Ho _ IH]; intros st Hown; [done |].
  change (run (o :: ops) st) with (run ops (step st o)).
  destruct (step_keeps id st o Ho Hown) as [H1 H2].
  destruct (IH _ H1) as [H3 H4]. split; congruence.
Qed.

Lemma read_write_same r k v st :
  is_Some (heap st !! r) → read r k (write r k v st) = Some v.
Proof.
  intros [m Hm]. unfold read, write; cbn.
  rewrite lookup_alter_eq, Hm. cbn. apply lookup_insert_eq.
Qed.

(** C2, as amended. Two calls of [getCache] under one identity, separated
    only by calls under that identity and by writes through handles (no call
    under another identity and no [flush]), return the same object, and an
    entry written through either handle is read through the other. A call
    under another identity returns a new, empty object, and so does a later
    call under the first identity. [null] and [undefined] are replaced by
    the fallback identity before the comparison, so both behave as the
    string they are replaced by. *)
Theorem getCache_correct st id id1 id2 (ops ops1 ops2 : list (op V)) k v :
  wf st →
  Forall (keepsIdentity id) ops →
  Forall (keepsIdentity id1) ops1 →
  Forall (keepsIdentity id2) ops2 →
  nullish id1 "no-hash" ≠ nullish id2 "no-hash" →
  (let r1 := fst (getCache id st) in
   let s1 := run ops (snd (getCache id st)) in
   let r2 := fst (getCache id s1) in
   let s2 := snd (getCache id s1) in
   r1 = r2
   ∧ read r2 k (write r1 k v s2) = Some v
   ∧ read r1 k (write r2 k v s2) = Some v)
  ∧ (let r1 := fst (getCache id1 st) in
     let s1 := run ops1 (snd (getCache id1 st)) in
     let r2 := fst (getCache id2 s1) in
     let s2 := run ops2 (snd (getCache id2 s1)) in
     let r3 := fst (getCache id1 s2) in
     let s3 := snd (getCache id1 s2) in
     mapping r2 (snd (getCache id2 s1)) = Some ∅
     ∧ r2 ≠ r1
     ∧ mapping r3 s3 = Some ∅
     ∧ r3 ≠ r2 ∧ r3 ≠ r1)
  ∧ getCache ANull st = getCache (AStr "no-hash") st
  ∧ getCache AUndefined st = getCache (AStr "no-hash") st.
Proof.
  intros Hwf Hops Hops1 Hops2 Hne. split; [| split; [| done]].
  - cbn zeta.
    pose proof (getCache_owner id st) as Hown.
    destruct (run_keeps id ops _ Hops Hown) as [Hown' Hc].
    rewrite (getCache_hit id _ Hown'). cbn [fst snd].
    assert (CACHE (run ops (snd (getCache id st))) = fst (getCache id st)) as Heq.
    { rewrite Hc. unfold getCache. done. }
    assert (is_Some (heap (run ops (snd (getCache id st))) !! fst (getCache id st))) as Hlive.
    { rewrite <- Heq. apply wf_run, wf_getCache, Hwf. }
    rewrite Heq. split; [done |]. split; apply read_write_same, Hlive.
  - cbn zeta.
    pose proof (getCache_owner id1 st) as Hown1.
    destruct (run_keeps id1 ops1 _ Hops1 Hown1) as [Hown1' Hc1].
    set (s1 := run ops1 (snd (getCache id1 st))) in *.
    assert (wf s1) as Hwf1 by apply wf_run, wf_getCache, Hwf.
    assert (CACHE s1 = fst (getCache id1 st)) as Hr1.
    { rewrite Hc1. unfold getCache. done. }
    assert (RELEVANT_SCRIPT_HASH s1 ≠ Some (nullish id2 "no-hash")) as Hmiss by congruence.
    rewrite (getCache_miss id2 s1 Hmiss). cbn [fst snd].
    set (t := resetCache (setHash (nullish id2 "no-hash") s1)).
    assert (RELEVANT_SCRIPT_HASH t = Some (nullish id2 "no-hash")) as Hown2 by done.
    destruct (run_keeps id2 ops2 t Hops2 Hown2) as [Hown2' Hc2].
    set (s2 := run ops2 t) in *.
    assert (wf s2) as Hwf2 by apply wf_run, wf_resetCache.
    assert (RELEVANT_SCRIPT_HASH s2 ≠ Some (nullish id1 "no-hash")) as Hmiss2 by congruence.
    rewrite (getCache_miss id1 s2 Hmiss2). cbn [fst snd].
    destruct Hwf1 as [_ Hlt1]. destruct Hwf2 as [_ Hlt2].
    assert (CACHE s2 = next s1) as Hc2' by (rewrite Hc2; done).
    rewrite <- Hr1. clearbody s1 s2. unfold mapping. cbn.
    rewrite !lookup_insert_eq. unfold ref in *. repeat split; lia.
Qed.

(** C6, as amended. [flush] binds [CACHE] to a new empty object and leaves
    the owner untouched: the object that was resident keeps its identity and
    all of its entries but is no longer the cache, and a following call of
    [getCache] under the owning identity returns the new empty object without
    allocating again. *)
Theorem flush_replaces_mapping st :
  wf st →
  RELEVANT_SCRIPT_HASH (flush st) = RELEVANT_SCRIPT_HASH st
  ∧ CACHE (flush st) ≠ CACHE st
  ∧ mapping (CACHE (flush st)) (flush st) = Some ∅
  ∧ mapping (CACHE st) (flush st) = mapping (CACHE st) st
  ∧ ∀ id, RELEVANT_SCRIPT_HASH st = Some (nullish id "no-hash") →
      getCache id (flush st) = (CACHE (flush st), flush st).
Proof.
  intros [_ Hlt]. unfold flush, mapping. cbn.
  split; [done |]. split; [lia |]. split; [apply lookup_insert_eq |].
  split; [apply lookup_insert_ne; lia |].
  intros id Hown. by apply getCache_hit.
Qed.

End WithValue.

(** The properties at a concrete run: values are numbers, the module starts
    in its initial state. *)
Lemma getCache_correct_witness :
  fst (getCache (AStr "a") (@init nat))
  = fst (getCache (AStr "a")
           (run [Write 1 "x" 3; Get (AStr "a")] (snd (getCache (AStr "a") init)))).
Proof.
  refine (proj1 (proj1 (getCache_correct init (AStr "a") (AStr "a") (AStr "b")
            [Write 1 "x" 3; Get (AStr "a")] [Write 1 "x" 3] [] "k" 7 _ _ _ _ _))).
  - apply wf_init.
  - repeat constructor.
  - repeat constructor.
  - constructor.
  - discriminate.
Defined.

Lemma flush_replaces_mapping_witness :
  CACHE (flush (@init nat)) ≠ CACHE (@init nat).
Proof.
  refine (proj1 (proj2 (flush_replaces_mapping init _))). apply wf_init.
Defined.

(** C2, as stated, fails: between two calls under one identity there is a
    [flush] and no call under another identity, and the second call returns
    another object than the first. An entry written through the first handle
    is not read through the second, and an entry written through the second
    is not read through the first. *)
Lemma getCache_differs_after_flush :
  let '(r1, s1) := getCache (AStr "h") (@init nat) in
  let s2 := flush (write r1 "k" 1 s1) in
  let '(r2, s3) := getCache (AStr "h") s2 in
  let s4 := write r2 "j" 2 s3 in
  r1 ≠ r2
  ∧ RELEVANT_SCRIPT_HASH s2 = Some "h"
  ∧ read r1 "k" s4 = Some 1
  ∧ read r2 "k" s4 = None
  ∧ read r2 "j" s4 = Some 2
  ∧ read r1 "j" s4 = None.
Proof. vm_compute. repeat split; discriminate. Qed.

(** C6, as stated, fails: after [flush] the object that was resident still
    holds its entry, and the cache is another object. *)
Lemma flush_not_in_place :
  let r := fst (getCache (AStr "h") (@init nat)) in
  let s1 := write r "k" 1 (snd (getCache (AStr "h") init)) in
  let s2 := flush s1 in
  read r "k" s1 = Some 1
  ∧ read r "k" s2 = Some 1
  ∧ CACHE s1 = r
  ∧ CACHE s2 ≠ r
  ∧ fst (getCache (AStr "h") s2) ≠ r.
Proof. vm_compute. repeat split; discriminate. Qed.

(** The runs of the tests TP-1, TP-2 and TN-3 of the repository. *)
Example getCache_tests :
  let hash1 := AStr "script-hash-1" in
  let hash2 := AStr "script-hash-2" in
  let '(cache, s1) := getCache hash1 (@init string) in
  let s2 := write cache "eval-result" "cached-value" s1 in
  let '(cache2, s3) := getCache hash1 s2 in
  let '(cache3, s4) := getCache hash2 s3 in
  let '(cache1Again, s5) := getCache hash1 s4 in
  let '(fallback1, s6) := getCache ANull s5 in
  let '(fallback2, s7) := getCache AUndefined s6 in
  mapping cache s1 = Some ∅
  ∧ cache2 = cache
  ∧ read cache2 "eval-result" s3 = Some "cached-value"
  ∧ mapping cache3 s4 = Some ∅ ∧ cache3 ≠ cache
  ∧ mapping cache1Again s5 = Some ∅
  ∧ fallback1 = fallback2.
Proof. vm_compute. repeat split; discriminate. Qed.

End GetCacheProps.

Module DescendantProps.
Import Js Ast DoesDescendantMatchCondition.

Section WithTree.
Variable a : ast.
Variable condition : handle → bool.

Lemma search_empty fuel returnNode :
  search fuel a condition returnNode [] = Ret RFalse.
Proof. by destruct fuel. Qed.

Lemma search_step fuel returnNode n stack :
  search (S fuel) a condition returnNode (n :: stack)
  = if condition n then Ret (if returnNode then RNode n else RTrue)
    else search fuel a condition returnNode (childNodes (a n) ++ stack).
Proof. done. Qed.

(** More fuel never changes an answer. *)
Lemma search_mono returnNode fuel :
  ∀ stack r fuel',
    search fuel a condition returnNode stack = Ret r →
    fuel ≤ fuel' →
    search fuel' a condition returnNode stack = Ret r.
Proof.
  induction fuel as [|fuel IH]; intros [|n stack] r fuel' H Hle.
  - by rewrite search_empty in *.
  - discriminate.
  - by rewrite search_empty in *.
  - destruct fuel' as [|fuel']; [lia |].
    rewrite search_step in *. destruct (condition n); [done |].
    apply IH; [done | lia].
Qed.

Local Abbreviation halts := (halts a condition).

Lemma halts_push returnNode depth :
  ∀ n stack,
    shallower a depth n = true →
    halts returnNode stack → halts returnNode (n :: stack).
Proof.
  induction depth as [|depth IH]; intros n stack Hs Hrest; [discriminate |].
  cbn in Hs. rewrite forallb_forall in Hs.
  assert (halts returnNode (childNodes (a n) ++ stack)) as [fuel [r Hr]].
  { induction (childNodes (a n)) as [|c cs IHcs]; [done |].
    cbn. apply IH.
    - apply Hs. by left.
    - apply IHcs. intros x Hx. apply Hs. by right. }
  destruct (condition n) eqn:Hc.
  - exists 1, (if returnNode then RNode n else RTrue).
    by rewrite search_step, Hc.
  - exists (S fuel), r. by rewrite search_step, Hc.
Qed.

(** An answer [false] means that nothing below the stack meets the
    condition. *)
Lemma search_false_sound returnNode fuel :
  ∀ stack,
    search fuel a condition returnNode stack = Ret RFalse →
    ∀ n d, n ∈ stack → reaches a n d → condition d = false.
Proof.
  induction fuel as [|fuel IH]; intros [|top stack] H n d Hin Hreach;
    try (by apply elem_of_nil in Hin); try discriminate.
  rewrite search_step in H. destruct (condition top) eqn:Hc.
  { destruct returnNode; discriminate. }
  specialize (IH _ H).
  apply elem_of_cons in Hin as [-> | Hin].
  - inversion Hreach as [|? c ? Hchild Hrest]; subst; [done |].
    apply (IH c); [| done]. apply elem_of_app. by left.
  - apply (IH n); [| done]. apply elem_of_app. by right.
Qed.

Lemma search_boolean fuel :
  ∀ stack r,
    search fuel a condition false stack = Ret r → r = RFalse ∨ r = RTrue.
Proof.
  induction fuel as [|fuel IH]; intros [|top stack] r H;
    try discriminate; try (rewrite search_empty in H; left; congruence).
  rewrite search_step in H. destruct (condition top); [right; congruence |].
  by apply (IH _ _ H).
Qed.

(** On a finite tree the search finds whatever there is to find. *)
Lemma search_finds depth n d :
  shallower a depth n = true →
  reaches a n d → condition d = true →
  ∃ fuel0, ∀ fuel, fuel0 ≤ fuel →
    search fuel a condition false [n] = Ret RTrue.
Proof.
  intros Hs Hreach Hd.
  destruct (halts_push false depth n [] Hs) as [fuel0 [r Hr]].
  { exists 0, RFalse. done. }
  exists fuel0. intros fuel Hle.
  destruct (search_boolean _ _ _ Hr) as [-> | ->].
  - pose proof (search_false_sound _ _ _ Hr n d) as Hno.
    rewrite Hno in Hd; [discriminate | by left | done].
  - by apply (search_mono _ fuel0).
Qed.

Lemma result_false_or (r : result) : r = RFalse ∨ r ≠ RFalse.
Proof. destruct r; [by left | by right ..]. Qed.

(** An answer other than [false] comes with a node below the stack that
    meets the condition: the node itself with [returnNode]. *)
Lemma search_found_sound returnNode fuel :
  ∀ stack r,
    search fuel a condition returnNode stack = Ret r → r ≠ RFalse →
    ∃ n d, n ∈ stack ∧ reaches a n d ∧ condition d = true
           ∧ r = if returnNode then RNode d else RTrue.
Proof.
  induction fuel as [|fuel IH]; intros [|top stack] r H Hr; try discriminate.
  { rewrite search_empty in H. congruence. }
  { rewrite search_empty in H. congruence. }
  rewrite search_step in H. destruct (condition top) eqn:Hc.
  - exists top, top. split; [by left |]. split; [constructor |].
    split; [done | congruence].
  - destruct (IH _ _ H Hr) as (n & d & Hin & Hreach & Hd & Hres).
    apply elem_of_app in Hin as [Hin | Hin].
    + exists top, d. split; [by left |]. split; [| done].
      by apply (reaches_child a top n d).
    + exists n, d. split; [by right | done].
Qed.

(** C10. The call tests the target and the nodes below it. When the
    condition holds at the target the call answers [true], or the target
    with [returnNode], whatever lies below it and whatever the tree. On a
    finite tree the call comes to an end; it answers [false] when the
    condition holds neither at the target nor at a node below it, and when
    the condition holds at the target or at a node below it (at a node below
    it only, for one) it answers [true], or with [returnNode] a node of the
    subtree at which the condition holds. A missing target or a condition
    that is not a function gives [false]. *)
Theorem doesDescendantMatchCondition_tests_target n returnNode :
  (condition n = true →
   ∀ fuel,
     doesDescendantMatchCondition (S fuel) a (Some n) (Some condition) returnNode
     = Ret (if returnNode then RNode n else RTrue))
  ∧ (∀ depth, shallower a depth n = true →
     ∃ fuel0 r,
       (∀ fuel, fuel0 ≤ fuel →
          doesDescendantMatchCondition fuel a (Some n) (Some condition) returnNode
          = Ret r)
       ∧ ((∀ d, reaches a n d → condition d = false) → r = RFalse)
       ∧ ((∃ d, reaches a n d ∧ condition d = true) →
          ∃ d', reaches a n d' ∧ condition d' = true
                ∧ r = if returnNode then RNode d' else RTrue))
  ∧ (∀ fuel' c r, doesDescendantMatchCondition fuel' a None c r = Ret RFalse)
  ∧ (∀ fuel' t r, doesDescendantMatchCondition fuel' a t None r = Ret RFalse).
Proof.
  split; [| split; [| split]].
  - intros Hc fuel. cbn. by rewrite Hc.
  - intros depth Hs.
    destruct (halts_push returnNode depth n [] Hs) as [fuel0 [r Hr]].
    { exists 0, RFalse. done. }
    exists fuel0, r. split; [| split].
    + intros fuel Hle. cbn. by apply (search_mono returnNode fuel0).
    + intros Hnone. destruct (result_false_or r) as [-> | Hne]; [done |].
      destruct (search_found_sound _ _ _ _ Hr Hne) as (m & d & Hin & Hd & Hc & _).
      apply list_elem_of_singleton in Hin as ->.
      rewrite (Hnone d Hd) in Hc. discriminate.
    + intros (d & Hd & Hc).
      destruct (result_false_or r) as [-> | Hne].
      { pose proof (search_false_sound _ _ _ Hr n d) as Hno.
        rewrite Hno in Hc; [discriminate | by left | done]. }
      destruct (search_found_sound _ _ _ _ Hr Hne) as (m & d' & Hin & Hd' & Hc' & Hres).
      apply list_elem_of_singleton in Hin as ->. by exists d'.
  - done.
  - by intros ? [t|] ?.
Qed.

End WithTree.

(** The condition [n.type === 'Literal'] holds at a literal that has no
    children: the call returns the literal itself. In
    [function a() {return 1;} a();] the declaration is no literal and holds
    one: the call on the declaration comes to an end. *)
Lemma doesDescendantMatchCondition_tests_target_witness :
  doesDescendantMatchCondition 1 Fixtures.overwriteScript (Some 7)
    (Some (λ n, typeIs Fixtures.overwriteScript n "Literal")) true
  = Ret (RNode 7)
  ∧ ∃ fuel0 r,
      (∀ fuel, fuel0 ≤ fuel →
         doesDescendantMatchCondition fuel Fixtures.localCallScript (Some 1)
           (Some (λ n, typeIs Fixtures.localCallScript n "Literal")) true
         = Ret r)
      ∧ ((∀ d, reaches Fixtures.localCallScript 1 d
               → typeIs Fixtures.localCallScript d "Literal" = false)
         → r = RFalse)
      ∧ ((∃ d, reaches Fixtures.localCallScript 1 d
               ∧ typeIs Fixtures.localCallScript d "Literal" = true)
         → ∃ d', reaches Fixtures.localCallScript 1 d'
                 ∧ typeIs Fixtures.localCallScript d' "Literal" = true
                 ∧ r = RNode d').
Proof.
  split.
  - refine (proj1 (doesDescendantMatchCondition_tests_target
                     Fixtures.overwriteScript _ 7 true) _ 0).
    reflexivity.
  - refine (proj1 (proj2 (doesDescendantMatchCondition_tests_target
                            Fixtures.localCallScript _ 1 true)) 5 _).
    reflexivity.
Defined.

(** The three kinds of answer on [function a() {return 1;} a();]: the
    literal is found below the declaration, nothing is found below the call,
    and the search for an identifier from the top returns the first one. *)
Example doesDescendantMatchCondition_runs :
  let a := Fixtures.localCallScript in
  (∃ d, doesDescendantMatchCondition 10 a (Some 1)
          (Some (λ n, typeIs a n "Literal")) true = Ret (RNode d)
        ∧ d ≠ 1 ∧ typeIs a d "Literal" = true)
  ∧ doesDescendantMatchCondition 10 a (Some 1)
      (Some (λ n, typeIs a n "Literal")) false = Ret RTrue
  ∧ doesDescendantMatchCondition 10 a (Some 1)
      (Some (λ n, typeIs a n "ThisExpression")) false = Ret RFalse
  ∧ doesDescendantMatchCondition 10 a (Some 1)
      (Some (λ n, typeIs a n "ThisExpression")) true = Ret RFalse.
Proof.
  cbn zeta. split; [| by vm_compute].
  eexists. split; [vm_compute; reflexivity |]. by vm_compute.
Qed.

End DescendantProps.

Module ContextProps.
Import Js Ast GetCache GenerateHash DoesDescendantMatchCondition.
Import GetDeclarationWithContext DescendantProps.

Section WithEnvironment.
Variable md5 : string → string.
Variable isNodeInRanges : node → list (Z * Z) → bool.
Variable PROPERTIES_THAT_MODIFY_CONTENT : list string.
Variable a : ast.

Local Abbreviation collect :=
  (collect isNodeInRanges PROPERTIES_THAT_MODIFY_CONTENT a).
Local Abbreviation postProcess := (postProcess isNodeInRanges a).
Local Abbreviation filterCollected := (filterCollected isNodeInRanges a).
Local Abbreviation getDeclarationWithContext :=
  (getDeclarationWithContext md5 isNodeInRanges PROPERTIES_THAT_MODIFY_CONTENT a).

Local Abbreviation marksBelow := (marksBelow a).
Local Abbreviation passes := (passes isNodeInRanges a).

Lemma touchesMarked_true n :
  marksBelow n →
  ∃ fuel0, ∀ fuel, fuel0 ≤ fuel → touchesMarked a fuel n = Ret true.
Proof.
  intros [Hm | (depth & d & Hs & Hr & Hd)]; unfold touchesMarked.
  - exists 0. intros fuel _. by rewrite Hm.
  - destruct (search_finds a (λ n, isMarked (a n)) depth n d Hs Hr Hd) as [fuel0 H].
    exists fuel0. intros fuel Hle. destruct (isMarked (a n)); [done |].
    cbn. by rewrite (H fuel Hle).
Qed.

(** The first round of the loop leaves it with nothing collected. *)
Lemma collect_aborts n :
  marksBelow n →
  ∃ fuel0, ∀ fuel, fuel0 ≤ fuel → collect fuel fuel [n] [] [] [] = Ret [].
Proof.
  intros Hm. destruct (touchesMarked_true n Hm) as [fuel0 H].
  exists (S fuel0). intros [|fuel] Hle; [lia |].
  cbn -[touchesMarked]. rewrite H by lia. done.
Qed.

Lemma postProcess_nil o excludeOriginNode : postProcess o excludeOriginNode [] = [].
Proof. done. Qed.

(** C1, as amended. When [n] or one of its descendants is marked and the
    script cache holds no context under either key of [n], the collector
    returns the empty array, and stores it under both keys. *)
Theorem collectContext_marked_uncached n excludeOriginNode st :
  marksBelow n →
  lookupCached md5 a (fst (getCache (scriptHash (a n)) st)) n
    (snd (getCache (scriptHash (a n)) st)) = None →
  ∃ fuel0, ∀ fuel, fuel0 ≤ fuel →
    let cache := fst (getCache (scriptHash (a n)) st) in
    let st1 := snd (getCache (scriptHash (a n)) st) in
    getDeclarationWithContext fuel (Some n) excludeOriginNode st
    = (Ret [],
       write cache (cacheNameSrc md5 a n) []
         (write cache (cacheNameId md5 a n) [] st1)).
Proof.
  intros Hm Hmiss. destruct (collect_aborts n Hm) as [fuel0 H].
  exists fuel0. intros fuel Hle. cbn zeta.
  unfold GetDeclarationWithContext.getDeclarationWithContext.
  destruct (getCache (scriptHash (a n)) st) as [cache st1] eqn:Hg.
  cbn [fst snd] in *. rewrite Hmiss, (H fuel Hle). done.
Qed.

(** A call that finds a context in the cache returns it as it is. *)
Lemma getDeclarationWithContext_cached fuel n excludeOriginNode st cached :
  lookupCached md5 a (fst (getCache (scriptHash (a n)) st)) n
    (snd (getCache (scriptHash (a n)) st)) = Some cached →
  fst (getDeclarationWithContext fuel (Some n) excludeOriginNode st) = Ret cached.
Proof.
  intros Hhit. unfold GetDeclarationWithContext.getDeclarationWithContext.
  destruct (getCache (scriptHash (a n)) st) as [cache st1] eqn:Hg.
  cbn [fst snd] in *. by rewrite Hhit.
Qed.

Lemma filterCollected_spec o excludeOriginNode collected :
  ∀ filteredNodes n,
    n ∈ filterCollected o excludeOriginNode collected filteredNodes
    ↔ n ∈ filteredNodes
      ∨ (n ∈ collected ∧ passes o excludeOriginNode n = true).
Proof.
  induction collected as [|x rest IH]; intros acc n; cbn.
  { split; [by left | intros [H | [H _]]; [done | by apply elem_of_nil in H]]. }
  rewrite IH, elem_of_cons. clear IH.
  assert (n = x → passes o excludeOriginNode n = true →
          n ∈ (if bool_decide (x ∈ acc)
                  || includes IRRELEVANT_FILTER_TYPES (type (a x))
                  || excludeOriginNode && isNodeInRanges (a x) [range (a o)]
               then acc
               else if survivesOverwriteRule a x then acc ++ [x] else acc))
    as Hhead.
  { intros -> Hp. unfold passes in Hp.
    apply andb_true_iff in Hp as [Hp Hsurv].
    apply andb_true_iff in Hp as [Hirr Hex].
    apply negb_true_iff in Hirr, Hex. rewrite Hirr, Hex, Hsurv.
    destruct (bool_decide (x ∈ acc)) eqn:Hin; cbn.
    - by apply bool_decide_eq_true in Hin.
    - apply elem_of_app. right. by apply list_elem_of_singleton. }
  assert (n ∈ (if bool_decide (x ∈ acc)
                  || includes IRRELEVANT_FILTER_TYPES (type (a x))
                  || excludeOriginNode && isNodeInRanges (a x) [range (a o)]
               then acc
               else if survivesOverwriteRule a x then acc ++ [x] else acc) →
          n ∈ acc ∨ (n = x ∧ passes o excludeOriginNode n = true))
    as Hacc.
  { unfold passes.
    destruct (bool_decide (x ∈ acc)); cbn; [by left |].
    destruct (includes IRRELEVANT_FILTER_TYPES (type (a x))) eqn:Hirr; cbn; [by left |].
    destruct (excludeOriginNode && isNodeInRanges (a x) [range (a o)]) eqn:Hex;
      cbn; [by left |].
    destruct (survivesOverwriteRule a x) eqn:Hsurv; [| by left].
    rewrite elem_of_app, list_elem_of_singleton. intros [H | ->]; [by left |].
    right. by rewrite Hirr, Hex, Hsurv. }
  split.
  - intros [H | [H Hp]].
    + destruct (Hacc H) as [H' | [-> Hp]]; [by left |]. right. split; [by left | done].
    + right. split; [by right | done].
  - intros [H | [[-> | H] Hp]].
    + left. destruct (bool_decide (x ∈ acc)
                      || includes IRRELEVANT_FILTER_TYPES (type (a x))
                      || excludeOriginNode && isNodeInRanges (a x) [range (a o)]);
        [done |].
      destruct (survivesOverwriteRule a x); [| done]. apply elem_of_app. by left.
    + left. by apply Hhead.
    + right. done.
Qed.

Lemma removeRedundantNodes_subset nodes n :
  n ∈ removeRedundantNodes a nodes → n ∈ nodes.
Proof.
  unfold removeRedundantNodes. rewrite !list_elem_of_In, filter_In. tauto.
Qed.

Lemma functionDeclaration_relevant n :
  typeIs a n "FunctionDeclaration" = true →
  includes IRRELEVANT_FILTER_TYPES (type (a n)) = false.
Proof.
  unfold typeIs. intros H. apply bool_decide_eq_true in H. by rewrite H.
Qed.

(** C4, as amended. A function declaration whose name has at least one
    reference, all of them left sides of assignments, is not in the
    result. A collected function declaration whose name has no reference at
    all, or a reference that is not the left side of an assignment, passes
    the filter (when it is not excluded with the origin); only the removal of
    nodes contained in other nodes can still drop it. On a cache miss the
    result of the collector is the post-processing of what the loop
    collected. *)
Theorem anti_overwrite_rule o excludeOriginNode collected n :
  typeIs a n "FunctionDeclaration" = true →
  (nameReferences a n ≠ []
   → forallb (isPlainReassignment a) (nameReferences a n) = true
   → n ∉ postProcess o excludeOriginNode collected)
  ∧ (n ∈ collected
     → (excludeOriginNode && isNodeInRanges (a n) [range (a o)]) = false
     → nameReferences a n = []
       ∨ existsb (λ ref, negb (isPlainReassignment a ref)) (nameReferences a n) = true
     → n ∈ filterCollected o excludeOriginNode collected [])
  ∧ (∀ fuel st res,
       lookupCached md5 a (fst (getCache (scriptHash (a o)) st)) o
         (snd (getCache (scriptHash (a o)) st)) = None →
       fst (getDeclarationWithContext fuel (Some o) excludeOriginNode st) = Ret res →
       ∃ collected', res = postProcess o excludeOriginNode collected').
Proof.
  intros Hty. split; [| split].
  - intros Hrefs Hall Hin.
    apply removeRedundantNodes_subset, filterCollected_spec in Hin
      as [Hin | [_ Hp]]; [by apply elem_of_nil in Hin |].
    unfold passes, survivesOverwriteRule in Hp. rewrite Hty in Hp.
    rewrite bool_decide_eq_false_2 in Hp by done. cbn in Hp.
    apply andb_true_iff in Hp as [_ Hp].
    apply existsb_exists in Hp as (ref & Href & Hneg).
    rewrite forallb_forall in Hall. rewrite (Hall ref Href) in Hneg. discriminate.
  - intros Hin Hex Hcase. apply filterCollected_spec. right. split; [done |].
    unfold passes. rewrite (functionDeclaration_relevant n Hty), Hex. cbn.
    unfold survivesOverwriteRule. rewrite Hty. cbn.
    destruct Hcase as [-> | Hcase]; [done |].
    by destruct (bool_decide (nameReferences a n = [])).
  - intros fuel st res Hmiss Hres.
    unfold GetDeclarationWithContext.getDeclarationWithContext in Hres.
    destruct (getCache (scriptHash (a o)) st) as [cache st1] eqn:Hg.
    cbn [fst snd] in *. rewrite Hmiss in Hres.
    destruct (collect fuel fuel [o] [] [] []) as [collected'| |]; cbn in Hres;
      [| discriminate | discriminate].
    exists collected'. congruence.
Qed.

End WithEnvironment.

Section Runs.
Import Fixtures.

Local Abbreviation collector :=
  (getDeclarationWithContext md5 isNodeInRanges PROPERTIES_THAT_MODIFY_CONTENT).

(** The marked call of [f();], collected with an empty script cache. *)
Lemma collectContext_marked_uncached_witness :
  ∃ fuel0, ∀ fuel, fuel0 ≤ fuel →
    fst (collector callScriptMarked fuel (Some 2) false init) = Ret [].
Proof.
  destruct (collectContext_marked_uncached md5 isNodeInRanges
              PROPERTIES_THAT_MODIFY_CONTENT callScriptMarked 2 false init
              (or_introl eq_refl) eq_refl) as [fuel0 H].
  exists fuel0. intros fuel Hle. exact (f_equal fst (H fuel Hle)).
Defined.

(** C1, as stated, fails. The context of the call of [f();] is collected,
    then the call is marked; the next collection on the marked call finds
    the earlier context in the script cache and returns it. *)
Lemma collectContext_marked_cached :
  let st1 := snd (collector callScript 10 (Some 2) false init) in
  isMarked (callScriptMarked 2) = true
  ∧ fst (collector callScript 10 (Some 2) false init) = Ret [2]
  ∧ fst (collector callScriptMarked 10 (Some 2) false st1) = Ret [2].
Proof. vm_compute. done. Qed.

(** The expected results of the tests TP-1 and TP-4 of the repository. *)
Example getDeclarationWithContext_tests :
  fst (collector localCallScript 20 (Some 7) false init) = Ret [7; 1]
  ∧ fst (collector antiDebugScript 20 (Some 1) false init) = Ret [1; 9].
Proof. vm_compute. done. Qed.

(** In [function a() {} a = 1;] the only reference to [a] is the left side
    of an assignment: the declaration is not part of any result. *)
Lemma anti_overwrite_rule_witness :
  1 ∉ postProcess isNodeInRanges overwriteScript 6 false [1].
Proof.
  refine (proj1 (anti_overwrite_rule md5 isNodeInRanges
                   PROPERTIES_THAT_MODIFY_CONTENT overwriteScript 6 false [1] 1 _) _ _);
    [reflexivity | discriminate | reflexivity].
Defined.

(** C4, as stated, fails. In [function a() {}] the name has no reference:
    every reference is, vacuously, a reassignment and there is no call site,
    yet the declaration is collected and kept. *)
Lemma anti_overwrite_keeps_unreferenced :
  typeIs declarationScript 1 "FunctionDeclaration" = true
  ∧ forallb (isPlainReassignment declarationScript)
      (nameReferences declarationScript 1) = true
  ∧ fst (collector declarationScript 10 (Some 1) false init) = Ret [1].
Proof. vm_compute. done. Qed.

End Runs.

End ContextProps.

Module CreateNewNodeProps.
Import Js Ast JsString CreateNewNode.

Section WithParser.
Context {N : Type}.
Variable parseCode : string → option (list N).

Local Abbreviation createNewNode := (createNewNode parseCode).
Local Abbreviation convertElements := (convertElements parseCode).
Local Abbreviation convertEntries := (convertEntries parseCode).

(** Induction on values goes through the elements of arrays and the
    property values of objects. *)
Lemma jsvalue_nested_ind (P : jsvalue N → Prop) :
  (∀ elements, Forall P elements → P (VArray elements)) →
  (∀ entries, Forall (λ kv, P (snd kv)) entries → P (VObject entries)) →
  (∀ v, (∀ l, v ≠ VArray l) → (∀ l, v ≠ VObject l) → P v) →
  ∀ v, P v.
Proof.
  intros HA HO Hleaf. fix IH 1.
  intros v. destruct v as [n|s|n|b|elements|entries| | |z|d|s|s f|t ks];
    try (apply Hleaf; intros; discriminate).
  - apply HA. induction elements as [|x l IHl]; constructor; [apply IH | apply IHl].
  - apply HO. induction entries as [|[k x] l IHl]; constructor; [apply IH | apply IHl].
Qed.

Lemma createNewNode_array elements :
  createNewNode (VArray elements)
  = match convertElements elements with
    | Ret elements' => ArrayExpression elements'
    | _ => BAD_VALUE
    end.
Proof. reflexivity. Qed.

Lemma createNewNode_object entries :
  createNewNode (VObject entries)
  = match convertEntries entries with
    | Ret properties => ObjectExpression properties
    | _ => BAD_VALUE
    end.
Proof. reflexivity. Qed.

Lemma isBad_true (x : newNode N) : isBad x = true ↔ x = BAD_VALUE.
Proof. destruct x; cbn; split; congruence. Qed.

Lemma literalOrUnary_clean (argument : newNode N) value valueStr negativeZero :
  (valueStr ≠ "" → clean argument = true) →
  clean (literalOrUnary argument value valueStr negativeZero) = true.
Proof.
  intros Harg. unfold literalOrUnary.
  destruct valueStr as [|c rest]; cbn -[parseIntIsNaN includes].
  { destruct (includes _ _); [done |]. by destruct negativeZero. }
  destruct (bool_decide _ && _); cbn -[parseIntIsNaN includes].
  - destruct (parseIntIsNaN rest && _); [done |]. cbn. by apply Harg.
  - destruct (includes _ _); [done |]. by destruct negativeZero.
Qed.

(** A string always converts. *)
Lemma fromText_clean s : clean (@fromText N s) = true.
Proof.
  induction s as [|c rest IH]; cbn -[literalOrUnary];
    apply literalOrUnary_clean; [done | intros _; exact IH].
Qed.

Lemma fromText_not_bad s : isBad (@fromText N s) = false.
Proof.
  pose proof (fromText_clean s) as H. by destruct (fromText s).
Qed.

Lemma convertElements_throw elements :
  convertElements elements ≠ OutOfFuel
  ∧ (convertElements elements = Throw
     ↔ ∃ w, w ∈ elements ∧ createNewNode w = BAD_VALUE).
Proof.
  induction elements as [|v l [IHf IH]].
  { cbn. split; [done |]. split; [done |]. intros (w & Hw & _). by apply elem_of_nil in Hw. }
  cbn. destruct (isBad (createNewNode v)) eqn:Hbad.
  - split; [done |]. split; [| done]. intros _. exists v. split; [by left |].
    by apply isBad_true.
  - destruct (convertElements l) as [rest| |] eqn:Hl; cbn; [| | done].
    + split; [done |]. split; [done |]. intros (w & Hw & Hbw).
      apply elem_of_cons in Hw as [-> | Hw].
      * apply isBad_true in Hbw. congruence.
      * assert (@Ret (list (newNode N)) rest = Throw) as Habs; [| discriminate].
        apply IH. by exists w.
    + split; [done |]. split; [| done]. intros _.
      destruct (proj1 IH eq_refl) as (w & Hw & Hbw). exists w. split; [by right | done].
Qed.

Lemma convertEntries_throw entries :
  convertEntries entries ≠ OutOfFuel
  ∧ (convertEntries entries = Throw
     ↔ ∃ k w, (k, w) ∈ entries ∧ createNewNode w = BAD_VALUE).
Proof.
  induction entries as [|[k v] l [IHf IH]].
  { cbn. split; [done |]. split; [done |]. intros (k & w & Hw & _). by apply elem_of_nil in Hw. }
  cbn. rewrite fromText_not_bad. cbn.
  destruct (isBad (createNewNode v)) eqn:Hbad.
  - split; [done |]. split; [| done]. intros _. exists k, v. split; [by left |].
    by apply isBad_true.
  - destruct (convertEntries l) as [rest| |] eqn:Hl; cbn; [| | done].
    + split; [done |]. split; [done |]. intros (k' & w & Hw & Hbw).
      apply elem_of_cons in Hw as [Heq | Hw].
      * injection Heq as -> ->. apply isBad_true in Hbw. congruence.
      * assert (@Ret (list (newNode N * newNode N)) rest = Throw) as Habs; [| discriminate].
        apply IH. by exists k', w.
    + split; [done |]. split; [| done]. intros _.
      destruct (proj1 IH eq_refl) as (k' & w & Hw & Hbw).
      exists k', w. split; [by right | done].
Qed.

Lemma convertElements_clean elements elements' :
  Forall (λ v, createNewNode v = BAD_VALUE ∨ clean (createNewNode v) = true) elements →
  convertElements elements = Ret elements' →
  forallb clean elements' = true.
Proof.
  intros Hall. revert elements'.
  induction Hall as [|v l Hv _ IH]; intros elements' H; cbn in H.
  { by injection H as <-. }
  destruct (isBad (createNewNode v)) eqn:Hbad; [discriminate |].
  destruct (convertElements l) as [rest| |]; cbn in H; [| discriminate | discriminate].
  injection H as <-. cbn. rewrite (IH rest eq_refl), andb_true_r.
  destruct Hv as [Hv | Hv]; [| done]. rewrite Hv in Hbad. discriminate.
Qed.

Lemma convertEntries_clean entries properties :
  Forall (λ kv, createNewNode (snd kv) = BAD_VALUE
                ∨ clean (createNewNode (snd kv)) = true) entries →
  convertEntries entries = Ret properties →
  forallb (λ p, clean (fst p) && clean (snd p)) properties = true.
Proof.
  intros Hall. revert properties.
  induction Hall as [|[k v] l Hv _ IH]; intros properties H; cbn in H.
  { by injection H as <-. }
  rewrite fromText_not_bad in H. cbn in H, Hv.
  destruct (isBad (createNewNode v)) eqn:Hbad; [discriminate |].
  destruct (convertEntries l) as [rest| |]; cbn in H; [| discriminate | discriminate].
  injection H as <-. cbn. rewrite (IH rest eq_refl), andb_true_r, fromText_clean.
  destruct Hv as [Hv | Hv]; [| done]. rewrite Hv in Hbad. discriminate.
Qed.

(** The result is the sentinel or a node free of it. *)
Lemma createNewNode_bad_or_clean v :
  createNewNode v = BAD_VALUE ∨ clean (createNewNode v) = true.
Proof.
  induction v as [elements IH | entries IH | v Harr Hobj] using jsvalue_nested_ind.
  - rewrite createNewNode_array.
    destruct (convertElements elements) as [es| |] eqn:He; [| by left | by left].
    right. cbn. by apply (convertElements_clean elements).
  - rewrite createNewNode_object.
    destruct (convertEntries entries) as [ps| |] eqn:He; [| by left | by left].
    right. cbn. by apply (convertEntries_clean entries).
  - destruct v as [n|s|n|b|elements|entries| | |z|d|s|s f|t ks]; cbn -[literalOrUnary].
    + by right.
    + right. apply fromText_clean.
    + right. apply literalOrUnary_clean. intros _. apply fromText_clean.
    + right. apply literalOrUnary_clean. intros _. apply fromText_clean.
    + by destruct (Harr elements).
    + by destruct (Hobj entries).
    + by right.
    + by right.
    + by right.
    + right. destruct d as [d|]; [| done].
      destruct (bool_decide (d = "")); [done |]. cbn. by rewrite fromText_clean.
    + destruct (parseCode s) as [[|first rest]|]; [by left | by right | by left].
    + by right.
    + by left.
Qed.

(** C8. An array or an object that holds, at any depth, an element or a
    property value that does not convert, does not convert either; and
    whatever the value, the result is [BAD_VALUE] itself or a node with no
    [BAD_VALUE] inside. Keys are strings and always convert. *)
Theorem createNewNode_fails_closed v :
  (∀ w, nestedIn w v → createNewNode w = BAD_VALUE → createNewNode v = BAD_VALUE)
  ∧ (createNewNode v = BAD_VALUE ∨ clean (createNewNode v) = true)
  ∧ (∀ k, clean (createNewNode (VString k)) = true).
Proof.
  split; [| split; [apply createNewNode_bad_or_clean | intros k; apply fromText_clean]].
  intros w Hin. induction Hin as [w elements Hw | k w entries Hw | w u v _ IH1 _ IH2].
  - intros Hbad. rewrite createNewNode_array.
    destruct (convertElements_throw elements) as [Hf Ht].
    rewrite (proj2 Ht); [done |]. by exists w.
  - intros Hbad. rewrite createNewNode_object.
    destruct (convertEntries_throw entries) as [Hf Ht].
    rewrite (proj2 Ht); [done |]. by exists k, w.
  - intros Hbad. by apply IH2, IH1.
Qed.

End WithParser.

(** The conversions checked by the test suite of the repository. *)
Example createNewNode_tests :
  let convert := @createNewNode nat (λ _, None) in
  convert (VString "Baryo") = plainLiteral (PString "Baryo") "Baryo"
  ∧ convert (VString "!Baryo") = plainLiteral (PString "!Baryo") "!Baryo"
  ∧ convert (VNumber (Number "3" false)) = plainLiteral (PNumber (Number "3" false)) "3"
  ∧ convert (VNumber (Number "-3" false))
    = UnaryExpression "-" (plainLiteral (PString "3") "3")
  ∧ convert (VNumber (Number "-Infinity" false))
    = UnaryExpression "-" (Identifier "Infinity")
  ∧ convert (VNumber (Number "0" true))
    = UnaryExpression "-" (plainLiteral (PNumber positiveZero) "0")
  ∧ convert (VNumber positiveZero) = plainLiteral (PNumber positiveZero) "0"
  ∧ convert (VString "!3") = UnaryExpression "!" (plainLiteral (PString "3") "3")
  ∧ convert (VNumber (Number "NaN" false)) = Identifier "NaN"
  ∧ convert (VBoolean true) = plainLiteral (PBoolean true) "true"
  ∧ convert (VArray []) = ArrayExpression []
  ∧ convert (VObject [("a", VNumber (Number "1" false))])
    = ObjectExpression [(plainLiteral (PString "a") "a",
                         plainLiteral (PNumber (Number "1" false)) "1")]
  ∧ convert (VObject [("a", VFunction "a() {}")]) = BAD_VALUE
  ∧ convert VNull = Literal None (Some "null") None None
  ∧ convert (VBigInt 123) = Literal (Some (PBigInt 123)) (Some "123n") (Some "123") None
  ∧ convert (VSymbol (Some "test"))
    = CallExpression (Identifier "Symbol") [plainLiteral (PString "test") "test"].
Proof. vm_compute. repeat split. Qed.

(** A native function two levels down: the whole array is rejected. *)
Lemma createNewNode_fails_closed_witness :
  @createNewNode nat (λ _, None)
    (VArray [VNumber (Number "1" false);
             VObject [("max", VFunction "function max() { [native code] }")]])
  = BAD_VALUE.
Proof.
  refine (proj1 (createNewNode_fails_closed (λ _, None) _)
            (VFunction "function max() { [native code] }") _ _).
  - eapply nested_deeper.
    + eapply nested_property. by left.
    + eapply nested_element. right. by left.
  - reflexivity.
Defined.

End CreateNewNodeProps.

Module EvalInVmProps.
Import Js Ast JsString Regex GenerateHash CreateNewNode Sandbox EvalInVm.

Section WithEnvironment.
Context {N Ctx : Type}.
Variable md5 : string → string.
Variable parseCode : string → option (list N).
Variable keysOfNode : N → list string.
Variable consoleKeys : list string.
Variable createContextSync : nat → Ctx.
Variable setGlobalSelf : Ctx → Ctx.
Variable setUndefined : Ctx → string → Ctx.
Variable runSync : nat → Ctx → string → runResult N * Ctx.

Local Abbreviation evalInVm :=
  (evalInVm md5 parseCode keysOfNode consoleKeys createContextSync
     setGlobalSelf setUndefined runSync).
Local Abbreviation attempt :=
  (attempt parseCode keysOfNode consoleKeys createContextSync
     setGlobalSelf setUndefined runSync).
Local Abbreviation cacheName := (cacheName md5).
Local Abbreviation newSandbox :=
  (newSandbox createContextSync setGlobalSelf setUndefined).
Local Abbreviation executed :=
  (executed createContextSync setGlobalSelf setUndefined runSync).
Local Abbreviation evalEach :=
  (evalEach md5 parseCode keysOfNode consoleKeys createContextSync
     setGlobalSelf setUndefined runSync).
Local Abbreviation settled :=
  (settled md5 parseCode keysOfNode consoleKeys createContextSync
     setGlobalSelf setUndefined runSync).
Local Abbreviation evalAll :=
  (evalAll md5 parseCode keysOfNode consoleKeys createContextSync
     setGlobalSelf setUndefined runSync).

Implicit Types (CACHE : gmap string (evaluated N)) (sb : option (sandbox Ctx)).

(** What a call that misses the cache returns, in terms of the [try]. *)
Lemma evalInVm_miss stringToEval sb CACHE :
  CACHE !! cacheName stringToEval = None →
  valueOf (evalInVm stringToEval sb CACHE)
  = Ret (match fst (attempt stringToEval sb) with
         | Ret (Some result) => result
         | _ => Created BAD_VALUE
         end)
  ∧ cacheOf (evalInVm stringToEval sb CACHE) !! cacheName stringToEval
    = Some (match fst (attempt stringToEval sb) with
            | Ret (Some result) => result
            | _ => Created BAD_VALUE
            end).
Proof.
  intros Hmiss. unfold valueOf, cacheOf, EvalInVm.evalInVm. rewrite Hmiss.
  destruct (attempt stringToEval sb) as [tried vm'].
  destruct tried as [[result|]| |]; cbn [fst snd];
    rewrite ?lookup_insert_eq; done.
Qed.

Lemma evalInVm_hit stringToEval sb CACHE cached :
  CACHE !! cacheName stringToEval = Some cached →
  evalInVm stringToEval sb CACHE = (Ret cached, CACHE, sb).
Proof. intros Hhit. unfold EvalInVm.evalInVm. by rewrite Hhit. Qed.

(** No exception leaves [evalInVm]. *)
Lemma evalInVm_never_throws stringToEval sb CACHE :
  ∃ result, valueOf (evalInVm stringToEval sb CACHE) = Ret result.
Proof.
  destruct (CACHE !! cacheName stringToEval) as [cached|] eqn:Hc.
  - exists cached. by rewrite (evalInVm_hit _ _ _ _ Hc).
  - eexists. apply (evalInVm_miss _ _ _ Hc).
Qed.

Lemma attempt_run stringToEval sb :
  fst (attempt stringToEval sb)
  = match executed stringToEval sb with
    | Failed _ => Throw
    | Returned r =>
        if isReference (HReference r)
           && negb (includes BAD_TYPES (referenceType r)) then
          match copySync r with
          | None => Throw
          | Some value =>
              match objectKeys keysOfNode value with
              | None => Throw
              | Some keys =>
                  match MATCHING_OBJECT_KEYS consoleKeys (join (sort keys)) with
                  | Some known => Ret (Some known)
                  | None => Ret (Some (Created (createNewNode parseCode value)))
                  end
              end
          end
        else Ret None
    end.
Proof.
  unfold EvalInVm.attempt, executed, run.
  destruct (runSync _ _ _) as [res ctx]. done.
Qed.

(** When the run throws, times out or exceeds the memory limit, the call
    returns [BAD_VALUE]. *)
Lemma evalInVm_failure stringToEval sb CACHE f :
  CACHE !! cacheName stringToEval = None →
  executed stringToEval sb = Failed f →
  valueOf (evalInVm stringToEval sb CACHE) = Ret (Created BAD_VALUE).
Proof.
  intros Hmiss Hrun. rewrite (proj1 (evalInVm_miss _ _ _ Hmiss)).
  by rewrite attempt_run, Hrun.
Qed.

(** After a call the cache holds the value the call returned. *)
Lemma evalInVm_stores stringToEval sb CACHE result :
  valueOf (evalInVm stringToEval sb CACHE) = Ret result →
  cacheOf (evalInVm stringToEval sb CACHE) !! cacheName stringToEval = Some result.
Proof.
  destruct (CACHE !! cacheName stringToEval) as [cached|] eqn:Hc.
  - rewrite (evalInVm_hit _ _ _ _ Hc). cbn. congruence.
  - destruct (evalInVm_miss _ sb _ Hc) as [-> ->]. congruence.
Qed.

(** The cache that a call which misses leaves: the entry of the text, added
    to the cache the call found or, when that one was full, to an empty
    one. *)
Lemma evalInVm_miss_cache stringToEval sb CACHE :
  CACHE !! cacheName stringToEval = None →
  ∃ result,
    valueOf (evalInVm stringToEval sb CACHE) = Ret result
    ∧ cacheOf (evalInVm stringToEval sb CACHE)
      = <[cacheName stringToEval := result]>
          (if MAX_CACHE_SIZE <=? size CACHE then ∅ else CACHE).
Proof.
  intros Hmiss. unfold valueOf, cacheOf, EvalInVm.evalInVm. rewrite Hmiss.
  destruct (attempt stringToEval sb) as [tried vm'].
  destruct tried as [[result|]| |]; cbn [fst snd];
    rewrite ?lookup_insert_eq, ?insert_insert_eq; by eexists.
Qed.

(** A call on a cache that is not full leaves every entry where it is, and
    adds one entry at most. *)
Lemma evalInVm_keeps stringToEval sb CACHE k v :
  CACHE !! k = Some v →
  size CACHE < MAX_CACHE_SIZE →
  cacheOf (evalInVm stringToEval sb CACHE) !! k = Some v
  ∧ size (cacheOf (evalInVm stringToEval sb CACHE)) ≤ S (size CACHE).
Proof.
  intros Hk Hsize.
  destruct (CACHE !! cacheName stringToEval) as [cached|] eqn:Hc.
  { rewrite (evalInVm_hit _ _ _ _ Hc). cbn. split; [done | lia]. }
  destruct (evalInVm_miss_cache stringToEval sb CACHE Hc) as (result & _ & ->).
  assert ((MAX_CACHE_SIZE <=? size CACHE) = false) as -> by (apply Nat.leb_gt; lia).
  split.
  - rewrite lookup_insert_ne; [done |]. intros Heq. congruence.
  - rewrite map_size_insert_None by done. lia.
Qed.

(** So does a run of calls that is too short to fill the cache. *)
Lemma evalEach_keeps calls :
  ∀ CACHE k v,
    CACHE !! k = Some v →
    size CACHE + length calls ≤ MAX_CACHE_SIZE →
    evalEach calls CACHE !! k = Some v.
Proof.
  induction calls as [|call calls IH]; intros CACHE k v Hk Hsize; [done |].
  cbn [length] in Hsize. cbn.
  destruct (evalInVm_keeps (fst call) (snd call) CACHE k v Hk) as [Hk' Hsize'];
    [lia |].
  apply IH; [done | lia].
Qed.

(** Without a sandbox of its own, a call on a text returns on a cache in
    which the entry of the text is settled what it returns on the empty
    cache. *)
Lemma evalInVm_settled stringToEval CACHE :
  settled stringToEval CACHE →
  valueOf (evalInVm stringToEval None CACHE) = valueOf (evalInVm stringToEval None ∅).
Proof.
  intros Hs.
  destruct (CACHE !! cacheName stringToEval) as [cached|] eqn:Hc.
  - rewrite (evalInVm_hit _ _ _ _ Hc). cbn. by rewrite (Hs _ Hc).
  - rewrite (proj1 (evalInVm_miss _ None _ Hc)).
    by rewrite (proj1 (evalInVm_miss stringToEval None ∅ (lookup_empty _))).
Qed.

(** A call on the text itself, or on a text kept under another key, leaves
    the entry of the text settled. *)
Lemma evalInVm_keeps_settled stringToEval other CACHE :
  other = stringToEval ∨ cacheName other ≠ cacheName stringToEval →
  settled stringToEval CACHE →
  settled stringToEval (cacheOf (evalInVm other None CACHE)).
Proof.
  intros Hother Hs cached Hcached.
  destruct (CACHE !! cacheName other) as [c|] eqn:Hc.
  { rewrite (evalInVm_hit _ _ _ _ Hc) in Hcached. by apply Hs. }
  destruct (evalInVm_miss_cache other None CACHE Hc) as (result & Hv & Heq).
  rewrite Heq in Hcached. destruct Hother as [-> | Hne].
  - rewrite lookup_insert_eq in Hcached. injection Hcached as <-.
    by rewrite <- (evalInVm_settled _ _ Hs).
  - rewrite lookup_insert_ne in Hcached by done.
    destruct (MAX_CACHE_SIZE <=? size CACHE); [by rewrite lookup_empty in Hcached |].
    by apply Hs.
Qed.

Lemma evalAll_keeps_settled stringToEval texts :
  (∀ other, other ∈ texts →
     other = stringToEval ∨ cacheName other ≠ cacheName stringToEval) →
  ∀ CACHE, settled stringToEval CACHE → settled stringToEval (evalAll texts CACHE).
Proof.
  induction texts as [|other rest IH]; intros Hall CACHE Hs; [done |].
  cbn. apply IH.
  - intros g Hg. apply Hall. by right.
  - apply evalInVm_keeps_settled; [| done]. apply Hall. by left.
Qed.

Lemma settled_empty stringToEval : settled stringToEval ∅.
Proof. intros cached H. by rewrite lookup_empty in H. Qed.


End WithEnvironment.

Section Determinism.
Context {N Ctx : Type}.
Variable md5 : string → string.
Variable parseCode : string → option (list N).
Variable keysOfNode : N → list string.
Variable consoleKeys : list string.
(** The engine at a call, and the engine at the calls that follow it, which
    may answer a script otherwise than the first did. *)
Variable createContextSync createContextSync' : nat → Ctx.
Variable setGlobalSelf setGlobalSelf' : Ctx → Ctx.
Variable setUndefined setUndefined' : Ctx → string → Ctx.
Variable runSync runSync' : nat → Ctx → string → runResult N * Ctx.

Local Abbreviation evalInVm :=
  (evalInVm md5 parseCode keysOfNode consoleKeys createContextSync
     setGlobalSelf setUndefined runSync).
Local Abbreviation evalAll :=
  (evalAll md5 parseCode keysOfNode consoleKeys createContextSync
     setGlobalSelf setUndefined runSync).
Local Abbreviation evalInVm' :=
  (EvalInVm.evalInVm md5 parseCode keysOfNode consoleKeys createContextSync'
     setGlobalSelf' setUndefined' runSync').
Local Abbreviation evalEach' :=
  (evalEach md5 parseCode keysOfNode consoleKeys createContextSync'
     setGlobalSelf' setUndefined' runSync').
Local Abbreviation cacheName := (cacheName md5).
Local Abbreviation newSandbox :=
  (newSandbox createContextSync setGlobalSelf setUndefined).

Implicit Types (CACHE : gmap string (evaluated N)) (sb : option (sandbox Ctx)).


End Determinism.

Section Runs.
Import Fixtures ToyEngine.

Local Abbreviation evaluate :=
  (evalInVm md5 parseCode keysOfNode consoleKeys createContextSync
     setGlobalSelf setUndefined runSync).



(** The same engine times out on the text as it was written. *)
Example loop_without_neutralization :
  fst (runSync DEFAULT_TIMEOUT tt (withDeletions "while(true) {}; 'safe'"))
  = Failed TimedOut.
Proof. reflexivity. Qed.

End Runs.

Section DeletionRuns.
Import Fixtures DeletingEngine.

Local Abbreviation evaluate :=
  (evalInVm md5 ToyEngine.parseCode ToyEngine.keysOfNode ToyEngine.consoleKeys
     createContextSync setGlobalSelf setUndefined runSync).
Local Abbreviation evaluateLater :=
  (evalInVm md5 ToyEngine.parseCode ToyEngine.keysOfNode ToyEngine.consoleKeys
     createContextSync setGlobalSelf setUndefined runSyncThrows).
Local Abbreviation evaluateEachLater :=
  (evalEach md5 ToyEngine.parseCode ToyEngine.keysOfNode ToyEngine.consoleKeys
     createContextSync setGlobalSelf setUndefined runSyncThrows).
Local Abbreviation evaluateAll :=
  (evalAll md5 ToyEngine.parseCode ToyEngine.keysOfNode ToyEngine.consoleKeys
     createContextSync setGlobalSelf setUndefined runSync).


(** What the deletions are for: in a new context of the same engine the two
    scripts yield a number as long as the scripts are run as they are, and
    throw behind the deletions; the value of [5 + 3 * 2] comes from the first
    call, where the later engine throws. *)
Example deletions_matter :
  fst (runSync 1000 (createContextSync 128) "Math.random()")
  = ToyEngine.object (VNumber (Number "0.7203244934421581" false))
  ∧ fst (runSync 1000 (createContextSync 128) (withDeletions "Math.random()"))
    = Failed Thrown
  ∧ fst (runSync 1000 (createContextSync 128) "Date.now()")
    = ToyEngine.object (VNumber (Number "1700000000000" false))
  ∧ fst (runSync 1000 (createContextSync 128) (withDeletions "Date.now()"))
    = Failed Thrown
  ∧ valueOf (evaluate "5 + 3 * 2" None ∅)
    = Ret (Created (plainLiteral (PNumber (Number "11" false)) "11"))
  ∧ valueOf (evaluateLater "5 + 3 * 2" None ∅) = Ret (Created BAD_VALUE).
Proof. vm_compute. done. Qed.

End DeletionRuns.

End EvalInVmProps.

Module CreateOrderedSrcProps.
Import Js Ast JsString Regex CreateOrderedSrc.

Section WithParser.
Variable parses : string → bool.

Local Abbreviation settle := (settle parses).
Local Abbreviation settleAll := (settleAll parses).
Local Abbreviation createOrderedSrc := (createOrderedSrc parses).

Lemma setNodeId_same n : setNodeId (nodeId n) n = n.
Proof. by destruct n. Qed.

Lemma setNodeId_twice z z' n : setNodeId z' (setNodeId z n) = setNodeId z' n.
Proof. done. Qed.

Lemma drifts_refl st : drifts st st.
Proof.
  intros h. exists (nodeId (tree st h)). by rewrite setNodeId_same.
Qed.

Lemma drifts_trans st1 st2 st3 : drifts st1 st2 → drifts st2 st3 → drifts st1 st3.
Proof.
  intros H12 H23 h. destruct (H12 h) as (z & E12 & K12).
  destruct (H23 h) as (z' & E23 & K23).
  exists z'. split.
  - by rewrite E23, E12.
  - intros Hne. rewrite K23, K12; [done | done |]. by rewrite K12.
Qed.

Lemma drifts_assignNodeId st p z :
  type (tree st p) = "ExpressionStatement" → drifts st (assignNodeId p z st).
Proof.
  intros Hty h. cbn. case_bool_decide as Hh.
  - subst h. exists z. split; [done |]. intros Hne. done.
  - exists (nodeId (tree st h)). by rewrite setNodeId_same.
Qed.

Lemma drifts_agree st st' h : drifts st st' → agree (tree st h) (tree st' h).
Proof.
  intros Hd. destruct (Hd h) as (z & -> & _). by split.
Qed.

Lemma drifts_typeIs st st' h t :
  drifts st st' → typeIs (tree st') h t = typeIs (tree st) h t.
Proof.
  intros Hd. unfold typeIs. by rewrite (agree_type _ _ (drifts_agree _ _ h Hd)).
Qed.

Lemma drifts_parentIdName st st' h :
  drifts st st' → parentIdName st' h = parentIdName st h.
Proof.
  intros Hd. unfold parentIdName.
  rewrite (agree_parentNode _ _ (drifts_agree _ _ h Hd)).
  destruct (parentNode (tree st h)) as [p|]; [| done].
  rewrite (agree_id _ _ (drifts_agree _ _ p Hd)).
  destruct (id_ (tree st p)) as [i|]; [| done].
  by rewrite (agree_name _ _ (drifts_agree _ _ i Hd)).
Qed.

Lemma drifts_keeps st st' h :
  drifts st st' → type (tree st h) ≠ "ExpressionStatement" →
  tree st' h = tree st h.
Proof. intros Hd Hne. destruct (Hd h) as (z & _ & K). by apply K. Qed.

(** A name that did not parse does not parse later either. *)
Lemma addNameToFE_fails_again st st' c extra :
  drifts st st' → type (tree st c) ≠ "ExpressionStatement" →
  fst (addNameToFE parses c (parentIdName st c) extra st) = None →
  addNameToFE parses c (parentIdName st' c) extra st' = (None, st').
Proof.
  intros Hd Hne. rewrite (drifts_parentIdName _ _ _ Hd).
  unfold addNameToFE. rewrite (drifts_keeps _ _ _ Hd Hne).
  destruct (parses _); [discriminate | done].
Qed.

Lemma addNameToFE_drifts st c nm extra :
  drifts st (snd (addNameToFE parses c nm extra st)).
Proof.
  unfold addNameToFE. destruct (parses _); cbn; intros h;
    exists (nodeId (tree st h)); by rewrite setNodeId_same.
Qed.

Lemma addNameToFE_named st c nm extra it :
  fst (addNameToFE parses c nm extra st) = Some it → ∃ k, it = Named k.
Proof.
  unfold addNameToFE. destruct (parses _); cbn; [| discriminate].
  intros [= <-]. by eexists.
Qed.

Lemma typeIs_true a h t : typeIs a h t = true ↔ type (a h) = t.
Proof. unfold typeIs. apply bool_decide_eq_true. Qed.

Lemma typeIs_false a h t : typeIs a h t = false ↔ type (a h) ≠ t.
Proof. unfold typeIs. apply bool_decide_eq_false. Qed.

(** One round changes the tree by a drift. *)
Lemma settle_drifts preserveOrder st it it' st' :
  settle preserveOrder st it = Ret (it', st') → drifts st st'.
Proof.
  unfold CreateOrderedSrc.settle. intros H.
  destruct it as [c|k]; [| injection H as <- <-; apply drifts_refl].
  destruct (typeIs (tree st) c "CallExpression") eqn:Hcall.
  - destruct (parentNode (tree st c)) as [p|]; [| discriminate].
    destruct (typeIs (tree st) p "ExpressionStatement") eqn:Hes.
    + destruct preserveOrder; [injection H as <- <-; apply drifts_refl |].
      destruct (expression (tree st p)) as [e|]; [| discriminate].
      destruct (callee (tree st e)) as [f|]; [| discriminate].
      destruct (typeIs (tree st) f "FunctionExpression");
        injection H as <- <-; [| apply drifts_refl].
      apply drifts_assignNodeId. by apply typeIs_true.
    + destruct (callee (tree st c)) as [f|]; [| discriminate].
      destruct (typeIs (tree st) f "FunctionExpression" && negb preserveOrder);
        [| injection H as <- <-; apply drifts_refl].
      pose proof (addNameToFE_drifts st c (parentIdName st c) LARGE_NUMBER) as Hd.
      destruct (addNameToFE parses c (parentIdName st c) LARGE_NUMBER st) as [[nf|] s'];
        injection H as <- <-; exact Hd.
  - destruct (typeIs (tree st) c "FunctionExpression"
              && negb (bool_decide (is_Some (id_ (tree st c)))));
      [| injection H as <- <-; apply drifts_refl].
    pose proof (addNameToFE_drifts st c (parentIdName st c) 0) as Hd.
    destruct (addNameToFE parses c (parentIdName st c) 0 st) as [[nf|] s'];
      injection H as <- <-; exact Hd.
Qed.

(** What a round leaves in a slot is left alone by every later round. *)
Lemma settle_settled preserveOrder st it it' st' st'' :
  settle preserveOrder st it = Ret (it', st') →
  drifts st' st'' →
  settle preserveOrder st'' it' = Ret (it', st'').
Proof.
  intros H Hd'.
  pose proof (settle_drifts _ _ _ _ _ H) as Hd.
  pose proof (drifts_trans _ _ _ Hd Hd') as Hd2.
  unfold CreateOrderedSrc.settle in H.
  destruct it as [c|k]; [| by injection H as <- <-].
  destruct (typeIs (tree st) c "CallExpression") eqn:Hcall.
  - destruct (parentNode (tree st c)) as [p|] eqn:Hp; [| discriminate].
    destruct (typeIs (tree st) p "ExpressionStatement") eqn:Hes.
    + (* the slot holds the statement *)
      assert (it' = Tree p) as ->.
      { destruct preserveOrder; [by injection H as <- <- |].
        destruct (expression (tree st p)) as [e|]; [| discriminate].
        destruct (callee (tree st e)) as [f|]; [| discriminate].
        by destruct (typeIs (tree st) f "FunctionExpression"); injection H as <- <-. }
      apply typeIs_true in Hes. unfold CreateOrderedSrc.settle.
      assert (type (tree st'' p) = "ExpressionStatement") as Hes''.
      { by rewrite (agree_type _ _ (drifts_agree _ _ p Hd2)). }
      assert (typeIs (tree st'') p "CallExpression" = false) as ->.
      { apply typeIs_false. by rewrite Hes''. }
      assert (typeIs (tree st'') p "FunctionExpression" = false) as ->.
      { apply typeIs_false. by rewrite Hes''. }
      done.
    + destruct (callee (tree st c)) as [f|] eqn:Hf; [| discriminate].
      assert (type (tree st c) ≠ "ExpressionStatement") as Hne.
      { apply typeIs_true in Hcall. by rewrite Hcall. }
      destruct (typeIs (tree st) f "FunctionExpression" && negb preserveOrder) eqn:Hfe.
      * destruct (addNameToFE parses c (parentIdName st c) LARGE_NUMBER st)
          as [[nf|] s'] eqn:Ha; injection H as <- <-.
        { destruct (addNameToFE_named st c (parentIdName st c) LARGE_NUMBER nf) as [k ->];
            [by rewrite Ha | done]. }
        unfold CreateOrderedSrc.settle.
        rewrite (drifts_typeIs _ _ c _ Hd2), Hcall.
        rewrite (agree_parentNode _ _ (drifts_agree _ _ c Hd2)), Hp.
        rewrite (drifts_typeIs _ _ p _ Hd2), Hes.
        rewrite (agree_callee _ _ (drifts_agree _ _ c Hd2)), Hf.
        rewrite (drifts_typeIs _ _ f _ Hd2), Hfe.
        rewrite (addNameToFE_fails_again st st'' c LARGE_NUMBER Hd2 Hne); [done |].
        by rewrite Ha.
      * injection H as <- <-. unfold CreateOrderedSrc.settle.
        rewrite (drifts_typeIs _ _ c _ Hd2), Hcall.
        rewrite (agree_parentNode _ _ (drifts_agree _ _ c Hd2)), Hp.
        rewrite (drifts_typeIs _ _ p _ Hd2), Hes.
        rewrite (agree_callee _ _ (drifts_agree _ _ c Hd2)), Hf.
        by rewrite (drifts_typeIs _ _ f _ Hd2), Hfe.
  - destruct (typeIs (tree st) c "FunctionExpression"
              && negb (bool_decide (is_Some (id_ (tree st c))))) eqn:Hfe.
    + assert (type (tree st c) ≠ "ExpressionStatement") as Hne.
      { apply andb_true_iff in Hfe as [Hfe _]. apply typeIs_true in Hfe.
        by rewrite Hfe. }
      destruct (addNameToFE parses c (parentIdName st c) 0 st)
        as [[nf|] s'] eqn:Ha; injection H as <- <-.
      { destruct (addNameToFE_named st c (parentIdName st c) 0 nf) as [k ->];
          [by rewrite Ha | done]. }
      unfold CreateOrderedSrc.settle.
      rewrite (drifts_typeIs _ _ c _ Hd2), Hcall.
      rewrite (drifts_typeIs _ _ c _ Hd2).
      rewrite (agree_id _ _ (drifts_agree _ _ c Hd2)), Hfe.
      rewrite (addNameToFE_fails_again st st'' c 0 Hd2 Hne); [done |].
      by rewrite Ha.
    + injection H as <- <-. unfold CreateOrderedSrc.settle.
      rewrite (drifts_typeIs _ _ c _ Hd2), Hcall.
      rewrite (drifts_typeIs _ _ c _ Hd2).
      by rewrite (agree_id _ _ (drifts_agree _ _ c Hd2)), Hfe.
Qed.

Lemma settleAll_settled preserveOrder nodes :
  ∀ processedNodes st nodes' processed st',
    settleAll preserveOrder nodes processedNodes st = (Ret (nodes', processed), st') →
    drifts st st'
    ∧ processed = foldl addIfNew processedNodes nodes'
    ∧ ∀ st'' acc, drifts st' st'' →
        settleAll preserveOrder nodes' acc st''
        = (Ret (nodes', foldl addIfNew acc nodes'), st'').
Proof.
  induction nodes as [|it rest IH]; intros acc0 st nodes' processed st' H; cbn in H.
  { injection H as <- <- <-. split; [apply drifts_refl |]. split; done. }
  destruct (settle preserveOrder st it) as [[cur st1]| |] eqn:Hs;
    [| discriminate | discriminate].
  destruct (settleAll preserveOrder rest _ st1) as [[[rest' p']| |] st2] eqn:Hr;
    [| discriminate | discriminate].
  injection H as <- <- <-.
  destruct (IH _ _ _ _ _ Hr) as (Hd1 & Hp & Hagain).
  pose proof (settle_drifts _ _ _ _ _ Hs) as Hd0.
  split; [by apply (drifts_trans _ st1) |]. split; [exact Hp |].
  intros st'' acc Hd''. cbn.
  rewrite (settle_settled _ _ _ _ _ st'' Hs); [| by apply (drifts_trans _ st2)].
  by rewrite (Hagain st'' _ Hd'').
Qed.

(** X29. A second call on the array as the first call left it, with the
    same [preserveOrder], returns the same text, and leaves the array and
    the nodes as they are. *)
Theorem createOrderedSrc_again nodes preserveOrder st output nodes' st' :
  createOrderedSrc nodes preserveOrder st = (Ret output, nodes', st') →
  createOrderedSrc nodes' preserveOrder st' = (Ret output, nodes', st').
Proof.
  unfold CreateOrderedSrc.createOrderedSrc. intros H.
  destruct (settleAll preserveOrder nodes [] st) as [[[ns ps]| |] s1] eqn:Hs;
    [| discriminate | discriminate].
  injection H as Hout <- <-.
  destruct (settleAll_settled _ _ _ _ _ _ _ Hs) as (_ & -> & Hagain).
  rewrite (Hagain s1 [] (drifts_refl s1)). by rewrite Hout.
Qed.

End WithParser.

Section Runs.
Import IifeScripts.

Lemma createOrderedSrc_again_witness :
  let first := createOrderedSrc parses [Tree 2; Tree 7] false fresh in
  fst (fst (createOrderedSrc parses (snd (fst first)) false (snd first)))
  = fst (fst first).
Proof.
  cbn zeta.
  destruct (createOrderedSrc parses [Tree 2; Tree 7] false fresh)
    as [[out nodes'] st'] eqn:H.
  destruct out as [text| |] eqn:Hout; [| vm_compute in H; discriminate ..].
  cbn [fst snd]. by rewrite (createOrderedSrc_again parses _ _ _ _ _ _ H).
Defined.

(** C5 fails on the code. The two calls of [(function(){})(); !function(a){}();]
    are reconstructed twice, each time from a new array of the same two
    nodes. For the first one the call adds [LARGE_NUMBER] to [nodeId] of its
    statement, a node of the tree, and the second call adds it again; for
    the other one each call makes a new node with the original [nodeId] plus
    [LARGE_NUMBER]. The first text has the two in the order of the source,
    the second text has them in the other order. *)
Lemma createOrderedSrc_not_pure :
  let first := createOrderedSrc parses [Tree 2; Tree 7] false fresh in
  let second := createOrderedSrc parses [Tree 2; Tree 7] false (snd first) in
  fst (fst first)
  = Ret ("(function(){})();" +:+ LF +:+ "(function func7(a){}());" +:+ LF)
  ∧ fst (fst second)
    = Ret ("(function func7(a){}());" +:+ LF +:+ "(function(){})();" +:+ LF)
  ∧ fst (fst first) ≠ fst (fst second).
Proof. vm_compute. repeat split. discriminate. Qed.

(** The expected text of the test TP-4 of the repository. *)
Example createOrderedSrc_test_TP4 :
  fst (fst (createOrderedSrc parses [Tree 3; Tree 8] false
              {| tree := namedIife; named := [] |}))
  = Ret ("a();" +:+ LF +:+ "(function func3(a){}());" +:+ LF).
Proof. vm_compute. reflexivity. Qed.

End Runs.

End CreateOrderedSrcProps.

Module SearchProps.
Import Js Ast Walks DoesDescendantMatchCondition DescendantProps.

Section WithTree.
Variable a : ast.
Variable condition : handle → bool.

Lemma find_app {A : Type} (p : A → bool) (l1 l2 : list A) :
  List.find p (l1 ++ l2)
  = match List.find p l1 with
    | Some x => Some x
    | None => List.find p l2
    end.
Proof.
  induction l1 as [|x l1 IH]; [done |]. cbn. by destruct (p x).
Qed.

(** An answer [true] comes with a node below the stack that meets the
    condition. *)
Lemma search_true_sound fuel :
  ∀ stack,
    search fuel a condition false stack = Ret RTrue →
    ∃ n d, n ∈ stack ∧ reaches a n d ∧ condition d = true.
Proof.
  induction fuel as [|fuel IH]; intros [|top stack] H; try discriminate.
  rewrite search_step in H. destruct (condition top) eqn:Hc.
  - exists top, top. split; [by left |]. split; [constructor | done].
  - destruct (IH _ H) as (n & d & Hin & Hr & Hd).
    apply elem_of_app in Hin as [Hin | Hin].
    + exists top, d. split; [by left |]. split; [| done].
      by apply (reaches_child a top n d).
    + exists n, d. split; [by right | done].
Qed.

(** The search with [returnNode], started on a node of a finite tree on top
    of a stack whose search ends with [R]: it ends with the first node of
    the walk that meets the condition, and with [R] if there is none. *)
Lemma search_preorder depth :
  ∀ n stack R,
    shallower a depth n = true →
    (∃ fuel0, ∀ fuel, fuel0 ≤ fuel →
       search fuel a condition true stack = Ret R) →
    ∃ fuel0, ∀ fuel, fuel0 ≤ fuel →
      search fuel a condition true (n :: stack)
      = Ret (match List.find condition (preorder a depth n) with
             | Some d => RNode d
             | None => R
             end).
Proof.
  induction depth as [|depth IH]; intros n stack R Hs Hrest; [discriminate |].
  cbn in Hs. rewrite forallb_forall in Hs. cbn [preorder List.find].
  destruct (condition n) eqn:Hc.
  { exists 1. intros [|fuel] Hle; [lia |]. by rewrite search_step, Hc. }
  assert (∃ fuel0, ∀ fuel, fuel0 ≤ fuel →
            search fuel a condition true (childNodes (a n) ++ stack)
            = Ret (match List.find condition
                           (flat_map (preorder a depth) (childNodes (a n))) with
                   | Some d => RNode d
                   | None => R
                   end)) as [fuel0 Hfuel].
  { induction (childNodes (a n)) as [|c cs IHcs]; [exact Hrest |].
    cbn [flat_map app]. rewrite find_app.
    destruct (IH c (cs ++ stack)
                (match List.find condition (flat_map (preorder a depth) cs) with
                 | Some d => RNode d
                 | None => R
                 end)) as [fuel0 Hfuel].
    - apply Hs. by left.
    - apply IHcs. intros x Hx. apply Hs. by right.
    - exists fuel0. intros fuel Hle. rewrite (Hfuel fuel Hle).
      by destruct (List.find condition (preorder a depth c)). }
  exists (S fuel0). intros [|fuel] Hle; [lia |].
  rewrite search_step, Hc. apply Hfuel. lia.
Qed.

(** X1. On a finite tree the search comes to an end, and its answer without
    [returnNode] is [true] exactly when the target or a node below it meets
    the condition. *)
Theorem doesDescendantMatchCondition_decides depth t :
  shallower a depth t = true →
  ∃ fuel0 r,
    (∀ fuel, fuel0 ≤ fuel →
       doesDescendantMatchCondition fuel a (Some t) (Some condition) false = Ret r)
    ∧ (r = RTrue ↔ ∃ d, reaches a t d ∧ condition d = true)
    ∧ (r = RFalse ↔ ∀ d, reaches a t d → condition d = false).
Proof.
  intros Hs.
  destruct (halts_push a condition false depth t [] Hs) as [fuel0 [r Hr]].
  { exists 0, RFalse. done. }
  exists fuel0, r. split.
  { intros fuel Hle. cbn. by apply (search_mono a condition false fuel0). }
  destruct (search_boolean a condition _ _ _ Hr) as [-> | ->].
  - pose proof (search_false_sound a condition _ _ _ Hr) as Hno. split.
    + split; [discriminate |]. intros (d & Hd & Hc).
      rewrite (Hno t d) in Hc; [discriminate | by left | done].
    + split; [| done]. intros _ d Hd. apply (Hno t d); [by left | done].
  - destruct (search_true_sound _ _ Hr) as (n & d & Hin & Hd & Hc).
    apply list_elem_of_singleton in Hin as ->. split.
    + split; [| done]. intros _. by exists d.
    + split; [discriminate |]. intros Hno. rewrite (Hno d Hd) in Hc. discriminate.
Qed.

(** X2. With [returnNode], the node returned on a finite tree is the first
    node that meets the condition in the order of a walk that starts at the
    target, goes down first and takes the children from left to right; the
    answer is [false] when no node meets it. *)
Theorem doesDescendantMatchCondition_returns_first depth t :
  shallower a depth t = true →
  ∃ fuel0, ∀ fuel, fuel0 ≤ fuel →
    doesDescendantMatchCondition fuel a (Some t) (Some condition) true
    = Ret (match List.find condition (preorder a depth t) with
           | Some d => RNode d
           | None => RFalse
           end).
Proof.
  intros Hs. apply (search_preorder depth t [] RFalse Hs).
  exists 0. intros fuel _. apply search_empty.
Qed.

End WithTree.

(** In [function a() {return 1;} a();] the declaration holds a literal, the
    call does not. *)
Lemma doesDescendantMatchCondition_decides_witness :
  ∃ fuel0 r,
    (∀ fuel, fuel0 ≤ fuel →
       doesDescendantMatchCondition fuel Fixtures.localCallScript (Some 1)
         (Some (λ n, typeIs Fixtures.localCallScript n "Literal")) false = Ret r)
    ∧ (r = RTrue ↔ ∃ d, reaches Fixtures.localCallScript 1 d
                        ∧ typeIs Fixtures.localCallScript d "Literal" = true)
    ∧ (r = RFalse ↔ ∀ d, reaches Fixtures.localCallScript 1 d
                         → typeIs Fixtures.localCallScript d "Literal" = false).
Proof.
  apply (doesDescendantMatchCondition_decides Fixtures.localCallScript
           (λ n, typeIs Fixtures.localCallScript n "Literal") 5 1).
  reflexivity.
Defined.

(** The first identifier below the whole script is the name of the
    declaration. *)
Lemma doesDescendantMatchCondition_returns_first_witness :
  ∃ fuel0, ∀ fuel, fuel0 ≤ fuel →
    doesDescendantMatchCondition fuel Fixtures.localCallScript (Some 0)
      (Some (λ n, typeIs Fixtures.localCallScript n "Identifier")) true
    = Ret (RNode 2).
Proof.
  apply (doesDescendantMatchCondition_returns_first Fixtures.localCallScript
           (λ n, typeIs Fixtures.localCallScript n "Identifier") 6 0).
  reflexivity.
Defined.

End SearchProps.

Module GetDescendantsProps.
Import Js Ast Walks GetDescendants.

Section WithTree.
Variable a : ast.

Local Abbreviation inv := (inv a).

Lemma reaches_descends t x c :
  reaches a t x → c ∈ childNodes (a x) → descends a t c.
Proof.
  induction 1 as [n | n c' d Hc' _ IH]; intros Hc.
  - exists c. split; [done | constructor].
  - destruct (IH Hc) as (c0 & Hc0 & Hr). exists c'. split; [done |].
    by apply (reaches_child a c' c0 c).
Qed.

Lemma descends_reaches t d : descends a t d → reaches a t d.
Proof. intros (c & Hc & Hr). by apply (reaches_child a t c d). Qed.

(** What the [for] loop over the children leaves in the set and on the
    stack. *)
Lemma visit_fold cs :
  ∀ descendants stack,
    let acc := foldl visit (descendants, stack) cs in
    (∀ x, x ∈ fst acc ↔ x ∈ descendants ∨ x ∈ cs)
    ∧ (∀ x, x ∈ snd acc ↔ x ∈ stack ∨ (x ∈ cs ∧ x ∉ descendants))
    ∧ (NoDup descendants → NoDup (fst acc))
    ∧ ∃ pushed, snd acc = pushed ++ stack ∧ ∀ x, x ∈ pushed → x ∈ cs.
Proof.
  induction cs as [|c cs IH]; intros descendants stack; cbn zeta.
  { cbn. split; [| split; [| split]].
    - intros x. rewrite elem_of_nil. tauto.
    - intros x. rewrite elem_of_nil. tauto.
    - done.
    - exists []. split; [done |]. intros x Hx. by apply elem_of_nil in Hx. }
  cbn [foldl]. destruct (decide (c ∈ descendants)) as [Hin | Hin].
  - assert (visit (descendants, stack) c = (descendants, stack)) as ->.
    { unfold visit. cbn. by rewrite bool_decide_eq_true_2. }
    destruct (IH descendants stack) as (H1 & H2 & H3 & pushed & H4 & H5).
    split; [| split; [| split]].
    + intros x. rewrite H1, elem_of_cons. split; [tauto |].
      intros [H | [-> | H]]; tauto.
    + intros x. rewrite H2, elem_of_cons. split; [tauto |].
      intros [H | [[-> | H] Hn]]; tauto.
    + exact H3.
    + exists pushed. split; [done |]. intros x Hx. right. by apply H5.
  - assert (visit (descendants, stack) c = (descendants ++ [c], c :: stack)) as ->.
    { unfold visit. cbn. by rewrite bool_decide_eq_false_2. }
    destruct (IH (descendants ++ [c]) (c :: stack)) as (H1 & H2 & H3 & pushed & H4 & H5).
    split; [| split; [| split]].
    + intros x. rewrite H1, elem_of_app, list_elem_of_singleton, elem_of_cons. tauto.
    + intros x. rewrite H2, elem_of_app, list_elem_of_singleton, !elem_of_cons.
      split.
      * intros [[-> | H] | [H Hn]]; [right | left | right]; try tauto.
      * intros [H | [[-> | H] Hn]]; [tauto | tauto |].
        destruct (decide (x = c)) as [-> | Hne]; [tauto |]. right. tauto.
    + intros Hnd. apply H3. apply NoDup_app. split; [done |].
      split; [| apply NoDup_singleton].
      intros x Hx Hc. apply list_elem_of_singleton in Hc as ->. done.
    + exists (pushed ++ [c]). split.
      * by rewrite H4, <- app_assoc.
      * intros x Hx. apply elem_of_app in Hx as [Hx | Hx].
        -- right. by apply H5.
        -- apply list_elem_of_singleton in Hx as ->. by left.
Qed.

Lemma walk_step fuel n stack descendants :
  walk (S fuel) a (n :: stack) descendants
  = walk fuel a (snd (foldl visit (descendants, stack) (childNodes (a n))))
      (fst (foldl visit (descendants, stack) (childNodes (a n)))).
Proof. done. Qed.

Lemma walk_mono fuel :
  ∀ stack descendants r fuel',
    walk fuel a stack descendants = Ret r → fuel ≤ fuel' →
    walk fuel' a stack descendants = Ret r.
Proof.
  induction fuel as [|fuel IH]; intros [|n stack] descendants r fuel' H Hle.
  - by destruct fuel'.
  - discriminate.
  - by destruct fuel'.
  - destruct fuel' as [|fuel']; [lia |]. rewrite walk_step in *.
    apply (IH _ _ _ _ H). lia.
Qed.

Lemma inv_start t : inv t [t] [].
Proof.
  split.
  - intros x Hx. apply list_elem_of_singleton in Hx as ->. constructor.
  - intros d Hd. by apply elem_of_nil in Hd.
  - constructor.
  - intros x [-> | Hx]; [left; by left | by apply elem_of_nil in Hx].
Qed.

Lemma inv_step t n stack descendants :
  inv t (n :: stack) descendants →
  inv t (snd (foldl visit (descendants, stack) (childNodes (a n))))
    (fst (foldl visit (descendants, stack) (childNodes (a n)))).
Proof.
  intros [I1 I2 I3 I4].
  destruct (visit_fold (childNodes (a n)) descendants stack) as (H1 & H2 & H3 & _).
  cbn zeta in *. split.
  - intros x Hx. apply H2 in Hx as [Hx | [Hx _]].
    + apply I1. by right.
    + apply descends_reaches. apply (reaches_descends t n x); [| done].
      apply I1. by left.
  - intros d Hd. apply H1 in Hd as [Hd | Hd]; [by apply I2 |].
    apply (reaches_descends t n d); [| done]. apply I1. by left.
  - by apply H3.
  - intros x Hx. destruct (decide (x = n)) as [-> | Hne].
    { right. intros c Hc. apply H1. by right. }
    assert (x = t ∨ x ∈ descendants ∨ (x ∈ childNodes (a n) ∧ x ∉ descendants))
      as [Hx' | [Hx' | Hx']].
    { destruct Hx as [Hx | Hx]; [by left |]. apply H1 in Hx as [Hx | Hx]; [tauto |].
      destruct (decide (x ∈ descendants)); tauto. }
    + destruct (I4 x (or_introl Hx')) as [Hs | Hs].
      * left. apply H2. left. apply elem_of_cons in Hs as [Hs | Hs]; [done | done].
      * right. intros c Hc. apply H1. left. by apply Hs.
    + destruct (I4 x (or_intror Hx')) as [Hs | Hs].
      * left. apply H2. left. apply elem_of_cons in Hs as [Hs | Hs]; [done | done].
      * right. intros c Hc. apply H1. left. by apply Hs.
    + left. apply H2. by right.
Qed.

Lemma walk_inv t fuel :
  ∀ stack descendants r,
    walk fuel a stack descendants = Ret r →
    inv t stack descendants → inv t [] r.
Proof.
  induction fuel as [|fuel IH]; intros [|n stack] descendants r H Hinv;
    try discriminate.
  - by injection H as <-.
  - by injection H as <-.
  - rewrite walk_step in H. apply (IH _ _ _ H). by apply inv_step.
Qed.

(** When the walk is over, the set holds everything below [t]. *)
Lemma inv_complete t r d : inv t [] r → descends a t d → d ∈ r.
Proof.
  intros [_ _ _ I4] (c & Hc & Hr).
  assert (c ∈ r) as Hcr.
  { destruct (I4 t (or_introl eq_refl)) as [Hs | Hs];
      [by apply elem_of_nil in Hs | by apply Hs]. }
  clear Hc. induction Hr as [n | n c' d Hc' _ IH]; [done |].
  apply IH. destruct (I4 n (or_intror Hcr)) as [Hs | Hs];
    [by apply elem_of_nil in Hs | by apply Hs].
Qed.

(** On a finite tree the walk comes to an end. *)
Lemma walk_halts depth :
  ∀ n stack descendants,
    shallower a depth n = true →
    (∀ descendants', ∃ fuel r, walk fuel a stack descendants' = Ret r) →
    ∃ fuel r, walk fuel a (n :: stack) descendants = Ret r.
Proof.
  induction depth as [|depth IH]; intros n stack descendants Hs Hrest;
    [discriminate |].
  cbn in Hs. rewrite forallb_forall in Hs.
  destruct (visit_fold (childNodes (a n)) descendants stack)
    as (_ & _ & _ & pushed & Hp & Hsub).
  cbn zeta in Hp.
  assert (∀ descendants', ∃ fuel r,
            walk fuel a (pushed ++ stack) descendants' = Ret r) as Hall.
  { assert (∀ x, x ∈ pushed → shallower a depth x = true) as Hsh.
    { intros x Hx. apply Hs, list_elem_of_In, Hsub, Hx. }
    clear Hp Hsub. induction pushed as [|c cs IHcs]; [exact Hrest |].
    intros descendants'. cbn. apply IH.
    - apply Hsh. by left.
    - apply IHcs. intros x Hx. apply Hsh. by right. }
  destruct (Hall (fst (foldl visit (descendants, stack) (childNodes (a n)))))
    as (fuel & r & Hr).
  exists (S fuel), r. by rewrite walk_step, Hp.
Qed.

(** X3. On a finite tree, a call that finds no array on the node comes to
    an end and returns the nodes below the target, each of them once and the
    target not among them unless it is below itself; it leaves the array on
    the node. A missing target gives the empty array. *)
Theorem getDescendants_exact depth t cached :
  shallower a depth t = true →
  cached !! t = None →
  ∃ fuel0 descendants,
    (∀ fuel, fuel0 ≤ fuel →
       getDescendants fuel a (Some t) cached
       = (Ret descendants, <[t := descendants]> cached))
    ∧ NoDup descendants
    ∧ (∀ d, d ∈ descendants ↔ descends a t d)
    ∧ (∀ fuel, getDescendants fuel a None cached = (Ret [], cached)).
Proof.
  intros Hs Hmiss.
  destruct (walk_halts depth t [] [] Hs) as (fuel0 & r & Hr).
  { intros descendants'. exists 0, descendants'. done. }
  pose proof (walk_inv t _ _ _ _ Hr (inv_start t)) as Hinv.
  exists fuel0, r. split; [| split; [| split]].
  - intros fuel Hle. unfold getDescendants. rewrite Hmiss.
    by rewrite (walk_mono _ _ _ _ _ Hr Hle).
  - apply Hinv.
  - intros d. split; [apply Hinv | apply (inv_complete t r d Hinv)].
  - done.
Qed.

End WithTree.

(** X4. The array computed by a call stays on the node: every later call on
    the node returns it without looking at the tree, whatever the tree has
    become since. *)
Theorem getDescendants_cached a fuel t cached descendants :
  fst (getDescendants fuel a (Some t) cached) = Ret descendants →
  ∀ a' fuel',
    getDescendants fuel' a' (Some t) (snd (getDescendants fuel a (Some t) cached))
    = (Ret descendants, snd (getDescendants fuel a (Some t) cached)).
Proof.
  unfold getDescendants. intros H a' fuel'.
  destruct (cached !! t) as [l|] eqn:Hc.
  - cbn in *. rewrite Hc. congruence.
  - destruct (walk fuel a [t] []) as [l| |]; cbn in *; [| discriminate ..].
    rewrite lookup_insert_eq. congruence.
Qed.

(** The nodes below the declaration of [function a() {return 1;}]. *)
Lemma getDescendants_exact_witness :
  ∃ fuel0 descendants,
    (∀ fuel, fuel0 ≤ fuel →
       getDescendants fuel Fixtures.localCallScript (Some 1) ∅
       = (Ret descendants, <[1 := descendants]> ∅))
    ∧ NoDup descendants
    ∧ (∀ d, d ∈ descendants ↔ descends Fixtures.localCallScript 1 d)
    ∧ (∀ fuel, getDescendants fuel Fixtures.localCallScript None ∅ = (Ret [], ∅)).
Proof.
  apply (getDescendants_exact Fixtures.localCallScript 5 1 ∅); reflexivity.
Defined.

(** The array of the declaration, computed on the script and asked for again
    once the script is another one. *)
Lemma getDescendants_cached_witness :
  fst (getDescendants 1 Fixtures.callScript (Some 1)
         (snd (getDescendants 10 Fixtures.localCallScript (Some 1) ∅)))
  = Ret [2; 3; 4; 5].
Proof.
  exact (f_equal fst
           (getDescendants_cached Fixtures.localCallScript 10 1 ∅ [2; 3; 4; 5]
              eq_refl Fixtures.callScript 1)).
Defined.

(** On the call [a(a.b)] of [antiDebugScript]: the children first, then
    what is below them; and an identifier has nothing below it, as in the
    test TN-1 of the repository. *)
Example getDescendants_tests :
  fst (getDescendants 10 Fixtures.antiDebugScript (Some 19) ∅) = Ret [20; 21; 22; 23]
  ∧ fst (getDescendants 10 Fixtures.antiDebugScript (Some 20) ∅) = Ret [].
Proof. vm_compute. done. Qed.

End GetDescendantsProps.

Module MemberChainProps.
Import Js Ast Walks GetMainDeclaredObjectOfMemberExpression GetCalleeName.

Section WithObjects.
Variable a : ast.
Variable object : handle → option handle.

Local Abbreviation climbObjects := (climbObjects a object).
Local Abbreviation objectAt := (objectAt object).
Local Abbreviation undeclaredMember := (undeclaredMember a).
Local Abbreviation getMainDeclaredObjectOfMemberExpression :=
  (getMainDeclaredObjectOfMemberExpression a object).
Local Abbreviation baseObject := (baseObject object).
Local Abbreviation endsChain := (endsChain object).
Local Abbreviation getCalleeName := (getCalleeName a object).

Lemma climbObjects_step remaining m :
  climbObjects remaining (Some m)
  = if undeclaredMember m
    then match remaining with
         | 0 => Some m
         | S remaining' => climbObjects remaining' (object m)
         end
    else Some m.
Proof. by destruct remaining. Qed.

Lemma climbObjects_none remaining : climbObjects remaining None = None.
Proof. by destruct remaining. Qed.

Lemma climbObjects_sound remaining :
  ∀ m r,
    climbObjects remaining (Some m) = Some r →
    ∃ k, k ≤ remaining
         ∧ objectAt k m = Some r
         ∧ (∀ j x, j < k → objectAt j m = Some x → undeclaredMember x = true)
         ∧ (k < remaining → undeclaredMember r = false).
Proof.
  induction remaining as [|remaining IH]; intros m r H;
    rewrite climbObjects_step in H.
  - exists 0. assert (r = m) as -> by (destruct (undeclaredMember m); congruence).
    split; [lia |]. split; [done |]. split; intros; lia.
  - destruct (undeclaredMember m) eqn:Hm.
    + destruct (object m) as [o|] eqn:Ho;
        [| by rewrite climbObjects_none in H].
      destruct (IH o r H) as (k & Hk & Hat & Hbefore & Hlast).
      exists (S k). split; [lia |]. split; [by cbn; rewrite Ho |].
      split; [| intros; apply Hlast; lia].
      intros [|j] x Hj Hx; cbn in Hx.
      * by injection Hx as <-.
      * rewrite Ho in Hx. apply (Hbefore j x); [lia | done].
    + injection H as <-. exists 0. split; [lia |]. split; [done |].
      split; [intros; lia | done].
Qed.

Lemma climbObjects_complete remaining :
  ∀ m k r,
    k ≤ remaining →
    objectAt k m = Some r →
    (∀ j x, j < k → objectAt j m = Some x → undeclaredMember x = true) →
    (k < remaining → undeclaredMember r = false) →
    climbObjects remaining (Some m) = Some r.
Proof.
  induction remaining as [|remaining IH]; intros m k r Hk Hat Hbefore Hlast;
    rewrite climbObjects_step.
  - assert (k = 0) as -> by lia. injection Hat as <-.
    by destruct (undeclaredMember m).
  - destruct k as [|k].
    + injection Hat as <-. rewrite Hlast; [done | lia].
    + rewrite (Hbefore 0 m); [| lia | done].
      cbn in Hat. destruct (object m) as [o|] eqn:Ho; [| discriminate].
      apply (IH o k r); [lia | done | | intros; apply Hlast; lia].
      intros j x Hj Hx. apply (Hbefore (S j) x); [lia |]. by cbn; rewrite Ho.
Qed.

(** X5. The node returned for a node [m] lies on the chain of [object]
    fields that starts at [m], at most [MAX_ITERATIONS] steps away; every
    node before it on the chain is a member expression without declaration;
    and unless it lies exactly [MAX_ITERATIONS] steps away, it has a
    declaration or is not a member expression. A missing argument gives
    [null]. *)
Theorem getMainDeclaredObjectOfMemberExpression_sound m r :
  getMainDeclaredObjectOfMemberExpression (Some m) = Some r →
  (∃ k, k ≤ MAX_ITERATIONS
        ∧ objectAt k m = Some r
        ∧ (∀ j x, j < k → objectAt j m = Some x → undeclaredMember x = true)
        ∧ (k < MAX_ITERATIONS → undeclaredMember r = false))
  ∧ getMainDeclaredObjectOfMemberExpression None = None.
Proof.
  intros H. split; [| done]. by apply climbObjects_sound.
Qed.

(** X6. The first node of the chain that has a declaration or is not a
    member expression is returned when it is fewer than [MAX_ITERATIONS]
    steps away; when the first [MAX_ITERATIONS] nodes of the chain are member
    expressions without declaration, the node returned is the one after
    them, whatever it is. *)
Theorem getMainDeclaredObjectOfMemberExpression_complete m k r :
  k ≤ MAX_ITERATIONS →
  objectAt k m = Some r →
  (∀ j x, j < k → objectAt j m = Some x → undeclaredMember x = true) →
  (k < MAX_ITERATIONS → undeclaredMember r = false) →
  getMainDeclaredObjectOfMemberExpression (Some m) = Some r.
Proof. apply climbObjects_complete. Qed.

Lemma baseObject_ends m b :
  endsChain m b →
  ∃ fuel0, ∀ fuel, fuel0 ≤ fuel → baseObject fuel m = Ret b.
Proof.
  induction 1 as [m Hm | m o b Ho _ [fuel0 IH]].
  - exists 0. intros [|fuel] _; cbn; by rewrite Hm.
  - exists (S fuel0). intros [|fuel] Hle; [lia |]. cbn. rewrite Ho.
    apply IH. lia.
Qed.

(** X7. For a call whose callee is a member expression with a chain of
    [object] fields that ends, the loop comes to an end and the name
    returned is decided by the last node of the chain alone: its name when
    it is an identifier, the empty string otherwise. A call without callee,
    and a missing call, give the empty string. *)
Theorem getCalleeName_of_member c f b :
  callee (a c) = Some f →
  typeIs a f "MemberExpression" = true →
  endsChain f b →
  (∃ fuel0, ∀ fuel, fuel0 ≤ fuel →
     getCalleeName fuel (Some c)
     = Ret (if typeIs a b "Identifier" then name (a b) else Some ""))
  ∧ (∀ fuel c', callee (a c') = None → getCalleeName fuel (Some c') = Ret (Some ""))
  ∧ (∀ fuel, getCalleeName fuel None = Ret (Some "")).
Proof.
  intros Hf Hty Hb. split; [| split].
  - destruct (baseObject_ends f b Hb) as [fuel0 H].
    exists fuel0. intros fuel Hle. unfold GetCalleeName.getCalleeName. cbn.
    rewrite Hf. cbn.
    assert (typeIs a f "Identifier" = false) as ->.
    { unfold typeIs in *. apply bool_decide_eq_true in Hty.
      apply bool_decide_eq_false. by rewrite Hty. }
    rewrite Hty, (H fuel Hle). cbn. by destruct (typeIs a b "Identifier").
  - intros fuel c' Hc. unfold GetCalleeName.getCalleeName. cbn. by rewrite Hc.
  - done.
Qed.

End WithObjects.

Section Runs.
Import ChainScripts.

(** In [a.b.c();] the chain of [a.b.c] ends at the identifier [a], which
    has no declaration. *)
Lemma getMainDeclaredObjectOfMemberExpression_sound_witness :
  ∃ k, k ≤ MAX_ITERATIONS
       ∧ objectAt memberCallObject k 3 = Some 5
       ∧ (∀ j x, j < k → objectAt memberCallObject j 3 = Some x
                 → undeclaredMember memberCall x = true)
       ∧ (k < MAX_ITERATIONS → undeclaredMember memberCall 5 = false).
Proof.
  exact (proj1 (getMainDeclaredObjectOfMemberExpression_sound
                  memberCall memberCallObject 3 5 eq_refl)).
Defined.

Lemma objectAt_knot k : objectAt knotObject k 0 = Some 0.
Proof. induction k as [|k IH]; [done | exact IH]. Qed.

(** On a member expression that is its own [object], the loop gives up
    after [MAX_ITERATIONS] rounds and returns the member expression. *)
Lemma getMainDeclaredObjectOfMemberExpression_complete_witness :
  getMainDeclaredObjectOfMemberExpression knot knotObject (Some 0) = Some 0.
Proof.
  apply (getMainDeclaredObjectOfMemberExpression_complete
           knot knotObject 0 MAX_ITERATIONS 0).
  - lia.
  - reflexivity.
  - intros j x Hj Hx. rewrite objectAt_knot in Hx. injection Hx as <-. reflexivity.
  - unfold MAX_ITERATIONS. lia.
Defined.

Lemma getCalleeName_of_member_witness :
  ∃ fuel0, ∀ fuel, fuel0 ≤ fuel →
    getCalleeName memberCall memberCallObject fuel (Some 2) = Ret (Some "a").
Proof.
  refine (proj1 (getCalleeName_of_member memberCall memberCallObject 2 3 5 _ _ _)).
  - reflexivity.
  - reflexivity.
  - apply (chain_step _ 3 4 5); [reflexivity |].
    apply (chain_step _ 4 5 5); [reflexivity |].
    by apply chain_end.
Defined.

(** The results expected by the tests TP-1 and TP-3 of getCalleeName and by
    the test TP-2 of getMainDeclaredObjectOfMemberExpression. *)
Example memberChain_tests :
  getCalleeName Fixtures.callScript (λ _, None) 5 (Some 2) = Ret (Some "f")
  ∧ getCalleeName memberCall memberCallObject 5 (Some 2) = Ret (Some "a")
  ∧ getMainDeclaredObjectOfMemberExpression memberCall memberCallObject (Some 3)
    = Some 5.
Proof. vm_compute. done. Qed.

End Runs.

End MemberChainProps.

Module ParentChainProps.
Import Js Ast Walks AreReferencesModified AugmentedArray.

Section WithTree.
Variable a : ast.

Lemma ancestor_inv n q :
  ancestor a n q →
  ∃ p, parentNode (a n) = Some p ∧ (q = p ∨ ancestor a p q).
Proof.
  intros [n' p Hp | n' p q' Hp Hq]; exists p; tauto.
Qed.

Lemma ancestor_trans x y z : ancestor a x y → ancestor a y z → ancestor a x z.
Proof.
  induction 1 as [x y Hxy | x p y Hxp _ IH]; intros Hyz.
  - by apply (ancestor_further a x y).
  - apply (ancestor_further a x p); [done |]. by apply IH.
Qed.

(** An ancestor is closer to the root. *)
Lemma rooted_ancestor x y :
  ancestor a x y → ∀ depth, rooted a depth x = true →
  ∃ depth', depth' < depth ∧ rooted a depth' y = true.
Proof.
  induction 1 as [x y Hxy | x p y Hxp _ IH]; intros [|depth] Hr;
    try discriminate; cbn in Hr; rewrite ?Hxy, ?Hxp in Hr.
  - exists depth. split; [lia | done].
  - destruct (IH depth Hr) as (depth' & Hlt & Hy). exists depth'. split; [lia | done].
Qed.

Lemma rooted_acyclic depth : ∀ x, rooted a depth x = true → ¬ ancestor a x x.
Proof.
  induction depth as [depth IH] using lt_wf_ind. intros x Hr Hxx.
  destruct (rooted_ancestor x x Hxx depth Hr) as (depth' & Hlt & Hr').
  by apply (IH depth' Hlt x).
Qed.

(** X8. For a reference from which finitely many steps through [parentNode]
    lead to the root, [isInDestructuringPattern] comes to an end and answers
    [true] exactly when the parent of the reference, or the parent of its
    parent, and so on, is an object pattern or an array pattern. *)
Theorem isInDestructuringPattern_ancestor depth :
  ∀ ref,
    rooted a depth ref = true →
    ∃ b,
      (∀ fuel, depth ≤ fuel → isInDestructuringPattern fuel a ref = Ret b)
      ∧ (b = true ↔ ∃ p, ancestor a ref p
                         ∧ includes PATTERN_TYPES (type (a p)) = true).
Proof.
  induction depth as [|depth IH]; intros ref Hr; [discriminate |].
  cbn in Hr. destruct (parentNode (a ref)) as [p|] eqn:Hp.
  - destruct (includes PATTERN_TYPES (type (a p))) eqn:Hpat.
    + exists true. split.
      * intros [|fuel] _; cbn; by rewrite Hp, Hpat.
      * split; [| done]. intros _. exists p. split; [by constructor | done].
    + destruct (IH p Hr) as (b & Hb & Hiff). exists b. split.
      * intros [|fuel] Hle; [lia |]. cbn. rewrite Hp, Hpat. apply Hb. lia.
      * rewrite Hiff. split.
        -- intros (q & Hq & Hty). exists q. split; [| done].
           by apply (ancestor_further a ref p q).
        -- intros (q & Hq & Hty). exists q. split; [| done].
           apply ancestor_inv in Hq as (p' & Hp' & [-> | Hq]).
           ++ assert (p' = p) as -> by congruence. congruence.
           ++ assert (p' = p) as -> by congruence. done.
  - exists false. split.
    + intros [|fuel] _; cbn; by rewrite Hp.
    + split; [discriminate |]. intros (q & Hq & _).
      apply ancestor_inv in Hq as (p' & Hp' & _). congruence.
Qed.

Lemma targetStatement_step fuel n :
  targetStatement fuel a n
  = if stops a n then Ret n
    else match parentNode (a n) with
         | None => Throw
         | Some p =>
             match fuel with
             | 0 => OutOfFuel
             | S fuel' => targetStatement fuel' a p
             end
         end.
Proof.
  unfold stops. destruct fuel; cbn;
    destruct (typeIs a n "ExpressionStatement"); cbn; try done;
    destruct (parentNode (a n)) as [p|]; try done;
    by destruct (typeIs a p "SequenceExpression").
Qed.

(** X11. The loop that [augmentedArrayTransform] runs from the call [n] up
    to the statement that holds it never leaves [targetNode] empty. For a
    call from which finitely many steps through [parentNode] lead to the
    root, it returns [n] or the nearest node above [n] that is an expression
    statement or whose parent is a sequence expression; when there is no
    such node, reading the type of the missing parent of the root throws. *)
Theorem targetStatement_found_or_throws depth :
  ∀ n fuel,
    rooted a depth n = true →
    depth ≤ fuel →
    (∃ t, targetStatement fuel a n = Ret t
          ∧ stops a t = true
          ∧ (t = n ∨ (ancestor a n t ∧ stops a n = false
                      ∧ ∀ p, ancestor a n p → ancestor a p t → stops a p = false)))
    ∨ (targetStatement fuel a n = Throw
       ∧ stops a n = false
       ∧ ∀ p, ancestor a n p → stops a p = false).
Proof.
  induction depth as [|depth IH]; intros n fuel Hr Hle; [discriminate |].
  cbn in Hr. rewrite targetStatement_step.
  destruct (stops a n) eqn:Hn.
  { left. exists n. tauto. }
  destruct (parentNode (a n)) as [p|] eqn:Hp.
  - destruct fuel as [|fuel]; [lia |].
    destruct (IH p fuel Hr) as [(t & Ht & Hst & Hwhere) | (Ht & Hsp & Hall)]; [lia | |].
    + left. exists t. split; [done |]. split; [done |]. right.
      destruct Hwhere as [-> | (Hanc & Hsp & Hbetween)].
      * split; [by constructor |]. split; [done |].
        intros q Hq Hqp. apply ancestor_inv in Hq as (p' & Hp' & Hq).
        assert (p' = p) as -> by congruence.
        exfalso. apply (rooted_acyclic depth p Hr).
        destruct Hq as [-> | Hq]; [done | by apply (ancestor_trans p q p)].
      * split; [by apply (ancestor_further a n p t) |]. split; [done |].
        intros q Hq Hqt. apply ancestor_inv in Hq as (p' & Hp' & Hq).
        assert (p' = p) as -> by congruence.
        destruct Hq as [-> | Hq]; [done | by apply Hbetween].
    + right. split; [done |]. split; [done |].
      intros q Hq. apply ancestor_inv in Hq as (p' & Hp' & Hq).
      assert (p' = p) as -> by congruence.
      destruct Hq as [-> | Hq]; [done | by apply Hall].
  - right. split; [done |]. split; [done |].
    intros q Hq. apply ancestor_inv in Hq as (p' & Hp' & _). congruence.
Qed.

End WithTree.

Section Runs.
Import ChainScripts.

(** In [[x] = y;] the identifier [x] is an element of an array pattern. *)
Lemma isInDestructuringPattern_ancestor_witness :
  ∃ b,
    (∀ fuel, 5 ≤ fuel → isInDestructuringPattern fuel patternScript 4 = Ret b)
    ∧ (b = true ↔ ∃ p, ancestor patternScript 4 p
                       ∧ includes PATTERN_TYPES (type (patternScript p)) = true).
Proof.
  apply (isInDestructuringPattern_ancestor patternScript 5 4). reflexivity.
Defined.

(** The call of [var x = f();] is not part of an expression statement. *)
Lemma targetStatement_found_or_throws_witness :
  (∃ t, targetStatement 4 initScript 4 = Ret t
        ∧ stops initScript t = true
        ∧ (t = 4 ∨ (ancestor initScript 4 t ∧ stops initScript 4 = false
                    ∧ ∀ p, ancestor initScript 4 p → ancestor initScript p t
                           → stops initScript p = false)))
  ∨ (targetStatement 4 initScript 4 = Throw
     ∧ stops initScript 4 = false
     ∧ ∀ p, ancestor initScript 4 p → stops initScript p = false).
Proof.
  apply (targetStatement_found_or_throws initScript 4 4 4); [reflexivity | lia].
Defined.

(** The loop on the call of [f();], and on the call of [var x = f();]. *)
Example targetStatement_runs :
  targetStatement 5 Fixtures.callScript 2 = Ret 1
  ∧ targetStatement 5 initScript 4 = Throw
  ∧ isInDestructuringPattern 5 patternScript 4 = Ret true
  ∧ isInDestructuringPattern 5 patternScript 5 = Ret false.
Proof. vm_compute. done. Qed.

End Runs.

End ParentChainProps.

Module GenerateHashProps.
Import Js JsString GenerateHashAll.

Local Open Scope Z_scope.

Lemma toInt32_range z : -2147483648 ≤ toInt32 z < 2147483648.
Proof.
  unfold toInt32.
  pose proof (Z.mod_pos_bound (z + 2147483648) 4294967296 eq_refl). lia.
Qed.

Lemma toInt32_decomp z : ∃ k, toInt32 z = z + k * 4294967296.
Proof.
  exists (- ((z + 2147483648) / 4294967296)). unfold toInt32.
  pose proof (Z.div_mod (z + 2147483648) 4294967296). lia.
Qed.

Lemma toInt32_add z k : toInt32 (z + k * 4294967296) = toInt32 z.
Proof.
  unfold toInt32.
  replace (z + k * 4294967296 + 2147483648) with (z + 2147483648 + k * 4294967296)
    by lia.
  by rewrite Z.mod_add.
Qed.

Lemma toInt32_small z : -2147483648 ≤ z < 2147483648 → toInt32 z = z.
Proof.
  intros Hz. unfold toInt32. rewrite Z.mod_small; lia.
Qed.

Lemma toInt32_idem z : toInt32 (toInt32 z) = toInt32 z.
Proof. apply toInt32_small, toInt32_range. Qed.

(** One round of the loop: the shift, the subtraction and the mask amount to
    a multiplication by 31 followed by the reduction to 32 bits. *)
Lemma hashLoop_round hash c :
  bitAnd (shiftLeft hash 5 - hash + c) 4294967295 = toInt32 (31 * hash + c).
Proof.
  unfold bitAnd, shiftLeft.
  change (toInt32 4294967295) with (-1). rewrite Z.land_m1_r.
  rewrite Z.shiftl_mul_pow2 by lia. change (2 ^ 5) with 32.
  destruct (toInt32_decomp hash) as [k ->].
  destruct (toInt32_decomp ((hash + k * 4294967296) * 32)) as [k' ->].
  replace ((hash + k * 4294967296) * 32 + k' * 4294967296 - hash + c)
    with (31 * hash + c + (32 * k + k') * 4294967296) by lia.
  apply toInt32_add.
Qed.

Lemma polynomial_congruent str :
  ∀ h h', toInt32 h = toInt32 h' →
    toInt32 (polynomial str h) = toInt32 (polynomial str h').
Proof.
  induction str as [|c rest IH]; intros h h' Heq; [done |].
  cbn. apply IH.
  destruct (toInt32_decomp h) as [k Hk]. destruct (toInt32_decomp h') as [k' Hk'].
  replace (31 * h + charCodeAt c)
    with (31 * toInt32 h + charCodeAt c + (- 31 * k) * 4294967296) by lia.
  replace (31 * h' + charCodeAt c)
    with (31 * toInt32 h' + charCodeAt c + (- 31 * k') * 4294967296) by lia.
  by rewrite !toInt32_add, Heq.
Qed.

Lemma hashLoop_polynomial str :
  ∀ hash, toInt32 hash = hash →
    hashLoop str hash = toInt32 (polynomial str hash).
Proof.
  induction str as [|c rest IH]; intros hash Hh; [done |].
  cbn. rewrite hashLoop_round, IH by apply toInt32_idem.
  apply polynomial_congruent, toInt32_idem.
Qed.

(** X12. The loop of the fallback computes the polynomial hash with
    multiplier 31 over the character codes, reduced once to a signed 32-bit
    integer: reducing in every round changes nothing. The number printed
    after [fallback-] is therefore at most 2^31. *)
Theorem fallback_hash_is_polynomial str :
  hashLoop str 0 = toInt32 (polynomial str 0)
  ∧ 0 ≤ Z.abs (hashLoop str 0) ≤ 2147483648.
Proof.
  assert (hashLoop str 0 = toInt32 (polynomial str 0)) as H
    by by apply hashLoop_polynomial.
  split; [done |]. rewrite H.
  pose proof (toInt32_range (polynomial str 0)). lia.
Qed.

Local Close Scope Z_scope.

(** An object with a [src] property that holds a text gets the hash of that
    text, whether the digest is available or the fallback is taken. When the
    digest is available, a string gets its digest, and [null] and [undefined]
    get the fixed text: on these inputs the function is the one used for the
    cache keys above. *)
Lemma generateHash_of_node md5 s text :
  generateHash md5 (Object (Holds s) text) = generateHash md5 (Text s)
  ∧ (∀ digest, generateHash (λ x, Some (digest x)) (Text s)
               = GenerateHash.generateHash digest (AStr s))
  ∧ (∀ digest, generateHash md5 Nullish = GenerateHash.generateHash digest ANull).
Proof. done. Qed.

(** The fallback keys of the empty text and of [a], and the hexadecimal
    digits. *)
Example fallbackHash_runs :
  fallbackHash (Text "") = "fallback-0"
  ∧ fallbackHash (Text "a") = "fallback-61"
  ∧ fallbackHash (Text "ab") = "fallback-c21"
  ∧ toString16 2147483648 = "80000000"
  ∧ toInt32 4294967295 = (-1)%Z
  ∧ generateHash (λ _, None) (Object IsNull "[object Object]")
    = fallbackHash (Text "[object Object]").
Proof. vm_compute. done. Qed.

End GenerateHashProps.

Module GetObjTypeProps.
Import GetObjType.

Lemma length_append (s1 s2 : string) :
  String.length (s1 +:+ s2) = String.length s1 + String.length s2.
Proof.
  induction s1 as [|c s1 IH]; [done |].
  change (String.length (String c s1 +:+ s2)) with (S (String.length (s1 +:+ s2))).
  by rewrite IH.
Qed.

Lemma substring_skip (s1 s2 : string) n :
  String.substring (String.length s1) n (s1 +:+ s2) = String.substring 0 n s2.
Proof.
  induction s1 as [|c s1 IH]; [done |].
  change (String.substring (String.length (String c s1)) n (String c s1 +:+ s2))
    with (String.substring (String.length s1) n (s1 +:+ s2)).
  exact IH.
Qed.

Lemma substring_prefix (s1 s2 : string) :
  String.substring 0 (String.length s1) (s1 +:+ s2) = s1.
Proof.
  induction s1 as [|c s1 IH].
  - change ("" +:+ s2) with s2. by destruct s2.
  - change (String.substring 0 (String.length (String c s1)) (String c s1 +:+ s2))
      with (String c (String.substring 0 (String.length s1) (s1 +:+ s2))).
    by rewrite IH.
Qed.

(** X13. [slice(8, -1)] cuts exactly the class name out of the text
    [[object Name]], whatever the name: [getObjType] returns the name. *)
Theorem getObjType_of_tag tag : getObjType (objectToString tag) = tag.
Proof.
  unfold getObjType, slice, objectToString.
  rewrite !length_append.
  change (String.length "[object ") with 8. change (String.length "]") with 1.
  cbn [Z.ltb Z.compare].
  replace (Z.to_nat (Z.min 8 (Z.of_nat (8 + (String.length tag + 1))))) with 8 by lia.
  replace (Z.to_nat
             (Z.max (Z.max (Z.of_nat (8 + (String.length tag + 1)) + -1) 0
                     - Z.min 8 (Z.of_nat (8 + (String.length tag + 1)))) 0))
    with (String.length tag) by lia.
  change 8 with (String.length "[object ") at 1.
  rewrite substring_skip. apply substring_prefix.
Qed.

Example getObjType_runs :
  getObjType "[object Array]" = "Array"
  ∧ getObjType "[object Null]" = "Null"
  ∧ getObjType (objectToString "") = "".
Proof. vm_compute. done. Qed.

End GetObjTypeProps.

Module CacheIsolationProps.
Import Js GetCache GetCacheProps.

Section WithValue.
Context {V : Type}.
Implicit Types (st : state V) (id : strArg) (r : ref).

(** Writes through a handle leave every other object as it is. *)
Lemma run_writes_elsewhere r (writes : list (string * V)) :
  ∀ st r',
    r' ≠ r →
    mapping r' (run ((λ kv, Write r kv.1 kv.2) <$> writes) st) = mapping r' st.
Proof.
  induction writes as [|[k v] writes IH]; intros st r' Hne; [done |].
  rewrite fmap_cons. cbn [fst snd].
  change (run (Write r k v :: ((λ kv, Write r kv.1 kv.2) <$> writes)) st)
    with (run ((λ kv, Write r kv.1 kv.2) <$> writes) (write r k v st)).
  rewrite (IH _ _ Hne). unfold mapping, write. cbn.
  by rewrite lookup_alter_ne.
Qed.

Lemma writes_keep id r (writes : list (string * V)) :
  Forall (keepsIdentity id) ((λ kv, Write r kv.1 kv.2) <$> writes).
Proof. induction writes as [|[k v] writes IH]; by constructor. Qed.

(** X14. Once a call under another identity has replaced the cache, the
    object of the first identity is out of reach of [getCache]: whatever is
    written through the handle that a client kept, the cache of the second
    identity stays empty and stays the object that [getCache] returns. The
    replacement itself leaves the entries of the first object readable
    through the handle that was kept. *)
Theorem getCache_isolates st id1 id2 (ops1 : list (op V))
    (writes : list (string * V)) :
  wf st →
  Forall (keepsIdentity id1) ops1 →
  nullish id1 "no-hash" ≠ nullish id2 "no-hash" →
  let r1 := fst (getCache id1 st) in
  let s1 := run ops1 (snd (getCache id1 st)) in
  let r2 := fst (getCache id2 s1) in
  let s2 := snd (getCache id2 s1) in
  let s3 := run ((λ kv, Write r1 kv.1 kv.2) <$> writes) s2 in
  mapping r2 s3 = Some ∅
  ∧ getCache id2 s3 = (r2, s3)
  ∧ ∀ k, read r1 k s2 = read r1 k s1.
Proof.
  intros Hwf Hops1 Hne. cbn zeta.
  pose proof (getCache_owner id1 st) as Hown1.
  destruct (run_keeps id1 ops1 _ Hops1 Hown1) as [Hown1' Hc1].
  set (s1 := run ops1 (snd (getCache id1 st))) in *.
  assert (wf s1) as [Hlive1 Hlt1] by apply wf_run, wf_getCache, Hwf.
  assert (CACHE s1 = fst (getCache id1 st)) as Hr1.
  { rewrite Hc1. unfold getCache. done. }
  assert (RELEVANT_SCRIPT_HASH s1 ≠ Some (nullish id2 "no-hash")) as Hmiss
    by congruence.
  rewrite (getCache_miss id2 s1 Hmiss). cbn [fst snd]. rewrite <- Hr1.
  set (s2 := resetCache (setHash (nullish id2 "no-hash") s1)).
  assert (next s1 ≠ CACHE s1) as Hfresh by (unfold ref in *; lia).
  split; [| split].
  - rewrite (run_writes_elsewhere _ _ _ _ Hfresh). unfold mapping. cbn.
    apply lookup_insert_eq.
  - destruct (run_keeps id2 _ s2 (writes_keep id2 (CACHE s1) writes) eq_refl)
      as [Hown3 Hc3].
    rewrite (getCache_hit id2 _ Hown3). by rewrite Hc3.
  - intros k. unfold read. cbn. rewrite lookup_insert_ne by done. done.
Qed.

End WithValue.

(** A client keeps the handle of script [a] and writes through it after the
    cache went over to script [b]. *)
Lemma getCache_isolates_witness :
  let r1 := fst (getCache (AStr "a") (@init nat)) in
  let s1 := run [Write r1 "x" 1] (snd (getCache (AStr "a") init)) in
  let r2 := fst (getCache (AStr "b") s1) in
  let s2 := snd (getCache (AStr "b") s1) in
  let s3 := run ((λ kv, Write r1 kv.1 kv.2) <$> [("y", 2)]) s2 in
  mapping r2 s3 = Some ∅
  ∧ getCache (AStr "b") s3 = (r2, s3)
  ∧ ∀ k, read r1 k s2 = read r1 k s1.
Proof.
  apply (getCache_isolates init (AStr "a") (AStr "b") [Write 1 "x" 1] [("y", 2)]).
  - apply wf_init.
  - repeat constructor.
  - discriminate.
Defined.

End CacheIsolationProps.

Module ContextResultProps.
Import Js Ast GetCache GenerateHash DoesDescendantMatchCondition.
Import GetDeclarationWithContext GetCacheProps DescendantProps ContextProps.

Section WithEnvironment.
Variable md5 : string → string.
Variable isNodeInRanges : node → list (Z * Z) → bool.
Variable PROPERTIES_THAT_MODIFY_CONTENT : list string.
Variable a : ast.

Local Abbreviation collect :=
  (collect isNodeInRanges PROPERTIES_THAT_MODIFY_CONTENT a).
Local Abbreviation postProcess := (postProcess isNodeInRanges a).
Local Abbreviation filterCollected := (filterCollected isNodeInRanges a).
Local Abbreviation getDeclarationWithContext :=
  (getDeclarationWithContext md5 isNodeInRanges PROPERTIES_THAT_MODIFY_CONTENT a).
Local Abbreviation passes := (passes isNodeInRanges a).
Local Abbreviation removeRedundantNodes := (removeRedundantNodes a).

(** Whatever the loop collects was visited, found free of marks, and has one
    of the types to collect. *)
Lemma collect_keeps (P : handle → Prop) budget :
  (∀ n, touchesMarked a budget n = Ret false →
        includes TYPES_TO_COLLECT (type (a n)) = true → P n) →
  ∀ fuel stack collected visitedNodes collectedRanges res,
    collect budget fuel stack collected visitedNodes collectedRanges = Ret res →
    Forall P collected → Forall P res.
Proof.
  intros HP. induction fuel as [|fuel IH];
    intros [|n stack] collected visitedNodes collectedRanges res H Hall;
    try discriminate; try (cbn in H; by injection H as <-).
  cbn -[touchesMarked relatives visitTarget foldOutcome] in H.
  destruct (bool_decide (n ∈ visitedNodes)); [by apply (IH _ _ _ _ _ H) |].
  destruct (touchesMarked a budget n) as [[|]| |] eqn:Hm;
    cbn -[relatives visitTarget foldOutcome] in H; try discriminate.
  { injection H as <-. constructor. }
  destruct (relatives PROPERTIES_THAT_MODIFY_CONTENT a budget n) as [more| |];
    cbn -[visitTarget foldOutcome] in H; try discriminate.
  destruct (foldOutcome (visitTarget a (visitedNodes ++ [n])) stack (Some n :: more))
    as [stack''| |]; cbn in H; try discriminate.
  apply (IH _ _ _ _ _ H).
  destruct (includes TYPES_TO_COLLECT (type (a n))
            && negb (isNodeInRanges (a n) collectedRanges)) eqn:Htake; [| done].
  apply Forall_app. split; [done |]. constructor; [| constructor].
  apply HP; [done |]. by apply andb_true_iff in Htake as [Hty _].
Qed.

(** What a call that misses the cache returns. *)
Lemma miss_result fuel o excludeOriginNode st res :
  lookupCached md5 a (fst (getCache (scriptHash (a o)) st)) o
    (snd (getCache (scriptHash (a o)) st)) = None →
  fst (getDeclarationWithContext fuel (Some o) excludeOriginNode st) = Ret res →
  ∃ collected,
    collect fuel fuel [o] [] [] [] = Ret collected
    ∧ res = postProcess o excludeOriginNode collected.
Proof.
  intros Hmiss Hres.
  unfold GetDeclarationWithContext.getDeclarationWithContext in Hres.
  destruct (getCache (scriptHash (a o)) st) as [cache st1] eqn:Hg.
  cbn [fst snd] in *. rewrite Hmiss in Hres.
  destruct (collect fuel fuel [o] [] [] []) as [collected| |]; cbn in Hres;
    [| discriminate | discriminate].
  exists collected. split; [done | congruence].
Qed.

Lemma filterCollected_NoDup o excludeOriginNode collected :
  ∀ filteredNodes,
    NoDup filteredNodes →
    NoDup (filterCollected o excludeOriginNode collected filteredNodes).
Proof.
  induction collected as [|n rest IH]; intros acc Hacc; [done |].
  cbn. apply IH.
  destruct (bool_decide (n ∈ acc)) eqn:Hin; [done |]. cbn.
  destruct (includes IRRELEVANT_FILTER_TYPES (type (a n))
            || excludeOriginNode && isNodeInRanges (a n) [range (a o)]);
    [done |].
  destruct (survivesOverwriteRule a n); [| done].
  apply bool_decide_eq_false in Hin.
  apply NoDup_app. split; [done |]. split; [| apply NoDup_singleton].
  intros x Hx Hn. apply list_elem_of_singleton in Hn as ->. done.
Qed.

Lemma removeRedundantNodes_spec nodes n :
  n ∈ removeRedundantNodes nodes
  ↔ n ∈ nodes
    ∧ ∀ m, m ∈ nodes → m ≠ n →
        ¬ (start (a m) ≤ start (a n) ∧ end_ (a n) ≤ end_ (a m))%Z.
Proof.
  unfold GetDeclarationWithContext.removeRedundantNodes.
  rewrite list_elem_of_In, filter_In, <- list_elem_of_In, negb_true_iff.
  split; intros [Hin H]; (split; [done |]).
  - intros m Hm Hne [Hs He].
    assert (existsb (λ n0, negb (bool_decide (n0 = n))
                           && (start (a n0) <=? start (a n))%Z
                           && (end_ (a n0) >=? end_ (a n))%Z) nodes = true)
      as Habs; [| congruence].
    apply existsb_exists. exists m. split; [by apply list_elem_of_In |].
    rewrite bool_decide_eq_false_2 by done. cbn.
    apply andb_true_iff. split; [by apply Z.leb_le | apply Z.geb_le; lia].
  - destruct (existsb _ nodes) eqn:Hex; [| done]. exfalso.
    apply existsb_exists in Hex as (m & Hm & Hc).
    apply andb_true_iff in Hc as [Hc He]. apply andb_true_iff in Hc as [Hne Hs].
    apply negb_true_iff, bool_decide_eq_false in Hne.
    apply (H m); [by apply list_elem_of_In | done |].
    split; [by apply Z.leb_le | apply Z.geb_le in He; lia].
Qed.

(** X15. The nodes returned by a call that misses the cache: each of them
    occurs once, has one of the six types to collect, has passed the filter
    (it is not in the range of the origin when the origin is excluded, and it
    is not a declaration that is only overwritten), and no returned node lies
    within the range of another returned node. *)
Theorem getDeclarationWithContext_result_shape fuel o excludeOriginNode st res :
  lookupCached md5 a (fst (getCache (scriptHash (a o)) st)) o
    (snd (getCache (scriptHash (a o)) st)) = None →
  fst (getDeclarationWithContext fuel (Some o) excludeOriginNode st) = Ret res →
  NoDup res
  ∧ (∀ n, n ∈ res →
       includes TYPES_TO_COLLECT (type (a n)) = true
       ∧ passes o excludeOriginNode n = true)
  ∧ (∀ n m, n ∈ res → m ∈ res → m ≠ n →
       ¬ (start (a m) ≤ start (a n) ∧ end_ (a n) ≤ end_ (a m))%Z).
Proof.
  intros Hmiss Hres.
  destruct (miss_result _ _ _ _ _ Hmiss Hres) as (collected & Hc & ->).
  unfold GetDeclarationWithContext.postProcess. split; [| split].
  - unfold GetDeclarationWithContext.removeRedundantNodes.
    apply NoDup_ListNoDup, List.NoDup_filter, NoDup_ListNoDup.
    apply filterCollected_NoDup. constructor.
  - intros n Hn. apply removeRedundantNodes_spec in Hn as [Hn _].
    apply filterCollected_spec in Hn as [Hn | [Hn Hp]];
      [by apply elem_of_nil in Hn |].
    split; [| done].
    pose proof (collect_keeps
                  (λ n, includes TYPES_TO_COLLECT (type (a n)) = true) fuel
                  (λ _ _ H, H) fuel _ _ _ _ _ Hc (Forall_nil_2 _)) as Hall.
    rewrite Forall_forall in Hall. by apply Hall.
  - intros n m Hn Hm Hne. apply removeRedundantNodes_spec in Hn as [_ Hn].
    apply Hn; [| done]. by apply removeRedundantNodes_subset in Hm.
Qed.

(** X16. No node returned by a call that misses the cache is marked or has
    a marked node below it. *)
Theorem getDeclarationWithContext_unmarked fuel o excludeOriginNode st res :
  lookupCached md5 a (fst (getCache (scriptHash (a o)) st)) o
    (snd (getCache (scriptHash (a o)) st)) = None →
  fst (getDeclarationWithContext fuel (Some o) excludeOriginNode st) = Ret res →
  ∀ n, n ∈ res →
    isMarked (a n) = false ∧ ∀ d, reaches a n d → isMarked (a d) = false.
Proof.
  intros Hmiss Hres n Hn.
  destruct (miss_result _ _ _ _ _ Hmiss Hres) as (collected & Hc & ->).
  apply removeRedundantNodes_subset in Hn.
  apply filterCollected_spec in Hn as [Hn | [Hn _]];
    [by apply elem_of_nil in Hn |].
  pose proof (collect_keeps (λ n, touchesMarked a fuel n = Ret false) fuel
                (λ _ H _, H) fuel _ _ _ _ _ Hc (Forall_nil_2 _)) as Hall.
  rewrite Forall_forall in Hall. specialize (Hall n Hn).
  unfold touchesMarked in Hall.
  destruct (isMarked (a n)) eqn:Hm; [discriminate |]. split; [done |].
  cbn in Hall.
  destruct (search fuel a (λ n0, isMarked (a n0)) false [n]) as [r| |] eqn:Hs;
    cbn in Hall; try discriminate.
  destruct r; try discriminate.
  intros d Hd.
  apply (search_false_sound a (λ n0, isMarked (a n0)) _ _ _ Hs n d); [by left | done].
Qed.

(** X18. Removing the redundant nodes a second time removes nothing more;
    and of two different nodes with the same range, neither is kept. *)
Theorem removeRedundantNodes_idempotent nodes :
  removeRedundantNodes (removeRedundantNodes nodes) = removeRedundantNodes nodes
  ∧ (∀ n m, n ∈ nodes → m ∈ nodes → n ≠ m → range (a n) = range (a m) →
       (n ∉ removeRedundantNodes nodes) ∧ (m ∉ removeRedundantNodes nodes)).
Proof.
  split.
  - assert (∀ (f : handle → bool) l, (∀ x, x ∈ l → f x = true) → List.filter f l = l)
      as Hall.
    { intros f l. induction l as [|x l IH]; intros H; [done |].
      cbn. rewrite (H x) by by left. f_equal. apply IH. intros y Hy. apply H. by right. }
    unfold GetDeclarationWithContext.removeRedundantNodes at 1. apply Hall.
    intros x Hx. apply negb_true_iff.
    destruct (existsb _ (removeRedundantNodes nodes)) eqn:Hex; [| done]. exfalso.
    apply existsb_exists in Hex as (m & Hm & Hc).
    apply andb_true_iff in Hc as [Hc He]. apply andb_true_iff in Hc as [Hne Hs].
    apply negb_true_iff, bool_decide_eq_false in Hne.
    apply removeRedundantNodes_spec in Hx as [_ Hx].
    apply (Hx m); [| done |].
    + apply list_elem_of_In in Hm. by apply (removeRedundantNodes_subset a nodes).
    + split; [by apply Z.leb_le | apply Z.geb_le in He; lia].
  - intros n m Hn Hm Hne Hrange. unfold start, end_ in *.
    split; intros Hin; apply removeRedundantNodes_spec in Hin as [_ Hin].
    + apply (Hin m Hm); [done |]. unfold start, end_. rewrite Hrange. lia.
    + apply (Hin n Hn); [done |]. unfold start, end_. rewrite Hrange. lia.
Qed.

End WithEnvironment.


Section Runs.
Import Fixtures.

Local Abbreviation collector :=
  (getDeclarationWithContext md5 isNodeInRanges PROPERTIES_THAT_MODIFY_CONTENT).

(** The context of the call in [function a() {return 1;} a();]. *)
Lemma getDeclarationWithContext_result_shape_witness :
  NoDup [7; 1]
  ∧ (∀ n, n ∈ [7; 1] →
       includes TYPES_TO_COLLECT (type (localCallScript n)) = true
       ∧ passes isNodeInRanges localCallScript 7 false n = true)
  ∧ (∀ n m, n ∈ [7; 1] → m ∈ [7; 1] → m ≠ n →
       ¬ (start (localCallScript m) ≤ start (localCallScript n)
          ∧ end_ (localCallScript n) ≤ end_ (localCallScript m))%Z).
Proof.
  apply (getDeclarationWithContext_result_shape md5 isNodeInRanges
           PROPERTIES_THAT_MODIFY_CONTENT localCallScript 20 7 false init [7; 1]);
    reflexivity.
Defined.

Lemma getDeclarationWithContext_unmarked_witness :
  isMarked (localCallScript 1) = false
  ∧ ∀ d, reaches localCallScript 1 d → isMarked (localCallScript d) = false.
Proof.
  apply (getDeclarationWithContext_unmarked md5 isNodeInRanges
           PROPERTIES_THAT_MODIFY_CONTENT localCallScript 20 7 false init [7; 1]);
    [reflexivity | reflexivity | right; by left].
Defined.


(** In [f();] the script and its only statement have the same range. *)
Lemma removeRedundantNodes_idempotent_witness :
  (0 ∉ removeRedundantNodes callScript [0; 1; 2])
  ∧ (1 ∉ removeRedundantNodes callScript [0; 1; 2]).
Proof.
  apply (proj2 (removeRedundantNodes_idempotent callScript [0; 1; 2]) 0 1).
  - by left.
  - right. by left.
  - discriminate.
  - reflexivity.
Defined.

End Runs.

End ContextResultProps.

Module CreateNewNodeShapeProps.
Import Js Ast JsString CreateNewNode CreateNewNodeProps.

Section WithParser.
Context {N : Type}.
Variable parseCode : string → option (list N).

Local Abbreviation createNewNode := (createNewNode parseCode).
Local Abbreviation convertElements := (convertElements parseCode).
Local Abbreviation convertEntries := (convertEntries parseCode).

Lemma convertElements_map elements :
  convertElements elements
  = if forallb (λ v, negb (isBad (createNewNode v))) elements
    then Ret (createNewNode <$> elements)
    else Throw.
Proof.
  induction elements as [|v l IH]; [done |].
  cbn. destruct (isBad (createNewNode v)); [done |]. cbn. rewrite IH.
  by destruct (forallb _ l).
Qed.

Lemma convertEntries_map entries :
  convertEntries entries
  = if forallb (λ kv, negb (isBad (createNewNode kv.2))) entries
    then Ret ((λ kv, (fromText kv.1, createNewNode kv.2)) <$> entries)
    else Throw.
Proof.
  induction entries as [|[k v] l IH]; [done |].
  cbn. rewrite fromText_not_bad. cbn.
  destruct (isBad (createNewNode v)); [done |]. cbn. rewrite IH.
  by destruct (forallb _ l).
Qed.

(** X19. An array converts exactly when each of its elements converts, and
    then to the array expression of the converted elements, in their order;
    an object converts exactly when each of its property values converts,
    and then to the object expression whose properties pair the converted
    key with the converted value, in the order of the entries. *)
Theorem createNewNode_elementwise elements entries :
  createNewNode (VArray elements)
  = (if forallb (λ v, negb (isBad (createNewNode v))) elements
     then ArrayExpression (createNewNode <$> elements)
     else BAD_VALUE)
  ∧ createNewNode (VObject entries)
    = (if forallb (λ kv, negb (isBad (createNewNode kv.2))) entries
       then ObjectExpression
              ((λ kv, (createNewNode (VString kv.1), createNewNode kv.2)) <$> entries)
       else BAD_VALUE).
Proof.
  rewrite createNewNode_array, createNewNode_object.
  rewrite convertElements_map, convertEntries_map.
  split; by destruct (forallb _ _).
Qed.

Lemma digit_is_no_sign c :
  isDigit c = true →
  bool_decide (c ∈ ["-"; "+"; "!"]%char) = false
  ∧ c ≠ "I"%char ∧ c ≠ "N"%char.
Proof.
  destruct c as [[] [] [] [] [] [] [] []]; cbn; intros H; try discriminate;
    (split; [by apply bool_decide_eq_false; rewrite !elem_of_cons, elem_of_nil;
               intros [|[|[|]]]
            | split; discriminate]).
Qed.

(** The node of a text that starts with a digit is a literal that holds the
    text. *)
Lemma fromText_digits c rest :
  isDigit c = true →
  @fromText N (String c rest) = plainLiteral (PString (String c rest)) (String c rest).
Proof.
  intros Hd. destruct (digit_is_no_sign c Hd) as (Hsign & HI & HN).
  cbn [fromText]. unfold literalOrUnary. cbn [firstChar]. rewrite Hsign. cbn [andb].
  assert (includes ["Infinity"; "NaN"] (String c rest) = false) as ->; [| done].
  unfold includes. apply bool_decide_eq_false.
  rewrite !elem_of_cons, elem_of_nil. intros [H | [H | []]]; congruence.
Qed.

(** X20. A number whose text is a minus sign followed by text that starts
    with a digit, and of which [parseInt] makes a number, is converted to
    the unary minus applied to a literal whose value is that text, a string;
    the string with the text of the number is converted to the same node. *)
Theorem createNewNode_negative n c rest :
  numberToString n = String "-" (String c rest) →
  isDigit c = true →
  parseIntIsNaN (String c rest) = false →
  createNewNode (VNumber n)
  = UnaryExpression "-" (plainLiteral (PString (String c rest)) (String c rest))
  ∧ createNewNode (VString (numberToString n)) = createNewNode (VNumber n).
Proof.
  intros Htext Hd Hnum.
  assert (∀ value negativeZero,
            literalOrUnary (@fromText N (String c rest)) value
              (String "-" (String c rest)) negativeZero
            = UnaryExpression "-"
                (plainLiteral (PString (String c rest)) (String c rest))) as H.
  { intros value negativeZero. unfold literalOrUnary.
    cbn [firstChar substring1 String.length].
    rewrite Hnum, (fromText_digits c rest Hd). done. }
  cbn [CreateNewNode.createNewNode]. unfold fromNumber. rewrite Htext.
  cbn [substring1 fromText]. by rewrite !H.
Qed.

End WithParser.

(** [parseInt] skips a no-break space: the text [-] followed by it and a
    digit is converted to a unary minus. *)
Example createNewNode_no_break_space :
  parseIntIsNaN (NBSP +:+ "5") = false
  ∧ @CreateNewNode.createNewNode nat (λ _, None) (VString ("-" +:+ NBSP +:+ "5"))
    = UnaryExpression "-" (plainLiteral (PString (NBSP +:+ "5")) (NBSP +:+ "5")).
Proof. vm_compute. done. Qed.

Lemma createNewNode_negative_witness :
  @CreateNewNode.createNewNode nat (λ _, None) (VNumber (Number "-3" false))
  = UnaryExpression "-" (plainLiteral (PString "3") "3")
  ∧ @CreateNewNode.createNewNode nat (λ _, None) (VString "-3")
    = @CreateNewNode.createNewNode nat (λ _, None) (VNumber (Number "-3" false)).
Proof.
  apply (createNewNode_negative (λ _, None) (Number "-3" false) "3" "");
    reflexivity.
Defined.

End CreateNewNodeShapeProps.

Module EvalInVmCacheProps.
Import Js Ast JsString Regex Occurrence GenerateHash CreateNewNode Sandbox EvalInVm.
Import EvalInVmProps.

Section WithEnvironment.
Context {N Ctx : Type}.
Variable md5 : string → string.
Variable parseCode : string → option (list N).
Variable keysOfNode : N → list string.
Variable consoleKeys : list string.
Variable createContextSync : nat → Ctx.
Variable setGlobalSelf : Ctx → Ctx.
Variable setUndefined : Ctx → string → Ctx.
Variable runSync : nat → Ctx → string → runResult N * Ctx.

Local Abbreviation evalInVm :=
  (evalInVm md5 parseCode keysOfNode consoleKeys createContextSync
     setGlobalSelf setUndefined runSync).
Local Abbreviation attempt :=
  (attempt parseCode keysOfNode consoleKeys createContextSync
     setGlobalSelf setUndefined runSync).
Local Abbreviation cacheName := (cacheName md5).
Local Abbreviation newSandbox :=
  (newSandbox createContextSync setGlobalSelf setUndefined).
Local Abbreviation executed :=
  (executed createContextSync setGlobalSelf setUndefined runSync).
Local Abbreviation evalAll :=
  (evalAll md5 parseCode keysOfNode consoleKeys createContextSync
     setGlobalSelf setUndefined runSync).

Implicit Types (CACHE : gmap string (evaluated N)) (sb : option (sandbox Ctx)).

Lemma evalInVm_size stringToEval sb CACHE :
  size CACHE ≤ MAX_CACHE_SIZE →
  size (cacheOf (evalInVm stringToEval sb CACHE)) ≤ MAX_CACHE_SIZE.
Proof.
  intros Hsize.
  destruct (CACHE !! cacheName stringToEval) as [cached|] eqn:Hc.
  { by rewrite (evalInVm_hit _ _ _ _ _ _ _ _ _ _ _ _ Hc). }
  destruct (evalInVm_miss_cache md5 parseCode keysOfNode consoleKeys
              createContextSync setGlobalSelf setUndefined runSync
              stringToEval sb CACHE Hc) as (result & _ & ->).
  destruct (MAX_CACHE_SIZE <=? size CACHE) eqn:Hfull.
  - rewrite map_size_insert_None by apply lookup_empty.
    rewrite map_size_empty. unfold MAX_CACHE_SIZE. lia.
  - apply Nat.leb_gt in Hfull. rewrite map_size_insert_None by done. lia.
Qed.

(** X21. The cache never holds more than [MAX_CACHE_SIZE] entries: a call
    on a cache within the bound leaves a cache within the bound, and so does
    every run of calls. A call that misses a full cache forgets all of it:
    the cache it leaves holds the entry of its own text and nothing else. *)
Theorem evalInVm_cache_bounded stringToEval sb CACHE :
  size CACHE ≤ MAX_CACHE_SIZE →
  size (cacheOf (evalInVm stringToEval sb CACHE)) ≤ MAX_CACHE_SIZE
  ∧ (∀ texts, size (evalAll texts CACHE) ≤ MAX_CACHE_SIZE)
  ∧ (CACHE !! cacheName stringToEval = None →
     size CACHE = MAX_CACHE_SIZE →
     ∃ result,
       valueOf (evalInVm stringToEval sb CACHE) = Ret result
       ∧ cacheOf (evalInVm stringToEval sb CACHE)
         = {[ cacheName stringToEval := result ]}).
Proof.
  intros Hsize. split; [by apply evalInVm_size |]. split.
  - intros texts. revert CACHE Hsize.
    induction texts as [|t texts IH]; intros CACHE Hsize; [done |].
    cbn. apply IH. by apply evalInVm_size.
  - intros Hmiss Hfull.
    destruct (evalInVm_miss_cache md5 parseCode keysOfNode consoleKeys
                createContextSync setGlobalSelf setUndefined runSync
                stringToEval sb CACHE Hmiss) as (result & Hv & Hc).
    exists result. split; [done |]. rewrite Hc, Hfull. done.
Qed.

(** X22. When the value of the script cannot be used, the call returns
    [BAD_VALUE]: the reference is one to a promise, or copying the value out
    of the sandbox throws, or the value is [null] or [undefined], of which
    [Object.keys] throws. *)
Theorem evalInVm_unusable_value stringToEval sb CACHE r :
  CACHE !! cacheName stringToEval = None →
  executed stringToEval sb = Returned r →
  referenceType r = "Promise"
  ∨ copySync r = None
  ∨ copySync r = Some VNull
  ∨ copySync r = Some VUndefined →
  valueOf (evalInVm stringToEval sb CACHE) = Ret (Created BAD_VALUE).
Proof.
  intros Hmiss Hrun Hcase.
  rewrite (proj1 (evalInVm_miss _ _ _ _ _ _ _ _ _ _ _ Hmiss)).
  rewrite attempt_run, Hrun. cbn [isReference andb].
  destruct (includes BAD_TYPES (referenceType r)) eqn:Hbad; [done |].
  destruct Hcase as [Hp | [Hc | [Hc | Hc]]].
  - rewrite Hp in Hbad. discriminate.
  - cbn. by rewrite Hc.
  - cbn. by rewrite Hc.
  - cbn. by rewrite Hc.
Qed.

Lemma sort_permutation (l1 l2 : list string) : l1 ≡ₚ l2 → sort l1 = sort l2.
Proof.
  intros Hp. unfold sort.
  apply (Sorted_unique String.le); try apply Sorted_merge_sort; try apply _.
  by rewrite !merge_sort_Permutation.
Qed.

Lemma sort_sorted (l : list string) : Sorted String.le l → sort l = l.
Proof.
  intros Hs. unfold sort.
  apply (Sorted_unique String.le); [apply Sorted_merge_sort; apply _ | done |].
  apply merge_sort_Permutation.
Qed.

(** X23. A value whose own keys are the keys of the host's [console], in
    any order, or those keys without the first one in sorted order, is
    taken for [console]: the call returns the identifier [console], whatever
    the value is and whatever its properties hold. *)
Theorem evalInVm_console_keys stringToEval sb CACHE r value keys :
  CACHE !! cacheName stringToEval = None →
  executed stringToEval sb = Returned r →
  referenceType r ≠ "Promise" →
  copySync r = Some value →
  objectKeys keysOfNode value = Some keys →
  keys ≡ₚ consoleKeys ∨ keys ≡ₚ tail (sort consoleKeys) →
  valueOf (evalInVm stringToEval sb CACHE) = Ret (Created (Identifier "console")).
Proof.
  intros Hmiss Hrun Hty Hcopy Hkeys Hperm.
  rewrite (proj1 (evalInVm_miss _ _ _ _ _ _ _ _ _ _ _ Hmiss)).
  rewrite attempt_run, Hrun. cbn [isReference andb].
  assert (includes BAD_TYPES (referenceType r) = false) as ->.
  { unfold includes, BAD_TYPES. apply bool_decide_eq_false.
    by rewrite list_elem_of_singleton. }
  cbn [negb]. rewrite Hcopy, Hkeys. unfold MATCHING_OBJECT_KEYS.
  assert (join (sort keys) = join (sort consoleKeys)
          ∨ join (sort keys) = join (tail (sort consoleKeys))) as Hjoin.
  { destruct Hperm as [Hp | Hp].
    - left. by rewrite (sort_permutation _ _ Hp).
    - right. rewrite (sort_permutation _ _ Hp). f_equal. apply sort_sorted.
      assert (Sorted String.le (sort consoleKeys)) as Hs
        by (apply Sorted_merge_sort; apply _).
      destruct (sort consoleKeys); [done |]. by apply Sorted_inv in Hs as [Hs _]. }
  destruct Hjoin as [-> | ->].
  - by rewrite bool_decide_eq_true_2.
  - rewrite (bool_decide_eq_true_2 (_ = join (tail _))) by done.
    by rewrite orb_true_r.
Qed.

Lemma replaceFrom_absent r replaceWith fuel :
  ∀ s, String.length s < fuel → occurs r s = false →
    replaceFrom fuel r replaceWith s = s.
Proof.
  induction fuel as [|fuel IH]; intros s Hlen Hocc; [lia |].
  cbn. destruct s as [|c s']; cbn in Hocc.
  - by destruct (matchPrefix r "").
  - destruct (matchPrefix r (String c s')); [discriminate |].
    rewrite IH; [done | cbn in Hlen; lia | done].
Qed.


End WithEnvironment.

Section Runs.
Import Fixtures ToyEngine.

Local Abbreviation evaluate :=
  (evalInVm md5 parseCode keysOfNode consoleKeys createContextSync
     setGlobalSelf setUndefined).

Lemma evalInVm_cache_bounded_witness :
  size (cacheOf (evaluate ToyEngine.runSync "5 + 3 * 2" None ∅)) ≤ MAX_CACHE_SIZE.
Proof.
  refine (proj1 (evalInVm_cache_bounded md5 parseCode keysOfNode consoleKeys
                   createContextSync setGlobalSelf setUndefined ToyEngine.runSync
                   "5 + 3 * 2" None ∅ _)).
  vm_compute. lia.
Defined.

(** The script [null] yields [null]; the call returns [BAD_VALUE]. *)
Lemma evalInVm_unusable_value_witness :
  valueOf (evaluate ValueEngine.runSync "null" None ∅) = Ret (Created BAD_VALUE).
Proof.
  apply (evalInVm_unusable_value md5 parseCode keysOfNode consoleKeys
           createContextSync setGlobalSelf setUndefined ValueEngine.runSync
           "null" None ∅ {| referenceType := "Object"; copySync := Some VNull |}).
  - reflexivity.
  - reflexivity.
  - right. right. left. reflexivity.
Defined.

(** An object with the keys of [console] in the reverse order. *)
Lemma evalInVm_console_keys_witness :
  valueOf (evaluate ValueEngine.runSync "console" None ∅)
  = Ret (Created (Identifier "console")).
Proof.
  apply (evalInVm_console_keys md5 parseCode keysOfNode consoleKeys
           createContextSync setGlobalSelf setUndefined ValueEngine.runSync
           "console" None ∅
           {| referenceType := "Object";
              copySync := Some (VOther "console" (reverse consoleKeys)) |}
           (VOther "console" (reverse consoleKeys)) (reverse consoleKeys)).
  - reflexivity.
  - reflexivity.
  - discriminate.
  - reflexivity.
  - reflexivity.
  - left. apply reverse_Permutation.
Defined.


(** The no-break space is white space to [\s]: a loop written with it is
    found and replaced. *)
Example neutralize_no_break_space :
  occurs (fst (default (Eps, "") (TRAP_STRINGS !! 0)))
    ("while" +:+ NBSP +:+ "(true)" +:+ NBSP +:+ "{}") = true
  ∧ neutralize ("while" +:+ NBSP +:+ "(true)" +:+ NBSP +:+ "{}") = "while (0) {}".
Proof. vm_compute. done. Qed.

(** Each of the three patterns is found wherever it stands in a text. *)
Example occurs_runs :
  occurs (fst (default (Eps, "") (TRAP_STRINGS !! 0))) "x = 1; while (1) {} y" = true
  ∧ occurs (fst (default (Eps, "") (TRAP_STRINGS !! 1))) "a; DeBugger; b" = true
  ∧ occurs (fst (default (Eps, "") (TRAP_STRINGS !! 0))) "while (0) {}" = false.
Proof. vm_compute. done. Qed.

End Runs.

End EvalInVmCacheProps.

Module CreateOrderedSrcOrderProps.
Import Js Ast JsString Regex CreateOrderedSrc CreateOrderedSrcProps.

Section WithParser.
Variable parses : string → bool.

Local Abbreviation settle := (settle parses).
Local Abbreviation settleAll := (settleAll parses).
Local Abbreviation createOrderedSrc := (createOrderedSrc parses).

(** The first loop changes the tree by a drift, also when it is left by an
    exception. *)
Lemma settleAll_drifts preserveOrder nodes :
  ∀ processedNodes st, drifts st (snd (settleAll preserveOrder nodes processedNodes st)).
Proof.
  induction nodes as [|it rest IH]; intros acc st; cbn; [apply drifts_refl |].
  destruct (settle preserveOrder st it) as [[cur st1]| |] eqn:Hs;
    cbn; try apply drifts_refl.
  pose proof (settle_drifts _ _ _ _ _ _ Hs) as Hd.
  specialize (IH (if bool_decide (cur ∈ acc) then acc else acc ++ [cur]) st1).
  destruct (settleAll preserveOrder rest _ st1) as [[[rest' p']| |] st2];
    cbn in *; by apply (drifts_trans _ st1).
Qed.

Lemma addNameToFE_tree st c nm extra :
  tree (snd (addNameToFE parses c nm extra st)) = tree st.
Proof. unfold addNameToFE. by destruct (parses _). Qed.

(** With [preserveOrder], a round assigns to no node of the tree. *)
Lemma settle_preserves st it it' st' :
  settle true st it = Ret (it', st') → tree st' = tree st.
Proof.
  unfold CreateOrderedSrc.settle. intros H.
  destruct it as [c|k]; [| by injection H as <- <-].
  destruct (typeIs (tree st) c "CallExpression").
  - destruct (parentNode (tree st c)) as [p|]; [| discriminate].
    destruct (typeIs (tree st) p "ExpressionStatement"); [by injection H as <- <- |].
    destruct (callee (tree st c)) as [f|]; [| discriminate].
    rewrite andb_false_r in H. by injection H as <- <-.
  - destruct (typeIs (tree st) c "FunctionExpression"
              && negb (bool_decide (is_Some (id_ (tree st c)))));
      [| by injection H as <- <-].
    pose proof (addNameToFE_tree st c (parentIdName st c) 0) as Ht.
    destruct (addNameToFE parses c (parentIdName st c) 0 st) as [[nf|] s'];
      by injection H as <- <-.
Qed.

Lemma settleAll_preserves nodes :
  ∀ processedNodes st, tree (snd (settleAll true nodes processedNodes st)) = tree st.
Proof.
  induction nodes as [|it rest IH]; intros acc st; cbn; [done |].
  destruct (settle true st it) as [[cur st1]| |] eqn:Hs; cbn; try done.
  pose proof (settle_preserves _ _ _ _ Hs) as Ht.
  specialize (IH (if bool_decide (cur ∈ acc) then acc else acc ++ [cur]) st1).
  destruct (settleAll true rest _ st1) as [[[rest' p']| |] st2];
    cbn in *; congruence.
Qed.

(** X27. Whatever the outcome of a call, the only fields of the nodes of
    the tree that it has assigned to are [nodeId] fields of expression
    statements; and a call with [preserveOrder] assigns to no node of the
    tree at all. *)
Theorem createOrderedSrc_frame nodes preserveOrder st :
  drifts st (snd (createOrderedSrc nodes preserveOrder st))
  ∧ tree (snd (createOrderedSrc nodes true st)) = tree st.
Proof.
  unfold CreateOrderedSrc.createOrderedSrc. split.
  - pose proof (settleAll_drifts preserveOrder nodes [] st) as Hd.
    by destruct (settleAll preserveOrder nodes [] st) as [[[ns ps]| |] s1].
  - pose proof (settleAll_preserves nodes [] st) as Ht.
    by destruct (settleAll true nodes [] st) as [[[ns ps]| |] s1].
Qed.

Lemma insertByNodeId_Permutation st x l : insertByNodeId st x l ≡ₚ x :: l.
Proof.
  induction l as [|y l IH]; [done |]. cbn.
  destruct (itemNodeId st y <? itemNodeId st x)%Z; [| done].
  by rewrite IH, Permutation_swap.
Qed.

Lemma sortByNodeId_Permutation st l : sortByNodeId st l ≡ₚ l.
Proof.
  induction l as [|x l IH]; [done |]. cbn.
  by rewrite insertByNodeId_Permutation, IH.
Qed.

Lemma insertByNodeId_Sorted st x l :
  Sorted (λ y z, (itemNodeId st y ≤ itemNodeId st z)%Z) l →
  Sorted (λ y z, (itemNodeId st y ≤ itemNodeId st z)%Z) (insertByNodeId st x l).
Proof.
  induction 1 as [|y l Hl IH Hhd]; cbn; [by repeat constructor |].
  destruct (itemNodeId st y <? itemNodeId st x)%Z eqn:Hlt.
  - apply Z.ltb_lt in Hlt. constructor; [done |].
    destruct Hhd as [|z l' Hyz]; cbn.
    + constructor. lia.
    + destruct (itemNodeId st z <? itemNodeId st x)%Z; constructor; [done | lia].
  - apply Z.ltb_ge in Hlt. constructor; [by constructor |]. by constructor.
Qed.

Lemma sortByNodeId_Sorted st l :
  Sorted (λ y z, (itemNodeId st y ≤ itemNodeId st z)%Z) (sortByNodeId st l).
Proof.
  induction l as [|x l IH]; [constructor |]. cbn. by apply insertByNodeId_Sorted.
Qed.

Lemma addIfNew_fold l :
  ∀ acc,
    NoDup acc →
    NoDup (foldl addIfNew acc l)
    ∧ ∀ x, x ∈ foldl addIfNew acc l ↔ x ∈ acc ∨ x ∈ l.
Proof.
  induction l as [|y l IH]; intros acc Hacc; cbn.
  { split; [done |]. intros x. rewrite elem_of_nil. tauto. }
  unfold addIfNew at 2 4. destruct (bool_decide (y ∈ acc)) eqn:Hin.
  - apply bool_decide_eq_true in Hin.
    destruct (IH acc Hacc) as [H1 H2]. split; [done |].
    intros x. rewrite H2, elem_of_cons. split; [tauto |].
    intros [H | [-> | H]]; tauto.
  - apply bool_decide_eq_false in Hin.
    destruct (IH (acc ++ [y])) as [H1 H2].
    { apply NoDup_app. split; [done |]. split; [| apply NoDup_singleton].
      intros x Hx Hy. apply list_elem_of_singleton in Hy as ->. done. }
    split; [done |].
    intros x. rewrite H2, elem_of_app, list_elem_of_singleton, elem_of_cons. tauto.
Qed.

(** X28. The text that a call returns is made of the lines of the nodes
    that the array holds when the call ends, each node once however often
    the array holds it, in the order of their [nodeId] (as the call leaves
    them), smallest first, whatever the order of the array and whatever
    [preserveOrder]. *)
Theorem createOrderedSrc_sorted nodes preserveOrder st text nodes' st' :
  createOrderedSrc nodes preserveOrder st = (Ret text, nodes', st') →
  ∃ rendered,
    render st' rendered = Ret text
    ∧ Sorted (λ y z, (itemNodeId st' y ≤ itemNodeId st' z)%Z) rendered
    ∧ NoDup rendered
    ∧ ∀ x, x ∈ rendered ↔ x ∈ nodes'.
Proof.
  unfold CreateOrderedSrc.createOrderedSrc. intros H.
  destruct (settleAll preserveOrder nodes [] st) as [[[ns ps]| |] s1] eqn:Hs;
    [| discriminate | discriminate].
  injection H as Hout <- <-.
  destruct (settleAll_settled _ _ _ _ _ _ _ _ Hs) as (_ & -> & _).
  destruct (addIfNew_fold ns [] (NoDup_nil_2)) as [Hnd Hin].
  exists (sortByNodeId s1 (foldl addIfNew [] ns)).
  split; [done |]. split; [apply sortByNodeId_Sorted |]. split.
  - by rewrite sortByNodeId_Permutation.
  - intros x. rewrite sortByNodeId_Permutation, Hin, elem_of_nil. tauto.
Qed.

End WithParser.

Section Runs.
Import IifeScripts.

(** The two calls of [(function(){})(); !function(a){}();], the first of
    them twice in the array. *)
Lemma createOrderedSrc_sorted_witness :
  let call := createOrderedSrc parses [Tree 2; Tree 7; Tree 2] false fresh in
  ∃ rendered,
    render (snd call) rendered = fst (fst call)
    ∧ Sorted (λ y z, (itemNodeId (snd call) y ≤ itemNodeId (snd call) z)%Z) rendered
    ∧ NoDup rendered
    ∧ ∀ x, x ∈ rendered ↔ x ∈ snd (fst call).
Proof.
  cbn zeta.
  destruct (createOrderedSrc parses [Tree 2; Tree 7; Tree 2] false fresh)
    as [[out nodes'] st'] eqn:H.
  destruct out as [text| |]; [| vm_compute in H; discriminate ..].
  cbn [fst snd]. exact (createOrderedSrc_sorted parses _ _ _ _ _ _ H).
Defined.

(** With [preserveOrder] the nodes keep their [nodeId] and come out in the
    order of the script, whatever the order of the array; the second call,
    which is not a statement of its own, is left as it is. *)
Example createOrderedSrc_preserveOrder_runs :
  fst (fst (createOrderedSrc parses [Tree 7; Tree 2] true fresh))
  = Ret ("(function(){})();" +:+ LF +:+ "function(a){}()" +:+ LF).
Proof. vm_compute. reflexivity. Qed.

(** A declarator comes out behind the [kind] of its declaration and in
    front of a semicolon. *)
Example createOrderedSrc_declarator_runs :
  fst (fst (createOrderedSrc parses [Tree 2] false
              {| tree := ChainScripts.initScript; named := [] |}))
  = Ret ("var x = f();" +:+ LF).
Proof. vm_compute. reflexivity. Qed.

End Runs.

End CreateOrderedSrcOrderProps.

Module TrapProps.
Import Js JsString Regex Occurrence Sandbox EvalInVm.

Lemma append_cons c (s t : string) : String c s +:+ t = String c (s +:+ t).
Proof. reflexivity. Qed.

Lemma append_nil_r (s : string) : s +:+ "" = s.
Proof. induction s as [|c s IH]; [done |]. by rewrite append_cons, IH. Qed.

Lemma textI_cons a w c s :
  matchPrefix (textI (String a w)) (String c s)
  = if bool_decide (lower c = lower a) then matchPrefix (textI w) s else None.
Proof. reflexivity. Qed.

Lemma textI_consumes w :
  ∀ s rest, matchPrefix (textI w) s = Some rest →
    String.length s = String.length w + String.length rest.
Proof.
  induction w as [|a w IH]; intros s rest H.
  - cbn in H. by injection H as <-.
  - destruct s as [|c s]; [discriminate |]. rewrite textI_cons in H.
    destruct (bool_decide (lower c = lower a)); [| discriminate].
    cbn. by rewrite (IH _ _ H).
Qed.

Lemma head_transfer r R' w :
  forallb (λ a, negb (bool_decide (lower DQ = lower a))) (list_ascii_of_string w) = true →
  ∀ fuel s,
    matchPrefix (textI w) (replaceFrom fuel r (String DQ R') s) ≠ None →
    matchPrefix (textI w) s ≠ None.
Proof.
  induction w as [|a w IH]; intros Hw fuel s H; [done |].
  cbn in Hw. apply andb_true_iff in Hw as [Ha Hw].
  apply negb_true_iff, bool_decide_eq_false in Ha.
  destruct fuel as [|fuel]; [done |]. cbn [replaceFrom] in H.
  assert (∀ x, matchPrefix (textI (String a w)) (String DQ x) = None) as Hq.
  { intros x. rewrite textI_cons. by rewrite bool_decide_eq_false_2. }
  destruct (matchPrefix r s) as [rest|].
  - destruct (String.length rest <? String.length s);
      [by rewrite append_cons, Hq in H |].
    destruct s as [|c s']; [by rewrite Hq in H |]. by rewrite append_cons, Hq in H.
  - destruct s as [|c s']; [done |]. rewrite textI_cons in *.
    destruct (bool_decide (lower c = lower a)); [| done].
    by apply (IH Hw fuel).
Qed.

(** The text after a match is what is left of the text. *)
Lemma matchFrom_suffix r :
  ∀ s k x, matchFrom r s k = Some x →
    ∃ p s', s = p +:+ s' ∧ k s' = Some x.
Proof.
  induction r as [|p|r1 IH1 r2 IH2|r1 IH1 r2 IH2|r1 IH1]; intros s k x H.
  - exists "", s. done.
  - destruct s as [|c s']; [discriminate |]. cbn in H.
    destruct (p c); [| discriminate]. exists (String c ""), s'. done.
  - cbn in H. destruct (IH1 _ _ _ H) as (p1 & s1 & -> & H1).
    destruct (IH2 _ _ _ H1) as (p2 & s2 & -> & H2).
    exists (p1 +:+ p2), s2. split; [| done].
    clear. induction p1 as [|c p1 IH]; [done |]. rewrite !append_cons. by rewrite IH.
  - cbn in H. destruct (matchFrom r1 s k) eqn:H1.
    + injection H as <-. by apply IH1.
    + by apply IH2.
  - cbn [matchFrom] in H. revert H. generalize (String.length s) at 1. intros fuel.
    revert s. induction fuel as [|fuel IHf]; intros s H.
    + exists "", s. done.
    + destruct (matchFrom r1 s _) eqn:H1 in H.
      * injection H as ->. destruct (IH1 _ _ _ H1) as (p1 & s1 & -> & H2).
        destruct (String.length s1 <? String.length (p1 +:+ s1)); [| discriminate].
        destruct (IHf _ H2) as (p2 & s2 & -> & H3).
        exists (p1 +:+ p2), s2. split; [| done].
        clear. induction p1 as [|c p1 IH]; [done |]. rewrite !append_cons. by rewrite IH.
      * exists "", s. done.
Qed.

Lemma occurs_suffix r p :
  ∀ s, occurs r (p +:+ s) = false → occurs r s = false.
Proof.
  induction p as [|c p IH]; intros s H; [done |].
  rewrite append_cons in H. cbn in H.
  destruct (matchPrefix r (String c (p +:+ s))); [discriminate |]. by apply IH.
Qed.

Lemma occurs_cons r c s :
  occurs r (String c s) = false ↔ matchPrefix r (String c s) = None ∧ occurs r s = false.
Proof.
  cbn. destruct (matchPrefix r (String c s)); split; try done; intros []; done.
Qed.

Lemma head_transfer_cons r R' w fuel c s :
  forallb (λ a, negb (bool_decide (lower DQ = lower a))) (list_ascii_of_string w) = true →
  matchPrefix (textI w) (String c (replaceFrom fuel r (String DQ R') s)) ≠ None →
  matchPrefix (textI w) (String c s) ≠ None.
Proof.
  intros Hw H. destruct w as [|a w]; [done |]. rewrite textI_cons in *.
  cbn in Hw. apply andb_true_iff in Hw as [_ Hw].
  destruct (bool_decide (lower c = lower a)); [| done].
  by apply (head_transfer r R' w Hw fuel).
Qed.

(** Replacing a pattern by a text in double quotes, in a text where every
    occurrence of the word is an occurrence of the pattern, or where the word
    does not occur. *)
Lemma replaceFrom_free r R' w :
  forallb (λ a, negb (bool_decide (lower DQ = lower a))) (list_ascii_of_string w) = true →
  w ≠ "" →
  (∀ t, occurs (textI w) t = false → occurs (textI w) (String DQ R' +:+ t) = false) →
  ∀ fuel s,
    String.length s < fuel →
    r = textI w ∨ occurs (textI w) s = false →
    occurs (textI w) (replaceFrom fuel r (String DQ R') s) = false.
Proof.
  intros Hw Hne Hsafe. induction fuel as [|fuel IH]; intros s Hlen Hcase; [lia |].
  cbn [replaceFrom].
  destruct (matchPrefix r s) as [rest|] eqn:Hm.
  - destruct (matchFrom_suffix r s Some rest Hm) as (p & s' & Hs & [= ->]).
    assert (r = textI w ∨ occurs (textI w) rest = false) as Hrest.
    { destruct Hcase as [-> | Hfree]; [by left | right].
      subst s. by apply (occurs_suffix _ p). }
    destruct (String.length rest <? String.length s) eqn:Hlt.
    + apply Nat.ltb_lt in Hlt. apply Hsafe, IH; [lia | done].
    + apply Nat.ltb_ge in Hlt.
      destruct Hcase as [-> | Hfree].
      { apply textI_consumes in Hm. destruct w; [done |]. cbn in *. lia. }
      destruct s as [|c s0];
        [rewrite <- (append_nil_r (String DQ R')); by apply Hsafe |].
      apply Hsafe.
      apply occurs_cons in Hfree as [Hh Ht].
      apply occurs_cons. split.
      * destruct (matchPrefix (textI w) (String c (replaceFrom fuel r (String DQ R') s0)))
          eqn:Ho; [| done].
        exfalso. apply (head_transfer_cons r R' w fuel c s0 Hw); [by rewrite Ho | done].
      * apply IH; [cbn in Hlen; lia | by right].
  - destruct s as [|c s']; [by destruct w |].
    apply occurs_cons. split.
    + destruct (matchPrefix (textI w) (String c (replaceFrom fuel r (String DQ R') s')))
        eqn:Ho; [| done].
      exfalso. apply (head_transfer_cons r R' w fuel c s' Hw); [by rewrite Ho |].
      destruct Hcase as [-> | Hfree]; [done |]. by apply occurs_cons in Hfree as [Hh _].
    + apply IH; [cbn in Hlen; lia |].
      destruct Hcase as [-> | Hfree]; [by left | right].
      by apply occurs_cons in Hfree as [_ Ht].
Qed.

Lemma debugger_no_quote :
  forallb (λ a, negb (bool_decide (lower DQ = lower a)))
    (list_ascii_of_string "debugger") = true.
Proof. reflexivity. Qed.

Lemma textI_mismatch a w c s :
  lower c ≠ lower a → matchPrefix (textI (String a w)) (String c s) = None.
Proof. intros H. rewrite textI_cons. by rewrite bool_decide_eq_false_2. Qed.

Lemma quoted_word_safe t :
  occurs (textI "debugger") t = false →
  occurs (textI "debugger") (quoted "debugge_" +:+ t) = false.
Proof.
  intros Ht. unfold quoted. rewrite !append_cons.
  repeat (apply occurs_cons; split;
          [reflexivity || (rewrite textI_mismatch; [done | discriminate]) |]).
  exact Ht.
Qed.

Lemma quoted_halves_safe t :
  occurs (textI "debugger") t = false →
  occurs (textI "debugger") ((quoted "debu" +:+ " + " +:+ quoted "gge_") +:+ t) = false.
Proof.
  intros Ht. unfold quoted. rewrite !append_cons.
  repeat (apply occurs_cons; split;
          [reflexivity || (rewrite textI_mismatch; [done | discriminate]) |]).
  exact Ht.
Qed.

Lemma deletions_safe t :
  occurs (textI "debugger") t = false →
  occurs (textI "debugger") (withDeletions t) = false.
Proof.
  intros Ht. unfold withDeletions, LF. rewrite !append_cons.
  repeat (apply occurs_cons; split;
          [reflexivity || (rewrite textI_mismatch; [done | discriminate]) |]).
  exact Ht.
Qed.

(** X26. Whatever the text, the word [debugger] does not occur, in any
    letter case, in the text that the loop over [TRAP_STRINGS] produces, nor
    in the text that [run] compiles from it. *)
Theorem neutralize_removes_debugger stringToEval :
  occurs (textI "debugger") (neutralize stringToEval) = false
  ∧ occurs (textI "debugger") (withDeletions (neutralize stringToEval)) = false.
Proof.
  assert (occurs (textI "debugger") (neutralize stringToEval) = false) as H;
    [| split; [done | by apply deletions_safe]].
  unfold neutralize, TRAP_STRINGS. cbn [foldl fst snd]. unfold replaceAll.
  set (s1 := replaceFrom _ _ "while (0) {}" stringToEval).
  set (s2 := replaceFrom _ (textI "debugger") _ s1).
  assert (occurs (textI "debugger") s2 = false) as H2.
  { apply (replaceFrom_free (textI "debugger") _ "debugger" debugger_no_quote);
      [done | exact quoted_word_safe | lia | by left]. }
  assert (∃ R', quoted "debu" +:+ " + " +:+ quoted "gge_" = String DQ R') as [R' HR].
  { eexists. reflexivity. }
  rewrite HR.
  apply (replaceFrom_free _ R' "debugger" debugger_no_quote);
    [done | rewrite <- HR; exact quoted_halves_safe | lia | by right].
Qed.

(** The word in a string literal and in an identifier is replaced as well. *)
Example neutralize_runs :
  neutralize "debugger; x = 'Debugger'; mydebuggerfn()"
  = quoted "debugge_" +:+ "; x = '" +:+ quoted "debugge_" +:+ "'; my"
    +:+ quoted "debugge_" +:+ "fn()".
Proof. vm_compute. reflexivity. Qed.

End TrapProps.

Module EvalInVmResultProps.
Import Js Ast JsString Regex GenerateHash CreateNewNode Sandbox EvalInVm.
Import CreateNewNodeProps EvalInVmProps.

Section WithEnvironment.
Context {N Ctx : Type}.
Variable md5 : string → string.
Variable parseCode : string → option (list N).
Variable keysOfNode : N → list string.
Variable consoleKeys : list string.
Variable createContextSync : nat → Ctx.
Variable setGlobalSelf : Ctx → Ctx.
Variable setUndefined : Ctx → string → Ctx.
Variable runSync : nat → Ctx → string → runResult N * Ctx.

Local Abbreviation evalInVm :=
  (evalInVm md5 parseCode keysOfNode consoleKeys createContextSync
     setGlobalSelf setUndefined runSync).
Local Abbreviation cacheName := (cacheName md5).

(** X24. What a call that misses the cache can return: [BAD_VALUE]; a node
    made by [createNewNode] with no [BAD_VALUE] inside; the identifier
    [console]; or, for a value whose joined keys spell the name of a member
    of [Object.prototype], that member. *)
Theorem evalInVm_result_domain stringToEval sb
    (CACHE : gmap string (evaluated N)) result :
  CACHE !! cacheName stringToEval = None →
  valueOf (evalInVm stringToEval sb CACHE) = Ret result →
  (∃ n, result = Created n ∧ (n = BAD_VALUE ∨ clean n = true))
  ∨ (∃ member, result = Inherited member ∧ member ∈ OBJECT_PROTOTYPE_KEYS).
Proof.
  intros Hmiss Hres.
  rewrite (proj1 (evalInVm_miss _ _ _ _ _ _ _ _ _ _ _ Hmiss)) in Hres.
  injection Hres as <-. rewrite attempt_run.
  destruct (executed _ _ _ _ _ _) as [f|r]; [left; eexists; by split; [| left] |].
  destruct (isReference (HReference r) && negb (includes BAD_TYPES (referenceType r)));
    [| left; eexists; by split; [| left]].
  destruct (copySync r) as [value|]; [| left; eexists; by split; [| left]].
  destruct (objectKeys keysOfNode value) as [keys|];
    [| left; eexists; by split; [| left]].
  unfold MATCHING_OBJECT_KEYS.
  destruct (bool_decide _ || bool_decide _).
  { left. eexists. split; [done |]. by right. }
  destruct (includes OBJECT_PROTOTYPE_KEYS (join (sort keys))) eqn:Hin.
  - right. eexists. split; [done |]. by apply bool_decide_eq_true in Hin.
  - left. eexists. split; [done |]. apply createNewNode_bad_or_clean.
Qed.

End WithEnvironment.

Lemma evalInVm_result_domain_witness :
  (∃ n : newNode Empty_set,
     Created (plainLiteral (PNumber (Number "11" false)) "11") = Created n
     ∧ (n = BAD_VALUE ∨ clean n = true))
  ∨ (∃ member, @Created Empty_set (plainLiteral (PNumber (Number "11" false)) "11")
               = Inherited member
               ∧ member ∈ OBJECT_PROTOTYPE_KEYS).
Proof.
  apply (evalInVm_result_domain Fixtures.md5 ToyEngine.parseCode ToyEngine.keysOfNode
           ToyEngine.consoleKeys ToyEngine.createContextSync ToyEngine.setGlobalSelf
           ToyEngine.setUndefined ToyEngine.runSync "5 + 3 * 2" None ∅);
    reflexivity.
Defined.

End EvalInVmResultProps.

Module AreReferencesModifiedProps.
Import Js Ast AreReferencesModified.

Section WithTree.
Variable PROPERTIES_THAT_MODIFY_CONTENT : list string.
Variable a : ast.
Variable e : handle → operands.

Local Abbreviation inspect := (inspect PROPERTIES_THAT_MODIFY_CONTENT a e).
Local Abbreviation scan := (scan PROPERTIES_THAT_MODIFY_CONTENT a e).
Local Abbreviation areReferencesModified :=
  (areReferencesModified PROPERTIES_THAT_MODIFY_CONTENT a e).
Local Abbreviation answers := (answers PROPERTIES_THAT_MODIFY_CONTENT a e).
Local Abbreviation flagged := (flagged PROPERTIES_THAT_MODIFY_CONTENT a e).

Lemma scan_flagged fuel assignmentExpressions refs :
  forallb (answers fuel assignmentExpressions) refs = true →
  scan fuel assignmentExpressions refs
  = Ret (existsb (flagged fuel assignmentExpressions) refs).
Proof.
  induction refs as [|ref rest IH]; [done |]. cbn [forallb existsb].
  intros H. apply andb_true_iff in H as [Href Hrest].
  cbn [AreReferencesModified.scan]. unfold AreReferencesModified.answers in Href.
  unfold AreReferencesModified.flagged at 1.
  destruct (inspect fuel assignmentExpressions ref) as [[|]| |]; try discriminate.
  - done.
  - cbn. by apply IH.
Qed.

Lemma existsb_Permutation {A : Type} (f : A → bool) l l' :
  l ≡ₚ l' → existsb f l = existsb f l'.
Proof.
  induction 1 as [|x l l' _ IH|x y l|l l' l'' _ IH1 _ IH2]; cbn.
  - done.
  - by rewrite IH.
  - by destruct (f x), (f y).
  - by rewrite IH1.
Qed.

Lemma forallb_Permutation {A : Type} (f : A → bool) l l' :
  l ≡ₚ l' → forallb f l = forallb f l'.
Proof.
  induction 1 as [|x l l' _ IH|x y l|l l' l'' _ IH1 _ IH2]; cbn.
  - done.
  - by rewrite IH.
  - by destruct (f x), (f y).
  - by rewrite IH1.
Qed.

(** X9. When every round of the loop answers (no reference makes a read
    of a missing parent or a missing operand throw), the verdict is [true]
    exactly when some reference is found modified by its own round, and it is
    the same for the references in any other order. *)
Theorem areReferencesModified_any_order fuel typeMapAssignmentExpression refs refs' :
  refs ≡ₚ refs' →
  forallb (answers fuel (default [] typeMapAssignmentExpression)) refs = true →
  areReferencesModified fuel typeMapAssignmentExpression refs
  = Ret (existsb (flagged fuel (default [] typeMapAssignmentExpression)) refs)
  ∧ areReferencesModified fuel typeMapAssignmentExpression refs'
    = areReferencesModified fuel typeMapAssignmentExpression refs.
Proof.
  intros Hperm Hall.
  assert (∀ l, forallb (answers fuel (default [] typeMapAssignmentExpression)) l = true →
               areReferencesModified fuel typeMapAssignmentExpression l
               = Ret (existsb (flagged fuel (default [] typeMapAssignmentExpression)) l))
    as Hscan.
  { intros l Hl. unfold AreReferencesModified.areReferencesModified.
    case_bool_decide as Hnil; [by subst l | by apply scan_flagged]. }
  split; [by apply Hscan |].
  rewrite !Hscan; [| done | by rewrite <- (forallb_Permutation _ _ _ Hperm)].
  by rewrite (existsb_Permutation _ _ _ Hperm).
Qed.

(** X10. The loop stops at the first reference that is found modified: the
    references after it are not looked at. A reference without parent,
    reached by the loop, makes the call throw. An empty array of references
    gives [false] before the [typeMap] is read. *)
Theorem areReferencesModified_stops fuel typeMapAssignmentExpression :
  (∀ refs1 refs2,
     areReferencesModified fuel typeMapAssignmentExpression refs1 = Ret true →
     areReferencesModified fuel typeMapAssignmentExpression (refs1 ++ refs2) = Ret true)
  ∧ (∀ ref rest,
       parentNode (a ref) = None →
       areReferencesModified fuel typeMapAssignmentExpression (ref :: rest) = Throw)
  ∧ areReferencesModified fuel None [] = Ret false.
Proof.
  split; [| split; [| done]].
  - intros refs1 refs2. unfold AreReferencesModified.areReferencesModified.
    case_bool_decide as Hnil; [discriminate |].
    rewrite bool_decide_eq_false_2 by (by destruct refs1).
    induction refs1 as [|ref rest IH]; [done |]. cbn.
    destruct (inspect fuel _ ref) as [[|]| |]; cbn; try done.
    destruct rest as [|ref' rest']; [discriminate |]. by apply IH.
  - intros ref rest Hroot. unfold AreReferencesModified.areReferencesModified.
    cbn. unfold AreReferencesModified.inspect, parentOf. rewrite Hroot.
    by destruct (bool_decide (parentKey (a ref) = "left")).
Qed.

End WithTree.

Section Runs.
Import Fixtures OperandFixtures.

Local Abbreviation modified :=
  (areReferencesModified PROPERTIES_THAT_MODIFY_CONTENT antiDebugScript
     antiDebugOperands 10 (Some [5; 9; 15])).

(** Two references to [a] in the five lines of [antiDebugScript]: the callee
    of the call and the left side of the first assignment. *)
Lemma areReferencesModified_any_order_witness :
  modified [20; 6] = Ret true ∧ modified [6; 20] = modified [20; 6].
Proof.
  apply (areReferencesModified_any_order PROPERTIES_THAT_MODIFY_CONTENT
           antiDebugScript antiDebugOperands 10 (Some [5; 9; 15]) [20; 6] [6; 20]).
  - apply perm_swap.
  - reflexivity.
Defined.

(** The verdicts on the script: the references of [a] one by one, and the
    member expression [a.b] of the call, which the statement [a.b = 2]
    assigns to. *)
Example areReferencesModified_runs :
  modified [6] = Ret true
  ∧ modified [11] = Ret true
  ∧ modified [20] = Ret false
  ∧ modified [22] = Ret false
  ∧ modified [21] = Ret true
  ∧ modified [0] = Throw
  ∧ modified [] = Ret false.
Proof. vm_compute. done. Qed.

End Runs.

End AreReferencesModifiedProps.
